(** * A shallow embedding of the ts-prolog core (src/main.ts)

    Terms, substitution, unification, clause refreshing and the
    breadth-first resolution engine, followed by the properties the
    specification states about them.

    Object identity.  Every JavaScript object of the program is created
    by [new]; two references are [===] exactly when they come from the
    same allocation.  The embedding gives every object an allocation
    tag (a natural number taken from a counter that the allocating
    functions thread through) and keeps the tag inside the value, so
    that a value of the embedding *is* an object identity: two values
    are the same object when they are equal, tag included.  The objects
    that the core allocates itself are [Variable]s (in [clone]) and
    [Application]s (in [apply]); both take their tag from the counter.
    [Substitution], [Constraint], [Fact], [Rule] and [Goal] objects are
    never compared by the program and carry no tag. *)

From Stdlib Require Import List String Arith Lia Bool.
Import ListNotations.
#[local] Set Warnings "-register-all".
Open Scope string_scope.
Open Scope list_scope.

(** ** Term model (main.ts 1-30) *)

Record Functor_ := mkFunctor { functor_tag : nat; functor_name : string }.
Record Constant := mkConstant { constant_tag : nat; constant_name : string }.
Record Variable_ := mkVariable { variable_tag : nat; variable_name : string }.
Record Predicate := mkPredicate { predicate_tag : nat; predicate_name : string }.

(** [Application] carries its allocation tag [ref]; [Var] and [Const]
    are references to a [Variable] and a [Constant] object. *)
Inductive Term : Type :=
| Var (v : Variable_)
| Const (c : Constant)
| Application (ref : nat) (functor : Functor_) (terms : list Term).

(** *** [===] on each kind of object

    A reference is the value with its tag.  Objects are immutable and
    no tag is given twice, so two references are to the same object
    exactly when the values are equal: two applications built
    separately differ in their tags and are not [===], although they
    may have the same functor and arguments. *)

Definition functor_same (f g : Functor_) : bool :=
  Nat.eqb (functor_tag f) (functor_tag g) && String.eqb (functor_name f) (functor_name g).

Definition constant_same (c d : Constant) : bool :=
  Nat.eqb (constant_tag c) (constant_tag d) && String.eqb (constant_name c) (constant_name d).

Definition variable_same (v w : Variable_) : bool :=
  Nat.eqb (variable_tag v) (variable_tag w) && String.eqb (variable_name v) (variable_name w).

Definition predicate_same (p q : Predicate) : bool :=
  Nat.eqb (predicate_tag p) (predicate_tag q) && String.eqb (predicate_name p) (predicate_name q).

Fixpoint term_same (a b : Term) : bool :=
  match a, b with
  | Var v, Var w => variable_same v w
  | Const c, Const d => constant_same c d
  | Application r f ts, Application r' f' ts' =>
      Nat.eqb r r' && functor_same f f' &&
      (fix all2 (l l' : list Term) : bool :=
         match l, l' with
         | [], [] => true
         | x :: l, y :: l' => term_same x y && all2 l l'
         | _, _ => false
         end) ts ts'
  | _, _ => false
  end.

Definition is_Variable (t : Term) : bool :=
  match t with Var _ => true | _ => false end.

Definition is_Constant (t : Term) : bool :=
  match t with Const _ => true | _ => false end.

(** ** [listVariables] (main.ts 32-48)

    A JavaScript [Set] keeps its elements in insertion order and
    ignores the insertion of an element it already holds. *)

Definition set_has (v : Variable_) (s : list Variable_) : bool :=
  existsb (variable_same v) s.

Definition set_add (s : list Variable_) (v : Variable_) : list Variable_ :=
  if set_has v s then s else s ++ [v].

Definition set_add_all (s : list Variable_) (vs : list Variable_) : list Variable_ :=
  fold_left set_add vs s.

Fixpoint listVariables (term : Term) : list Variable_ :=
  match term with
  | Var v => set_add [] v
  | Const _ => []
  | Application _ _ terms =>
      (fix each (ts : list Term) (variables : list Variable_) : list Variable_ :=
         match ts with
         | [] => variables
         | t :: ts => each ts (set_add_all variables (listVariables t))
         end) terms []
  end.

(** The variables of a list of terms, collected into one set the way
    [clone] and [query] do it. *)
Definition collect (variables : list Variable_) (terms : list Term) : list Variable_ :=
  fold_left (fun vs t => set_add_all vs (listVariables t)) terms variables.

(** ** [Substitution] (main.ts 145-172) *)

Module Substitution.

Record t := mk { variable : Variable_; term : Term }.

(** [apply] builds a new [Application] object for every application
    node it visits: the arguments are mapped first, then the node is
    allocated. *)
Fixpoint apply (s : t) (tm : Term) (n : nat) : Term * nat :=
  match tm with
  | Var v => if variable_same v (variable s) then (term s, n) else (tm, n)
  | Const _ => (tm, n)
  | Application _ f ts =>
      let '(ts', n') :=
        (fix map_apply (l : list Term) (n : nat) : list Term * nat :=
           match l with
           | [] => ([], n)
           | x :: l =>
               let '(x', n1) := apply s x n in
               let '(l', n2) := map_apply l n1 in
               (x' :: l', n2)
           end) ts n in
      (Application n' f ts', S n')
  end.

(** [substitutions.reduce((term, s) => s.apply(term), term)] *)
Fixpoint applyAll (tm : Term) (substitutions : list t) (n : nat) : Term * nat :=
  match substitutions with
  | [] => (tm, n)
  | s :: rest => let '(tm', n') := apply s tm n in applyAll tm' rest n'
  end.

End Substitution.

(** Allocation-threading maps used by [clone], [unify] and [query]. *)

(** [terms.map(term => Substitution.applyAll(term, substitutions))] *)
Fixpoint applyAll_each (tms : list Term) (substitutions : list Substitution.t) (n : nat)
  : list Term * nat :=
  match tms with
  | [] => ([], n)
  | tm :: tms =>
      let '(tm', n1) := Substitution.applyAll tm substitutions n in
      let '(tms', n2) := applyAll_each tms substitutions n1 in
      (tm' :: tms', n2)
  end.

(** [Array.from(variables).map(v => new Substitution(v, new Variable(v.name)))]:
    one new [Variable] object per element, in the order of the set. *)
Fixpoint refresh (variables : list Variable_) (n : nat) : list Substitution.t * nat :=
  match variables with
  | [] => ([], n)
  | v :: vs =>
      let w := mkVariable n (variable_name v) in
      let '(ss, n') := refresh vs (S n) in
      (Substitution.mk v (Var w) :: ss, n')
  end.

(** ** [Fact], [Rule], [Goal] (main.ts 55-143) *)

Record Atom := mkAtom { predicate : Predicate; terms : list Term }.

Module Fact.

Record t := mk { predicate : Predicate; terms : list Term }.

Definition clone (this : t) (n : nat) : t * nat :=
  let variables := collect [] (terms this) in
  let '(substitutions, n1) := refresh variables n in
  let '(tms, n2) := applyAll_each (terms this) substitutions n1 in
  (mk (predicate this) tms, n2).

End Fact.

Module Rule.

Record t := mk { left : Atom; right : list Atom }.

(** [this.right.map(({ predicate, terms }) => ({ predicate, terms: terms.map(...) }))] *)
Fixpoint clone_right (atoms : list Atom) (substitutions : list Substitution.t) (n : nat)
  : list Atom * nat :=
  match atoms with
  | [] => ([], n)
  | a :: atoms =>
      let '(tms, n1) := applyAll_each (terms a) substitutions n in
      let '(atoms', n2) := clone_right atoms substitutions n1 in
      (mkAtom (predicate a) tms :: atoms', n2)
  end.

Definition clone (this : t) (n : nat) : t * nat :=
  let variables := collect [] (terms (left this)) in
  let variables := fold_left (fun vs a => collect vs (terms a)) (right this) variables in
  let '(substitutions, n1) := refresh variables n in
  let '(ltms, n2) := applyAll_each (terms (left this)) substitutions n1 in
  let '(r, n3) := clone_right (right this) substitutions n2 in
  (mk (mkAtom (predicate (left this)) ltms) r, n3).

End Rule.

Module Goal.

Record t := mk { predicate : Predicate; terms : list Term }.

End Goal.

(** ** [Constraint] and unification (main.ts 174-232) *)

Module Constraint.

Record t := mk { left : Term; right : Term }.

(** [constraints.slice(1).map(c => new Constraint(s.apply(c.left), s.apply(c.right)))] *)
Fixpoint apply_each (s : Substitution.t) (cs : list t) (n : nat) : list t * nat :=
  match cs with
  | [] => ([], n)
  | c :: cs =>
      let '(l, n1) := Substitution.apply s (left c) n in
      let '(r, n2) := Substitution.apply s (right c) n1 in
      let '(cs', n3) := apply_each s cs n2 in
      (mk l r :: cs', n3)
  end.

(** The loop building [constraintsNew] from two argument lists of
    the same length. *)
Definition pairwise (ls rs : list Term) : list t :=
  map (fun p => mk (fst p) (snd p)) (combine ls rs).

(** [unify] recurses without a bound in the source: there is no
    occurs check, and a call can recurse for ever.  [depth] bounds the
    depth of the recursion; the outer [None] is
    "deeper than [depth]", [Some (None, _)] is the source's [null]
    and [Some (Some substitutions, _)] a successful result.  The
    second component is the allocation counter. *)
Fixpoint unify (depth : nat) (constraints : list t) (n : nat)
  : option (option (list Substitution.t) * nat) :=
  match constraints with
  | [] => Some (Some [], n)
  | c :: rest =>
      match depth with
      | 0 => None
      | S depth =>
          let bind (substitution : Substitution.t) :=
            let '(rest', n1) := apply_each substitution rest n in
            match unify depth rest' n1 with
            | None => None
            | Some (None, n2) => Some (None, n2)
            | Some (Some substitutions, n2) => Some (Some (substitution :: substitutions), n2)
            end in
          let constant : option (option (list Substitution.t) * nat) :=
            if term_same (left c) (right c) then Some (Some [], n) else Some (None, n) in
          if term_same (left c) (right c) then unify depth rest n
          else
            match left c, right c with
            | Var v, r => bind (Substitution.mk v r)
            | l, Var v => bind (Substitution.mk v l)
            | Const _, _ => constant
            | _, Const _ => constant
            | Application _ f ls, Application _ g rs =>
                if negb (functor_same f g) then Some (None, n)
                else if negb (Nat.eqb (List.length ls) (List.length rs)) then Some (None, n)
                else unify depth (pairwise ls rs ++ rest) n
            end
      end
  end.

End Constraint.

(** ** [Space] and the resolution engine (main.ts 234-344) *)

Module Space.

Record t := mk { facts : list Fact.t; rules : list Rule.t }.

Record Item := mkItem { goals : list Goal.t; substitutions : list Substitution.t }.

(** A JavaScript [Map<Variable, Term>]: entries in insertion order,
    [set] on a key already present replaces its value in place. *)
Definition Mapping := list (Variable_ * Term).

Fixpoint map_set (m : Mapping) (k : Variable_) (tm : Term) : Mapping :=
  match m with
  | [] => [(k, tm)]
  | (k', tm') :: m' =>
      if variable_same k' k then (k', tm) :: m' else (k', tm') :: map_set m' k tm
  end.

Record IteratorResult := mkResult { done : bool; value : Mapping }.

(** The object returned by [query]: the closure of [next] over
    [this], [freeVariables] and the mutable [queue]. *)
Record Iterator := mkIterator {
  space : t;
  freeVariables : list Variable_;
  queue : list Item
}.

(** [freeVariables.forEach(v => variableTermMapping.set(v, applyAll(v, substitutions)))] *)
Fixpoint bind_each (variables : list Variable_) (substs : list Substitution.t)
  (m : Mapping) (n : nat) : Mapping * nat :=
  match variables with
  | [] => (m, n)
  | v :: vs =>
      let '(tm, n1) := Substitution.applyAll (Var v) substs n in
      bind_each vs substs (map_set m v tm) n1
  end.

(** [isValid] after the [forEach] over the mapping. *)
Definition isValid (m : Mapping) : bool :=
  forallb (fun entry => negb (Nat.ltb 0 (List.length (listVariables (snd entry))))) m.

(** The loop pushing [new Constraint(applyAll(goal.terms[i], substitutions), clause.terms[i])];
    it only runs when both lists have the same length. *)
Fixpoint constraints_for (goal_terms : list Term) (substs : list Substitution.t)
  (clause_terms : list Term) (n : nat) : list Constraint.t * nat :=
  match goal_terms, clause_terms with
  | g :: gs, c :: cs =>
      let '(g', n1) := Substitution.applyAll g substs n in
      let '(rest, n2) := constraints_for gs substs cs n1 in
      (Constraint.mk g' c :: rest, n2)
  | _, _ => ([], n)
  end.

(** One pass of [for (const f of this.facts)]: the clause is cloned
    before the predicate and the arity are compared. *)
Definition try_fact (depth : nat) (goal : Goal.t) (item : Item) (f : Fact.t) (n : nat)
  : option (option Item * nat) :=
  let '(fact, n1) := Fact.clone f n in
  if negb (predicate_same (Goal.predicate goal) (Fact.predicate fact)) then Some (None, n1)
  else if negb (Nat.eqb (List.length (Goal.terms goal)) (List.length (Fact.terms fact)))
  then Some (None, n1)
  else
    let '(constraints, n2) :=
      constraints_for (Goal.terms goal) (substitutions item) (Fact.terms fact) n1 in
    match Constraint.unify depth constraints n2 with
    | None => None
    | Some (None, n3) => Some (None, n3)
    | Some (Some substitutionsNew, n3) =>
        Some (Some (mkItem (tl (goals item)) (substitutions item ++ substitutionsNew)), n3)
    end.

(** One pass of [for (const r of this.rules)]. *)
Definition try_rule (depth : nat) (goal : Goal.t) (item : Item) (r : Rule.t) (n : nat)
  : option (option Item * nat) :=
  let '(rule, n1) := Rule.clone r n in
  if negb (predicate_same (Goal.predicate goal) (predicate (Rule.left rule)))
  then Some (None, n1)
  else if negb (Nat.eqb (List.length (Goal.terms goal)) (List.length (terms (Rule.left rule))))
  then Some (None, n1)
  else
    let '(constraints, n2) :=
      constraints_for (Goal.terms goal) (substitutions item) (terms (Rule.left rule)) n1 in
    match Constraint.unify depth constraints n2 with
    | None => None
    | Some (None, n3) => Some (None, n3)
    | Some (Some substitutionsNew, n3) =>
        Some (Some (mkItem
                      (tl (goals item)
                         ++ map (fun i => Goal.mk (predicate i) (terms i)) (Rule.right rule))
                      (substitutions item ++ substitutionsNew)), n3)
    end.

(** A [for ... of] loop over the clauses of one kind; every
    successful pass pushes its item at the back of the queue. *)
Fixpoint scan {C : Type} (attempt : C -> nat -> option (option Item * nat))
  (clauses : list C) (q : list Item) (n : nat) : option (list Item * nat) :=
  match clauses with
  | [] => Some (q, n)
  | c :: clauses =>
      match attempt c n with
      | None => None
      | Some (None, n1) => scan attempt clauses q n1
      | Some (Some item, n1) => scan attempt clauses (q ++ [item]) n1
      end
  end.

(** The [while (queue.length)] loop of [next].  [fuel] bounds the
    number of iterations and [depth] the recursion of every [unify];
    [None] means that one of the two bounds was hit. *)
Fixpoint loop (this : t) (fv : list Variable_) (depth fuel : nat)
  (q : list Item) (n : nat) : option (IteratorResult * list Item * nat) :=
  match q with
  | [] => Some (mkResult true [], [], n)
  | item :: q =>
      match fuel with
      | 0 => None
      | S fuel =>
          match goals item with
          | [] =>
              let '(variableTermMapping, n1) := bind_each fv (substitutions item) [] n in
              if negb (isValid variableTermMapping) then loop this fv depth fuel q n1
              else Some (mkResult false variableTermMapping, q, n1)
          | goal :: _ =>
              match scan (try_fact depth goal item) (facts this) q n with
              | None => None
              | Some (q1, n1) =>
                  match scan (try_rule depth goal item) (rules this) q1 n1 with
                  | None => None
                  | Some (q2, n2) => loop this fv depth fuel q2 n2
                  end
              end
          end
      end
  end.

Definition next (depth fuel : nat) (it : Iterator) (n : nat)
  : option (IteratorResult * Iterator * nat) :=
  match loop (space it) (freeVariables it) depth fuel (queue it) n with
  | None => None
  | Some (r, q, n') => Some (r, mkIterator (space it) (freeVariables it) q, n')
  end.

Definition query (this : t) (goals : list Goal.t) : Iterator :=
  mkIterator this
    (fold_left (fun vs goal => collect vs (Goal.terms goal)) goals [])
    [mkItem goals []].

End Space.

(** ** Syntax of a term

    The syntactic content of a term: what remains when the allocation
    tags of its [Application] objects are forgotten.  Two terms are
    syntactically identical when they have the same [syntax]. *)

Inductive Syntax : Type :=
| SVar (v : Variable_)
| SConst (c : Constant)
| SApp (f : Functor_) (args : list Syntax).

Fixpoint syntax (t : Term) : Syntax :=
  match t with
  | Var v => SVar v
  | Const c => SConst c
  | Application _ f ts => SApp f (map syntax ts)
  end.

(** ** Auxiliary notions used to state the properties *)

(** Every variable occurrence of a piece of syntax, left to right. *)
Fixpoint svars (t : Syntax) : list Variable_ :=
  match t with
  | SVar v => [v]
  | SConst _ => []
  | SApp _ args => flat_map svars args
  end.

(** One binding applied to a piece of syntax. *)
Fixpoint sapply (x : Variable_) (u : Syntax) (t : Syntax) : Syntax :=
  match t with
  | SVar v => if variable_same v x then u else t
  | SConst _ => t
  | SApp f args => SApp f (map (sapply x u) args)
  end.

(** A list of bindings applied in order. *)
Definition sapplyAll (bs : list (Variable_ * Syntax)) (t : Syntax) : Syntax :=
  fold_left (fun t b => sapply (fst b) (snd b) t) bs t.

Definition binding (s : Substitution.t) : Variable_ * Syntax :=
  (Substitution.variable s, syntax (Substitution.term s)).

(** Simultaneous renaming of the variables of a piece of syntax. *)
Fixpoint srename (rho : Variable_ -> Variable_) (t : Syntax) : Syntax :=
  match t with
  | SVar v => SVar (rho v)
  | SConst _ => t
  | SApp f args => SApp f (map (srename rho) args)
  end.

(** The renaming induced by a list of variable-to-variable bindings:
    the first binding of a variable wins. *)
Fixpoint renaming (ss : list Substitution.t) (v : Variable_) : Variable_ :=
  match ss with
  | [] => v
  | s :: ss =>
      if variable_same v (Substitution.variable s)
      then match Substitution.term s with Var w => w | _ => v end
      else renaming ss v
  end.

(** Top-level names for the local loops of [term_same] and [apply]. *)
Fixpoint terms_same (l l' : list Term) : bool :=
  match l, l' with
  | [], [] => true
  | x :: l, y :: l' => term_same x y && terms_same l l'
  | _, _ => false
  end.

Fixpoint apply_terms (s : Substitution.t) (l : list Term) (n : nat) : list Term * nat :=
  match l with
  | [] => ([], n)
  | x :: l =>
      let '(x', n1) := Substitution.apply s x n in
      let '(l', n2) := apply_terms s l n1 in
      (x' :: l', n2)
  end.

(** The variables of a list of constraints. *)
Definition constraint_variables (cs : list Constraint.t) : list Variable_ :=
  flat_map (fun c => listVariables (Constraint.left c) ++ listVariables (Constraint.right c)) cs.

(** The binding [unify] builds for a constraint with a variable on one
    side: the left side is looked at first. *)
Definition pick (l r : Term) : option Substitution.t :=
  match l, r with
  | Var v, _ => Some (Substitution.mk v r)
  | _, Var v => Some (Substitution.mk v l)
  | _, _ => None
  end.

(** The runs of [unify] as a relation: [Unify cs n res n'] when the call
    on [cs] with allocation counter [n] returns [res] and leaves the
    counter at [n']. *)
Inductive Unify : list Constraint.t -> nat -> option (list Substitution.t) -> nat -> Prop :=
| Unify_empty n : Unify [] n (Some []) n
| Unify_same l r rest n res n' :
    term_same l r = true ->
    Unify rest n res n' ->
    Unify (Constraint.mk l r :: rest) n res n'
| Unify_bind l r rest n s rest' n1 res n' :
    term_same l r = false ->
    pick l r = Some s ->
    Constraint.apply_each s rest n = (rest', n1) ->
    Unify rest' n1 res n' ->
    Unify (Constraint.mk l r :: rest) n (option_map (cons s) res) n'
| Unify_constant l r rest n :
    term_same l r = false ->
    is_Variable l = false -> is_Variable r = false ->
    is_Constant l || is_Constant r = true ->
    Unify (Constraint.mk l r :: rest) n None n
| Unify_functor a f ls b g rs rest n :
    term_same (Application a f ls) (Application b g rs) = false ->
    functor_same f g = false ->
    Unify (Constraint.mk (Application a f ls) (Application b g rs) :: rest) n None n
| Unify_arity a f ls b g rs rest n :
    term_same (Application a f ls) (Application b g rs) = false ->
    functor_same f g = true ->
    List.length ls <> List.length rs ->
    Unify (Constraint.mk (Application a f ls) (Application b g rs) :: rest) n None n
| Unify_arguments a f ls b g rs rest n res n' :
    term_same (Application a f ls) (Application b g rs) = false ->
    functor_same f g = true ->
    List.length ls = List.length rs ->
    Unify (Constraint.pairwise ls rs ++ rest) n res n' ->
    Unify (Constraint.mk (Application a f ls) (Application b g rs) :: rest) n res n'.

(** [unify] with the result of the inner [if (left === right) return []]
    of the constant case replaced by [dead]; everything else is [unify]. *)
Fixpoint unify_with (dead : option (list Substitution.t)) (depth : nat)
  (constraints : list Constraint.t) (n : nat)
  : option (option (list Substitution.t) * nat) :=
  match constraints with
  | [] => Some (Some [], n)
  | c :: rest =>
      match depth with
      | 0 => None
      | S depth =>
          let bind (substitution : Substitution.t) :=
            let '(rest', n1) := Constraint.apply_each substitution rest n in
            match unify_with dead depth rest' n1 with
            | None => None
            | Some (None, n2) => Some (None, n2)
            | Some (Some substitutions, n2) => Some (Some (substitution :: substitutions), n2)
            end in
          let constant : option (option (list Substitution.t) * nat) :=
            if term_same (Constraint.left c) (Constraint.right c)
            then Some (dead, n) else Some (None, n) in
          if term_same (Constraint.left c) (Constraint.right c) then unify_with dead depth rest n
          else
            match Constraint.left c, Constraint.right c with
            | Var v, r => bind (Substitution.mk v r)
            | l, Var v => bind (Substitution.mk v l)
            | Const _, _ => constant
            | _, Const _ => constant
            | Application _ f ls, Application _ g rs =>
                if negb (functor_same f g) then Some (None, n)
                else if negb (Nat.eqb (List.length ls) (List.length rs)) then Some (None, n)
                else unify_with dead depth (Constraint.pairwise ls rs ++ rest) n
            end
      end
  end.

(** A binding is circular when its variable occurs in its own term:
    what an occurs check would reject. *)
Definition circular (s : Substitution.t) : bool :=
  set_has (Substitution.variable s) (listVariables (Substitution.term s)).

(** Both sides of a constraint after a list of bindings, as syntax. *)
Definition after (ss : list Substitution.t) (t : Term) : Syntax :=
  sapplyAll (map binding ss) (syntax t).

(** ** Notions used to state what [clone] does *)

(** The variables of a clause, as [clone] collects them. *)
Definition fact_variables (f : Fact.t) : list Variable_ :=
  collect [] (Fact.terms f).

Definition rule_variables (r : Rule.t) : list Variable_ :=
  fold_left (fun vs a => collect vs (terms a)) (Rule.right r)
    (collect [] (terms (Rule.left r))).

(** Every variable of the list was allocated before the counter
    reached [n]. *)
Definition allocated (n : nat) (vs : list Variable_) : bool :=
  forallb (fun v => Nat.ltb (variable_tag v) n) vs.

(** An atom up to the allocation of its applications, and its renaming. *)
Definition AtomSyntax : Type := Predicate * list Syntax.

Definition atom_syntax (a : Atom) : AtomSyntax := (predicate a, map syntax (terms a)).

Definition fact_syntax (f : Fact.t) : AtomSyntax :=
  (Fact.predicate f, map syntax (Fact.terms f)).

Definition rule_syntax (r : Rule.t) : AtomSyntax * list AtomSyntax :=
  (atom_syntax (Rule.left r), map atom_syntax (Rule.right r)).

Definition rename_atom (rho : Variable_ -> Variable_) (a : AtomSyntax) : AtomSyntax :=
  (fst a, map (srename rho) (snd a)).

(** The variables occurring in an atom. *)
Definition atom_svars (a : AtomSyntax) : list Variable_ := flat_map svars (snd a).

(** ** Observing a query

    What a caller sees of one result of [next]: the [done] flag and the
    entries of the mapping, each term up to allocation. *)
Definition Observation : Type := bool * list (Variable_ * Syntax).

Definition observe (r : Space.IteratorResult) : Observation :=
  (Space.done r, map (fun entry => (fst entry, syntax (snd entry))) (Space.value r)).

(** [k] calls of [next] in a row on the same iterator. *)
Fixpoint pulls (depth fuel k : nat) (it : Space.Iterator) (n : nat)
  : option (list Observation) :=
  match k with
  | 0 => Some []
  | S k =>
      match Space.next depth fuel it n with
      | None => None
      | Some (r, it', n') =>
          match pulls depth fuel k it' n' with
          | None => None
          | Some rs => Some (observe r :: rs)
          end
      end
  end.

(** An answer and the exhaustion signal, as observed. *)
Definition answer (entries : list (Variable_ * Syntax)) : Observation := (false, entries).
Definition exhausted : Observation := (true, []).

(** No fact and no rule of the store is on the predicate of the goal. *)
Definition predicate_absent (this : Space.t) (goal : Goal.t) : bool :=
  forallb (fun f => negb (predicate_same (Goal.predicate goal) (Fact.predicate f)))
    (Space.facts this)
  && forallb (fun r => negb (predicate_same (Goal.predicate goal)
                               (predicate (Rule.left r))))
       (Space.rules this).

(** The iterators a caller can hold: the one [query] returns and those
    left by calls of [next] on it. *)
Inductive Pulled (this : Space.t) (goals : list Goal.t) : Space.Iterator -> Prop :=
| Pulled_query : Pulled this goals (Space.query this goals)
| Pulled_next it d f n r it' n' :
    Pulled this goals it ->
    Space.next d f it n = Some (r, it', n') ->
    Pulled this goals it'.

(** A piece of syntax without variables. *)
Definition is_ground (t : Syntax) : bool :=
  match svars t with [] => true | _ :: _ => false end.

(** Every variable of [fv] is bound to a ground term by the bindings [ss]. *)
Definition all_ground (fv : list Variable_) (ss : list Substitution.t) : bool :=
  forallb (fun v => is_ground (after ss (Var v))) fv.

(** ** Expansion of a dequeued item

    The two [for] loops that [next] runs on an item whose first goal is
    [goal]: the facts, then the rules, pushing on the same queue. *)
Definition expand (this : Space.t) (depth : nat) (goal : Goal.t) (item : Space.Item)
  (q : list Space.Item) (n : nat) : option (list Space.Item * nat) :=
  match Space.scan (Space.try_fact depth goal item) (Space.facts this) q n with
  | None => None
  | Some (q1, n1) => Space.scan (Space.try_rule depth goal item) (Space.rules this) q1 n1
  end.

(** The two tests a clause head passes before any constraint is
    built: the predicate of the goal and its number of arguments. *)
Definition same_shape (goal : Goal.t) (head : Atom) : bool :=
  predicate_same (Goal.predicate goal) (predicate head)
  && Nat.eqb (List.length (Goal.terms goal)) (List.length (terms head)).

(** [Resolved goal ss head n res n']: the goal, under the bindings [ss],
    resolved against the head of a refreshed clause from the counter
    [n].  The clause matches when [res] is [Some new]: the head has the
    shape of the goal and the arguments of the goal, under [ss], unify
    with those of the head, [new] being the unifier.  [Unify] is the
    unification without a bound on its recursion. *)
Inductive Resolved (goal : Goal.t) (ss : list Substitution.t) (head : Atom) (n : nat)
  : option (list Substitution.t) -> nat -> Prop :=
| Resolved_other_shape :
    same_shape goal head = false ->
    Resolved goal ss head n None n
| Resolved_unified constraints n1 res n2 :
    same_shape goal head = true ->
    Space.constraints_for (Goal.terms goal) ss (terms head) n = (constraints, n1) ->
    Unify constraints n1 res n2 ->
    Resolved goal ss head n res n2.

(** [Successors clone head successor goal ss clauses n items n']: what
    one of the two loops adds to the queue, from the counter [n].  The
    clauses are taken in the order of the list, each one refreshed
    where the previous one stopped allocating; a clause that does not
    match adds nothing, a clause that matches adds its successor, after
    the successors of the clauses before it. *)
Inductive Successors {C : Type} (clone : C -> nat -> C * nat) (head : C -> Atom)
  (successor : C -> list Substitution.t -> Space.Item)
  (goal : Goal.t) (ss : list Substitution.t)
  : list C -> nat -> list Space.Item -> nat -> Prop :=
| Successors_none n : Successors clone head successor goal ss [] n [] n
| Successors_skip c clauses n c' n1 n2 items n3 :
    clone c n = (c', n1) ->
    Resolved goal ss (head c') n1 None n2 ->
    Successors clone head successor goal ss clauses n2 items n3 ->
    Successors clone head successor goal ss (c :: clauses) n items n3
| Successors_push c clauses n c' n1 new n2 items n3 :
    clone c n = (c', n1) ->
    Resolved goal ss (head c') n1 (Some new) n2 ->
    Successors clone head successor goal ss clauses n2 items n3 ->
    Successors clone head successor goal ss (c :: clauses) n (successor c' new :: items) n3.

Definition fact_head (fact : Fact.t) : Atom :=
  mkAtom (Fact.predicate fact) (Fact.terms fact).

(** The successor a matching fact gives to an item with the remaining
    goals [gs] and the bindings [ss]. *)
Definition fact_successor (gs : list Goal.t) (ss : list Substitution.t)
  (fact : Fact.t) (new : list Substitution.t) : Space.Item :=
  Space.mkItem gs (ss ++ new).

(** The successor a matching rule gives: the remaining goals, then the
    body of the refreshed rule. *)
Definition rule_successor (gs : list Goal.t) (ss : list Substitution.t)
  (rule : Rule.t) (new : list Substitution.t) : Space.Item :=
  Space.mkItem (gs ++ map (fun i => Goal.mk (predicate i) (terms i)) (Rule.right rule))
    (ss ++ new).

(** ** Unification of syntax

    The steps of [unify] on constraints between pieces of syntax, where
    no object is allocated and identity is equality of syntax.  It is
    used to show that the outcome of [unify] does not depend on how the
    terms are allocated. *)

Definition constraint_syntax (c : Constraint.t) : Syntax * Syntax :=
  (syntax (Constraint.left c), syntax (Constraint.right c)).

Definition spick (l r : Syntax) : option (Variable_ * Syntax) :=
  match l, r with
  | SVar v, _ => Some (v, r)
  | _, SVar v => Some (v, l)
  | _, _ => None
  end.

Definition sapply_both (b : Variable_ * Syntax) (p : Syntax * Syntax) : Syntax * Syntax :=
  (sapply (fst b) (snd b) (fst p), sapply (fst b) (snd b) (snd p)).

(** Two pieces of syntax without a variable on top that [unify]
    rejects at once: a constant is involved, or the functors or the
    numbers of arguments differ. *)
Definition sclash (l r : Syntax) : bool :=
  match l, r with
  | SApp f ls, SApp g rs =>
      negb (functor_same f g) || negb (Nat.eqb (List.length ls) (List.length rs))
  | _, _ => true
  end.

Inductive SUnify : list (Syntax * Syntax) -> option (list (Variable_ * Syntax)) -> Prop :=
| SUnify_empty : SUnify [] (Some [])
| SUnify_same t rest res :
    SUnify rest res ->
    SUnify ((t, t) :: rest) res
| SUnify_bind l r rest b res :
    l <> r ->
    spick l r = Some b ->
    SUnify (map (sapply_both b) rest) res ->
    SUnify ((l, r) :: rest) (option_map (cons b) res)
| SUnify_clash l r rest :
    l <> r ->
    spick l r = None ->
    sclash l r = true ->
    SUnify ((l, r) :: rest) None
| SUnify_arguments f ls rs rest res :
    ls <> rs ->
    List.length ls = List.length rs ->
    SUnify (combine ls rs ++ rest) res ->
    SUnify ((SApp f ls, SApp f rs) :: rest) res.

(** The bindings of a result of [unify], as syntax. *)
Definition result_syntax (res : option (list Substitution.t))
  : option (list (Variable_ * Syntax)) :=
  option_map (map binding) res.

(** ** The store of the specification's examples

    [add(z, Y, Y).] and [add(s(X), Y, s(Z)) :- add(X, Y, Z).], built as
    the test file builds it, and the terms of the other examples.
    Every object has its own tag, and [heap] is the first free one. *)

Module Example.

Definition z := mkConstant 0 "z".
Definition add := mkPredicate 1 "add".
Definition s := mkFunctor 2 "s".

Definition factY := mkVariable 3 "Y".
Definition ruleX := mkVariable 4 "X".
Definition ruleY := mkVariable 5 "Y".
Definition ruleZ := mkVariable 6 "Z".

Definition add_zero : Fact.t :=
  Fact.mk add [Const z; Var factY; Var factY].

Definition facts : list Fact.t := [add_zero].

Definition add_succ : Rule.t :=
  Rule.mk
    (mkAtom add [Application 7 s [Var ruleX]; Var ruleY; Application 8 s [Var ruleZ]])
    [mkAtom add [Var ruleX; Var ruleY; Var ruleZ]].

Definition rules : list Rule.t := [add_succ].

Definition space := Space.mk facts rules.

Definition X := mkVariable 9 "X".
Definition Y := mkVariable 10 "Y".
Definition V := mkVariable 11 "V".

(** [add(s(z), s(s(z)), V)] *)
Definition goal1 : Goal.t :=
  Goal.mk add
    [Application 12 s [Const z];
     Application 14 s [Application 13 s [Const z]];
     Var V].

(** The ground term [s(s(z))]. *)
Definition two : Term := Application 16 s [Application 15 s [Const z]].

(** [add(X, Y, s(s(z)))] *)
Definition goal2 : Goal.t := Goal.mk add [Var X; Var Y; two].

(** [mult(X, Y)]: a goal on a predicate the store does not define. *)
Definition mult := mkPredicate 17 "mult".
Definition goal_mult : Goal.t := Goal.mk mult [Var X; Var Y].

(** [X = s(X)]: a constraint only a circular binding solves, and the
    binding list [unify] returns for it, [X -> s(X)]. *)
Definition loopy : Constraint.t :=
  Constraint.mk (Var X) (Application 18 s [Var X]).

Definition loopy_bindings : list Substitution.t :=
  [Substitution.mk X (Application 18 s [Var X])].

(** [X = h(X, X)], with the application allocated at [ref]. *)
Definition h := mkFunctor 19 "h".
Definition growing (ref : nat) : Constraint.t :=
  Constraint.mk (Var X) (Application ref h [Var X; Var X]).

(** The constraints of the specification's unification tests:
    [f(X, Y) = f(a, b)] with the binding list [unify] returns for it,
    [f(a) = f(a)], [f(X) = g(X)] and [f(X, X) = f(a, b)]. *)
Definition f := mkFunctor 20 "f".
Definition g := mkFunctor 21 "g".
Definition a := mkConstant 22 "a".
Definition b := mkConstant 23 "b".

Definition fXY_fab : Constraint.t :=
  Constraint.mk (Application 24 f [Var X; Var Y]) (Application 25 f [Const a; Const b]).

Definition fXY_fab_bindings : list Substitution.t :=
  [Substitution.mk X (Const a); Substitution.mk Y (Const b)].

Definition fa_fa : Constraint.t :=
  Constraint.mk (Application 26 f [Const a]) (Application 27 f [Const a]).

Definition fX_gX : Constraint.t :=
  Constraint.mk (Application 28 f [Var X]) (Application 29 g [Var X]).

Definition fXX_fab : Constraint.t :=
  Constraint.mk (Application 30 f [Var X; Var X]) (Application 31 f [Const a; Const b]).

(** The first free allocation tag. *)
Definition heap := 32.

(** The first pull of the query [add(X, Y, s(s(z)))]. *)
Definition first_pull : option (Space.IteratorResult * Space.Iterator * nat) :=
  Space.next 4 2 (Space.query space [goal2]) heap.

(** The expansion of the initial item of that query. *)
Definition first_expansion : option (list Space.Item * nat) :=
  expand space 4 goal2 (Space.mkItem [goal2] []) [] heap.

(** A candidate that binds [X] to a variable: goals proven, [X] not ground. *)
Definition open_candidate : Space.Item :=
  Space.mkItem [] [Substitution.mk X (Var factY)].

(** Numerals [z], [s(z)], [s(s(z))], ... as syntax. *)
Fixpoint num (k : nat) : Syntax :=
  match k with
  | 0 => SConst z
  | S k => SApp s [num k]
  end.

End Example.

(** ** Text rendering (main.ts [toString] methods) *)

(** [Application.toString], [Constant.toString], [Variable.toString]:
    the name for a variable or a constant,
    [functor(arg, arg, ...)] for an application. *)
Fixpoint term_toString (t : Term) : string :=
  match t with
  | Var v => variable_name v
  | Const c => constant_name c
  | Application _ f ts =>
      functor_name f ++ "(" ++ String.concat ", " (map term_toString ts) ++ ")"
  end.

(** The rendering shared by [Fact.toString], [Goal.toString] and the
    atoms of [Rule.toString]. *)
Definition atom_toString (p : Predicate) (ts : list Term) : string :=
  predicate_name p ++ "(" ++ String.concat ", " (map term_toString ts) ++ ")".

Definition fact_toString (f : Fact.t) : string :=
  atom_toString (Fact.predicate f) (Fact.terms f).

Definition goal_toString (g : Goal.t) : string :=
  atom_toString (Goal.predicate g) (Goal.terms g).

(** [`${left} :- [${right.join(', ')}]`] *)
Definition rule_toString (r : Rule.t) : string :=
  atom_toString (predicate (Rule.left r)) (terms (Rule.left r))
  ++ " :- [" ++
  String.concat ", " (map (fun a => atom_toString (predicate a) (terms a)) (Rule.right r))
  ++ "]".

Definition substitution_toString (s : Substitution.t) : string :=
  variable_name (Substitution.variable s) ++ " -> " ++ term_toString (Substitution.term s).

Definition constraint_toString (c : Constraint.t) : string :=
  term_toString (Constraint.left c) ++ " = " ++ term_toString (Constraint.right c).

(** The rendering of a piece of syntax; [term_toString] factors
    through it. *)
Fixpoint syntax_toString (t : Syntax) : string :=
  match t with
  | SVar v => variable_name v
  | SConst c => constant_name c
  | SApp f args =>
      functor_name f ++ "(" ++ String.concat ", " (map syntax_toString args) ++ ")"
  end.

(** ** Measures used in the proofs about [unify] *)

Fixpoint term_size (t : Term) : nat :=
  match t with
  | Var _ => 1
  | Const _ => 1
  | Application _ _ ts => S (list_sum (map term_size ts))
  end.

Definition constraints_size (cs : list Constraint.t) : nat :=
  list_sum (map (fun c => term_size (Constraint.left c)) cs).

(** Both sides of the constraint have the same syntax. *)
Definition same_syntax (c : Constraint.t) : Prop :=
  syntax (Constraint.left c) = syntax (Constraint.right c).

(** No fact and no rule of the store has both the predicate and the
    number of arguments of the goal. *)
Definition no_clause_matches (this : Space.t) (goal : Goal.t) : bool :=
  forallb (fun f => negb (predicate_same (Goal.predicate goal) (Fact.predicate f)
                          && Nat.eqb (List.length (Goal.terms goal))
                               (List.length (Fact.terms f))))
    (Space.facts this)
  && forallb (fun r => negb (predicate_same (Goal.predicate goal) (predicate (Rule.left r))
                             && Nat.eqb (List.length (Goal.terms goal))
                                  (List.length (terms (Rule.left r)))))
       (Space.rules this).

(** Values for the examples of the further properties. *)
Module Sample.

(** [add(X, Y)]: the predicate of the store with one argument too few. *)
Definition goal_add2 : Goal.t :=
  Goal.mk Example.add [Var Example.X; Var Example.Y].

(** [f(X, Y) = f(a, b)] once more, built from other objects. *)
Definition fXY_fab_again : Constraint.t :=
  Constraint.mk (Application 40 Example.f [Var Example.X; Var Example.Y])
    (Application 41 Example.f [Const Example.a; Const Example.b]).

(** [f(X) = g(X)] followed by [f(a) = f(a)]. *)
Definition clash_then_fine : list Constraint.t := [Example.fX_gX; Example.fa_fa].

End Sample.

(** * The parser of the command line (cli.ts)

    Strings are sequences of 8-bit characters.  A function that can
    throw returns an [Outcome]; the functions of [Cli] change the
    interning tables of the object, so they take and return the tables
    together with the allocation counter, also when they throw. *)

From Stdlib Require Import ZArith Ascii.

Inductive Exception : Type :=
| ParseError   (* [throw new Error('parse error')] *)
| TypeError.   (* a property read on [undefined] *)

Inductive Outcome (A : Type) : Type :=
| Returned (a : A)
| Thrown (e : Exception).

Arguments Returned {A} a.
Arguments Thrown {A} e.

(** ** [Node] (cli.ts 252-264) *)

Inductive Node : Type :=
| mkNode (value : string) (children : list Node).

Definition node_value (node : Node) : string :=
  match node with mkNode value _ => value end.

Definition node_children (node : Node) : list Node :=
  match node with mkNode _ children => children end.

Fixpoint node_toString (node : Node) : string :=
  match node with
  | mkNode value [] => value
  | mkNode value children =>
      (value ++ "(" ++ String.concat ", " (map node_toString children) ++ ")")%string
  end.

(** ** [split] (cli.ts 266-292) *)

(** The [for] loop of [split] on the characters not yet read. *)
Fixpoint split_from (s buf : string) (depth : Z) (splitted : list string) : list string :=
  match s with
  | EmptyString =>
      if Nat.ltb 0 (String.length buf) then splitted ++ [buf] else splitted
  | String c s' =>
      if Z.eqb depth 0 && Ascii.eqb c ","
      then split_from s' EmptyString depth (splitted ++ [buf])
      else
        let depth' :=
          if Ascii.eqb c "(" then (depth + 1)%Z
          else if Ascii.eqb c ")" then (depth - 1)%Z
          else depth in
        split_from s' (buf ++ String c EmptyString)%string depth' splitted
  end.

Definition split (s : string) : list string := split_from s EmptyString 0%Z [].

(** ** [constructTree] (cli.ts 294-315) *)

(** [str.replace(/ /g, '')] *)
Fixpoint remove_spaces (s : string) : string :=
  match s with
  | EmptyString => EmptyString
  | String c s' => if Ascii.eqb c " " then remove_spaces s' else String c (remove_spaces s')
  end.

(** [[a-zA-Z]] *)
Definition is_letter (c : ascii) : bool :=
  let k := nat_of_ascii c in
  (Nat.leb 97 k && Nat.leb k 122) || (Nat.leb 65 k && Nat.leb k 90).

Fixpoint all_letters (s : string) : bool :=
  match s with
  | EmptyString => true
  | String c s' => is_letter c && all_letters s'
  end.

(** [/^[a-zA-Z]+$/] *)
Definition matches_name (s : string) : bool :=
  Nat.ltb 0 (String.length s) && all_letters s.

(** The longest prefix of letters and what follows it. *)
Fixpoint take_letters (s : string) : string :=
  match s with
  | EmptyString => EmptyString
  | String c s' => if is_letter c then String c (take_letters s') else EmptyString
  end.

Fixpoint drop_letters (s : string) : string :=
  match s with
  | EmptyString => EmptyString
  | String c s' => if is_letter c then drop_letters s' else s
  end.

(** The characters [.] does not match: the line terminators. *)
Definition is_line_terminator (c : ascii) : bool :=
  Nat.eqb (nat_of_ascii c) 10 || Nat.eqb (nat_of_ascii c) 13.

Fixpoint no_line_terminator (s : string) : bool :=
  match s with
  | EmptyString => true
  | String c s' => negb (is_line_terminator c) && no_line_terminator s'
  end.

(** The string without its last character, and that character. *)
Fixpoint unsnoc (s : string) : option (string * ascii) :=
  match s with
  | EmptyString => None
  | String c s' =>
      match unsnoc s' with
      | None => Some (EmptyString, c)
      | Some (init, last) => Some (String c init, last)
      end
  end.

(** [/^([a-zA-Z]+)\((.+)\)$/]: the two groups of the match.  The first
    group is the longest prefix of letters, since an opening
    parenthesis has to follow it; the second is what lies between that
    parenthesis and the closing one that ends the string, at least one
    character and no line terminator. *)
Definition match_application (s : string) : option (string * string) :=
  match take_letters s, drop_letters s with
  | EmptyString, _ => None
  | name, String c r =>
      if Ascii.eqb c "("
      then match unsnoc r with
           | Some (body, last) =>
               if Ascii.eqb last ")" && Nat.ltb 0 (String.length body)
                  && no_line_terminator body
               then Some (name, body)
               else None
           | None => None
           end
      else None
  | _, EmptyString => None
  end.

(** [constructTree] calls itself on the pieces of the second group,
    which are shorter than the string; [fuel] bounds the depth of the
    calls, and [None] is "deeper than [fuel]". *)
Fixpoint constructTree_within (fuel : nat) (str : string) : option (Outcome Node) :=
  match fuel with
  | 0 => None
  | S fuel =>
      let s := remove_spaces str in
      if matches_name s then Some (Returned (mkNode s []))
      else
        match match_application s with
        | None => Some (Thrown ParseError)
        | Some (name, body) =>
            match
              (fix each (pieces : list string) : option (Outcome (list Node)) :=
                 match pieces with
                 | [] => Some (Returned [])
                 | piece :: pieces =>
                     match constructTree_within fuel piece with
                     | None => None
                     | Some (Thrown e) => Some (Thrown e)
                     | Some (Returned child) =>
                         match each pieces with
                         | None => None
                         | Some (Thrown e) => Some (Thrown e)
                         | Some (Returned children) => Some (Returned (child :: children))
                         end
                     end
                 end) (split body)
            with
            | None => None
            | Some (Thrown e) => Some (Thrown e)
            | Some (Returned children) => Some (Returned (mkNode name children))
            end
        end
  end.

(** The depth of the calls is at most the length of the string, so
    the bound below is never hit ([constructTree_within_enough]). *)
Definition constructTree (str : string) : Outcome Node :=
  match constructTree_within (S (String.length str)) str with
  | Some outcome => outcome
  | None => Thrown ParseError
  end.

(** ** [startsWithUpperCase] (cli.ts 317-319)

    [s[0].toUpperCase() === s[0]]: the first character is not changed
    by [toUpperCase].  Among the 8-bit characters the ones that change
    are the letters [a] to [z], the micro sign, the sharp s and the
    accented lower-case letters.  On the empty string [s[0]] is
    [undefined]. *)
Definition changed_by_toUpperCase (c : ascii) : bool :=
  let k := nat_of_ascii c in
  (Nat.leb 97 k && Nat.leb k 122)
  || Nat.eqb k 181
  || (Nat.leb 223 k && Nat.leb k 246)
  || (Nat.leb 248 k && Nat.leb k 255).

Definition startsWithUpperCase (s : string) : Outcome bool :=
  match s with
  | EmptyString => Thrown TypeError
  | String c _ => Returned (negb (changed_by_toUpperCase c))
  end.

(** ** The class [Cli] (cli.ts 6-250) *)

(** [s.split(':-')]: the piece before the first [:-], and what follows
    that [:-] if there is one. *)
Fixpoint before_neck (s : string) : string :=
  match s with
  | EmptyString => EmptyString
  | String c s' =>
      match s' with
      | String d _ =>
          if Ascii.eqb c ":" && Ascii.eqb d "-" then EmptyString
          else String c (before_neck s')
      | EmptyString => String c EmptyString
      end
  end.

Fixpoint after_neck (s : string) : option string :=
  match s with
  | EmptyString => None
  | String c s' =>
      match s' with
      | String d s'' =>
          if Ascii.eqb c ":" && Ascii.eqb d "-" then Some s'' else after_neck s'
      | EmptyString => None
      end
  end.

Module Cli.

(** The fields of a [Cli] that the parsing methods read and write. *)
Record t := mk {
  constants : list Constant;
  functors : list Functor_;
  predicates : list Predicate
}.

Definition getOrCreateConstant (name : string) (this : t) (n : nat) : Constant * t * nat :=
  match find (fun i => String.eqb (constant_name i) name) (constants this) with
  | Some found => (found, this, n)
  | None =>
      let constant := mkConstant n name in
      (constant, mk (constants this ++ [constant]) (functors this) (predicates this), S n)
  end.

Definition getOrCreateFunctor (name : string) (this : t) (n : nat) : Functor_ * t * nat :=
  match find (fun i => String.eqb (functor_name i) name) (functors this) with
  | Some found => (found, this, n)
  | None =>
      let functor := mkFunctor n name in
      (functor, mk (constants this) (functors this ++ [functor]) (predicates this), S n)
  end.

Definition getOrCreatePredicate (name : string) (this : t) (n : nat) : Predicate * t * nat :=
  match find (fun i => String.eqb (predicate_name i) name) (predicates this) with
  | Some found => (found, this, n)
  | None =>
      let predicate := mkPredicate n name in
      (predicate, mk (constants this) (functors this) (predicates this ++ [predicate]), S n)
  end.

(** [constructTerm]: a leaf is a new variable when its name starts with
    an upper-case letter and an interned constant otherwise; a node with
    children is a new application of the interned functor. *)
Fixpoint constructTerm (node : Node) (this : t) (n : nat) : Outcome Term * t * nat :=
  match node with
  | mkNode value [] =>
      match startsWithUpperCase value with
      | Thrown e => (Thrown e, this, n)
      | Returned true => (Returned (Var (mkVariable n value)), this, S n)
      | Returned false =>
          let '(c, this1, n1) := getOrCreateConstant value this n in
          (Returned (Const c), this1, n1)
      end
  | mkNode value children =>
      let '(f, this1, n1) := getOrCreateFunctor value this n in
      let '(r, this2, n2) :=
        (fix each (nodes : list Node) (this : t) (n : nat) : Outcome (list Term) * t * nat :=
           match nodes with
           | [] => (Returned [], this, n)
           | x :: xs =>
               let '(r, this1, n1) := constructTerm x this n in
               match r with
               | Thrown e => (Thrown e, this1, n1)
               | Returned tm =>
                   let '(rs, this2, n2) := each xs this1 n1 in
                   match rs with
                   | Thrown e => (Thrown e, this2, n2)
                   | Returned tms => (Returned (tm :: tms), this2, n2)
                   end
               end
           end) children this1 n1 in
      match r with
      | Thrown e => (Thrown e, this2, n2)
      | Returned tms => (Returned (Application n2 f tms), this2, S n2)
      end
  end.

(** [nodes.map(i => this.constructTerm(i))] *)
Fixpoint constructTerms (nodes : list Node) (this : t) (n : nat)
  : Outcome (list Term) * t * nat :=
  match nodes with
  | [] => (Returned [], this, n)
  | x :: xs =>
      let '(r, this1, n1) := constructTerm x this n in
      match r with
      | Thrown e => (Thrown e, this1, n1)
      | Returned tm =>
          let '(rs, this2, n2) := constructTerms xs this1 n1 in
          match rs with
          | Thrown e => (Thrown e, this2, n2)
          | Returned tms => (Returned (tm :: tms), this2, n2)
          end
      end
  end.

(** *** "variables sharing the same name are replaced with one instance"

    The [Map<string, Variable>] and the list of substitutions that the
    three parsing methods build from the variables of their terms. *)
Definition Names := list (string * Variable_).

Definition names_get (variables : Names) (name : string) : option Variable_ :=
  option_map snd (find (fun entry => String.eqb (fst entry) name) variables).

Definition share_variable (state : Names * list Substitution.t) (variable : Variable_)
  : Names * list Substitution.t :=
  match names_get (fst state) (variable_name variable) with
  | Some replaceWith =>
      (fst state, snd state ++ [Substitution.mk variable (Var replaceWith)])
  | None => (fst state ++ [(variable_name variable, variable)], snd state)
  end.

Definition share_terms (state : Names * list Substitution.t) (terms : list Term)
  : Names * list Substitution.t :=
  fold_left (fun state term => fold_left share_variable (listVariables term) state)
    terms state.

(** [parseFact] *)
Definition parseFact (s : string) (this : t) (n : nat) : Outcome Fact.t * t * nat :=
  match constructTree s with
  | Thrown e => (Thrown e, this, n)
  | Returned tree =>
      let '(predicate, this1, n1) := getOrCreatePredicate (node_value tree) this n in
      let '(r, this2, n2) := constructTerms (node_children tree) this1 n1 in
      match r with
      | Thrown e => (Thrown e, this2, n2)
      | Returned terms =>
          let substitutions := snd (share_terms ([], []) terms) in
          let '(tms, n3) := applyAll_each terms substitutions n2 in
          (Returned (Fact.mk predicate tms), this2, n3)
      end
  end.

(** [pieces.map(constructTree)]: the first piece that does not parse throws. *)
Fixpoint constructTrees (pieces : list string) : Outcome (list Node) :=
  match pieces with
  | [] => Returned []
  | piece :: pieces =>
      match constructTree piece with
      | Thrown e => Thrown e
      | Returned tree =>
          match constructTrees pieces with
          | Thrown e => Thrown e
          | Returned trees => Returned (tree :: trees)
          end
      end
  end.

(** [trees.map(tree => ({ predicate: getOrCreatePredicate(tree.value),
    terms: tree.children.map(constructTerm) }))] *)
Fixpoint constructAtoms (trees : list Node) (this : t) (n : nat)
  : Outcome (list Atom) * t * nat :=
  match trees with
  | [] => (Returned [], this, n)
  | tree :: trees =>
      let '(predicate, this1, n1) := getOrCreatePredicate (node_value tree) this n in
      let '(r, this2, n2) := constructTerms (node_children tree) this1 n1 in
      match r with
      | Thrown e => (Thrown e, this2, n2)
      | Returned terms =>
          let '(rs, this3, n3) := constructAtoms trees this2 n2 in
          match rs with
          | Thrown e => (Thrown e, this3, n3)
          | Returned atoms => (Returned (mkAtom predicate terms :: atoms), this3, n3)
          end
      end
  end.

(** [atoms.map(({ predicate, terms }) => ({ predicate, terms: terms.map(applyAll) }))] *)
Definition share_atoms (atoms : list Atom) (substitutions : list Substitution.t) (n : nat)
  : list Atom * nat :=
  Rule.clone_right atoms substitutions n.

(** [parseGoals] *)
Definition parseGoals (s : string) (this : t) (n : nat) : Outcome (list Goal.t) * t * nat :=
  match constructTrees (split s) with
  | Thrown e => (Thrown e, this, n)
  | Returned trees =>
      let '(r, this1, n1) := constructAtoms trees this n in
      match r with
      | Thrown e => (Thrown e, this1, n1)
      | Returned goals =>
          let substitutions :=
            snd (fold_left (fun state goal => share_terms state (terms goal)) goals ([], [])) in
          let '(atoms, n2) := share_atoms goals substitutions n1 in
          (Returned (map (fun a => Goal.mk (predicate a) (terms a)) atoms), this1, n2)
      end
  end.

(** [parseRule]: [const [left, right] = s.split(':-')]; without a [:-]
    in [s], [right] is [undefined] and [split(right)] throws after the
    head has been built. *)
Definition parseRule (s : string) (this : t) (n : nat) : Outcome Rule.t * t * nat :=
  match constructTree (before_neck s) with
  | Thrown e => (Thrown e, this, n)
  | Returned tree =>
      let '(predicate, this1, n1) := getOrCreatePredicate (node_value tree) this n in
      let '(r, this2, n2) := constructTerms (node_children tree) this1 n1 in
      match r with
      | Thrown e => (Thrown e, this2, n2)
      | Returned left_terms =>
          match after_neck s with
          | None => (Thrown TypeError, this2, n2)
          | Some rest =>
              match constructTrees (split (before_neck rest)) with
              | Thrown e => (Thrown e, this2, n2)
              | Returned trees =>
                  let '(rs, this3, n3) := constructAtoms trees this2 n2 in
                  match rs with
                  | Thrown e => (Thrown e, this3, n3)
                  | Returned right_atoms =>
                      let state := share_terms ([], []) left_terms in
                      let substitutions :=
                        snd (fold_left (fun state a => share_terms state (terms a))
                               right_atoms state) in
                      let '(ltms, n4) := applyAll_each left_terms substitutions n3 in
                      let '(atoms, n5) := share_atoms right_atoms substitutions n4 in
                      (Returned (Rule.mk (mkAtom predicate ltms) atoms), this3, n5)
                  end
              end
          end
      end
  end.

End Cli.

(** ** Notions used to state the properties of the parser *)

(** The text [split] has read when it holds the pieces [splitted] and
    the buffer [buf]. *)
Definition joined (splitted : list string) (buf : string) : string :=
  match splitted with
  | [] => buf
  | _ :: _ => (String.concat "," splitted ++ "," ++ buf)%string
  end.

Fixpoint has_comma (s : string) : bool :=
  match s with
  | EmptyString => false
  | String c s' => Ascii.eqb c "," || has_comma s'
  end.

(** A tree whose nodes all have a name: a non-empty string of letters. *)
Fixpoint well_named (node : Node) : bool :=
  match node with
  | mkNode value children => matches_name value && forallb well_named children
  end.

(** The text of a tree without the spaces. *)
Fixpoint compact (node : Node) : string :=
  match node with
  | mkNode value [] => value
  | mkNode value children =>
      (value ++ "(" ++ String.concat "," (map compact children) ++ ")")%string
  end.

Fixpoint node_height (node : Node) : nat :=
  match node with
  | mkNode _ children => S (list_max (map node_height children))
  end.

(** The loop of [constructTree] over the pieces, under its own name. *)
Fixpoint constructTrees_within (fuel : nat) (pieces : list string)
  : option (Outcome (list Node)) :=
  match pieces with
  | [] => Some (Returned [])
  | piece :: pieces =>
      match constructTree_within fuel piece with
      | None => None
      | Some (Thrown e) => Some (Thrown e)
      | Some (Returned child) =>
          match constructTrees_within fuel pieces with
          | None => None
          | Some (Thrown e) => Some (Thrown e)
          | Some (Returned children) => Some (Returned (child :: children))
          end
      end
  end.

(** What it means for one of the three [getOrCreate] methods to intern
    names: [name_of] reads the name of an object, [table_of] the table
    of the [Cli] the method works on. *)
Definition Interns {A : Type} (name_of : A -> string) (table_of : Cli.t -> list A)
  (getOrCreate : string -> Cli.t -> nat -> A * Cli.t * nat) : Prop :=
  forall name this n x this1 n1,
    getOrCreate name this n = (x, this1, n1) ->
    (* the object has the name asked for and is in the table *)
    name_of x = name
    /\ In x (table_of this1)
    (* asking again gives the same object and changes nothing *)
    /\ getOrCreate name this1 n1 = (x, this1, n1)
    (* also after another name has been asked for *)
    /\ (forall name2 x2 this2 n2,
           getOrCreate name2 this1 n1 = (x2, this2, n2) ->
           getOrCreate name this2 n2 = (x, this2, n2))
    (* the names of the table stay pairwise different *)
    /\ (NoDup (map name_of (table_of this)) -> NoDup (map name_of (table_of this1))).

(** The variable that stands for [v] once the names are shared: the
    first variable met with the name of [v]. *)
Definition representative (names : Cli.Names) (v : Variable_) : Variable_ :=
  match Cli.names_get names (variable_name v) with
  | Some r => r
  | None => v
  end.

(** The variables of a list of goals, as [query] collects them. *)
Definition goals_variables (goals : list Goal.t) : list Variable_ :=
  fold_left (fun vs goal => collect vs (Goal.terms goal)) goals [].

(** No two different variables of the list have the same name. *)
Definition names_identify (vs : list Variable_) : Prop :=
  forall v w, In v vs -> In w vs -> variable_name v = variable_name w -> v = w.

(** What the loop over the variables keeps true. *)
Definition sharing (seen : list Variable_) (state : Cli.Names * list Substitution.t) : Prop :=
  (forall k r, Cli.names_get (fst state) k = Some r -> variable_name r = k)
  /\ (forall s, In s (snd state) ->
        exists r, Substitution.term s = Var r
                  /\ Cli.names_get (fst state) (variable_name (Substitution.variable s))
                     = Some r)
  /\ (forall v, In v seen ->
        exists r, Cli.names_get (fst state) (variable_name v) = Some r
                  /\ (r = v \/ In (Substitution.mk v (Var r)) (snd state))).

(** Values for the examples of the properties of the parser. *)
Module CliSample.

Definition empty : Cli.t := Cli.mk [] [] [].

(** The tree of [add(s(X), Y, s(Z))]. *)
Definition add_tree : Node :=
  mkNode "add" [mkNode "s" [mkNode "X" []]; mkNode "Y" []; mkNode "s" [mkNode "Z" []]].

End CliSample.

(** * Properties *)

(** ** Induction on terms and on syntax *)

Lemma Term_induction (P : Term -> Prop) :
  (forall v, P (Var v)) ->
  (forall c, P (Const c)) ->
  (forall r f ts, Forall P ts -> P (Application r f ts)) ->
  forall t, P t.
Proof.
  intros HV HC HA.
  fix IH 1.
  intros [v | c | r f ts].
  - apply HV.
  - apply HC.
  - apply HA. induction ts as [| t ts IHts]; constructor.
    + apply IH.
    + exact IHts.
Qed.

Lemma Syntax_induction (P : Syntax -> Prop) :
  (forall v, P (SVar v)) ->
  (forall c, P (SConst c)) ->
  (forall f args, Forall P args -> P (SApp f args)) ->
  forall t, P t.
Proof.
  intros HV HC HA.
  fix IH 1.
  intros [v | c | f args].
  - apply HV.
  - apply HC.
  - apply HA. induction args as [| t ts IHts]; constructor.
    + apply IH.
    + exact IHts.
Qed.

(** ** [===] decides equality of values *)

Lemma variable_same_eq v w : variable_same v w = true <-> v = w.
Proof.
  unfold variable_same. destruct v as [i a], w as [j b]; simpl.
  rewrite andb_true_iff, Nat.eqb_eq, String.eqb_eq.
  split; [intros [-> ->]; reflexivity | intros [= -> ->]; auto].
Qed.

Lemma constant_same_eq c d : constant_same c d = true <-> c = d.
Proof.
  unfold constant_same. destruct c as [i a], d as [j b]; simpl.
  rewrite andb_true_iff, Nat.eqb_eq, String.eqb_eq.
  split; [intros [-> ->]; reflexivity | intros [= -> ->]; auto].
Qed.

Lemma functor_same_eq f g : functor_same f g = true <-> f = g.
Proof.
  unfold functor_same. destruct f as [i a], g as [j b]; simpl.
  rewrite andb_true_iff, Nat.eqb_eq, String.eqb_eq.
  split; [intros [-> ->]; reflexivity | intros [= -> ->]; auto].
Qed.

Lemma predicate_same_eq p q : predicate_same p q = true <-> p = q.
Proof.
  unfold predicate_same. destruct p as [i a], q as [j b]; simpl.
  rewrite andb_true_iff, Nat.eqb_eq, String.eqb_eq.
  split; [intros [-> ->]; reflexivity | intros [= -> ->]; auto].
Qed.

Lemma variable_same_refl v : variable_same v v = true.
Proof. apply variable_same_eq. reflexivity. Qed.

Lemma variable_same_neq v w : variable_same v w = false <-> v <> w.
Proof.
  rewrite <- variable_same_eq. destruct (variable_same v w); split; congruence.
Qed.

Lemma term_same_Application r f ts r' f' ts' :
  term_same (Application r f ts) (Application r' f' ts')
  = Nat.eqb r r' && functor_same f f' && terms_same ts ts'.
Proof.
  reflexivity.
Qed.

Lemma term_same_eq a b : term_same a b = true <-> a = b.
Proof.
  revert b. induction a as [v | c | r f ts IH] using Term_induction; intros b.
  - destruct b; simpl; try (split; discriminate).
    rewrite variable_same_eq. split; congruence.
  - destruct b; simpl; try (split; discriminate).
    rewrite constant_same_eq. split; congruence.
  - destruct b as [ | | r' f' ts']; try (split; discriminate).
    rewrite term_same_Application, !andb_true_iff, Nat.eqb_eq, functor_same_eq.
    assert (Hts : forall ts', terms_same ts ts' = true <-> ts = ts').
    { clear r f r' f' ts'. induction IH as [| x l Hx _ IHl]; intros [| y l']; simpl;
        try (split; congruence).
      rewrite andb_true_iff, Hx, IHl. split; [intros [-> ->]; auto | intros [= -> ->]; auto]. }
    rewrite Hts. split; [intros [[-> ->] ->]; auto | intros [= -> -> ->]; auto].
Qed.

Lemma term_same_refl a : term_same a a = true.
Proof. apply term_same_eq. reflexivity. Qed.

(** ** Sets of variables and [listVariables] *)

Lemma set_has_In v s : set_has v s = true <-> In v s.
Proof.
  unfold set_has. rewrite existsb_exists. split.
  - intros (w & Hw & E). apply variable_same_eq in E. subst. exact Hw.
  - intros H. exists v. split; [exact H | apply variable_same_refl].
Qed.

Lemma In_set_add v s w : In v (set_add s w) <-> In v s \/ v = w.
Proof.
  unfold set_add. destruct (set_has w s) eqn:E.
  - apply set_has_In in E. split; [auto | intros [H | ->]; auto].
  - rewrite in_app_iff. simpl. intuition (subst; auto).
Qed.

Lemma NoDup_set_add s w : NoDup s -> NoDup (set_add s w).
Proof.
  intros H. unfold set_add. destruct (set_has w s) eqn:E; [exact H | ].
  assert (Hn : ~ In w s) by (rewrite <- set_has_In, E; discriminate).
  clear E. induction H as [| x l Hx Hl IH]; simpl.
  - constructor; [intros [] | constructor].
  - constructor.
    + rewrite in_app_iff. simpl. intros [H | [-> | []]]; [auto | ].
      apply Hn. left. reflexivity.
    + apply IH. intros H. apply Hn. right. exact H.
Qed.

Lemma In_set_add_all v vs : forall s, In v (set_add_all s vs) <-> In v s \/ In v vs.
Proof.
  unfold set_add_all. induction vs as [| w vs IH]; intros s; simpl.
  - tauto.
  - rewrite IH, In_set_add. split; intros H; intuition auto.
Qed.

Lemma NoDup_set_add_all vs : forall s, NoDup s -> NoDup (set_add_all s vs).
Proof.
  unfold set_add_all. induction vs as [| w vs IH]; intros s H; simpl; [exact H | ].
  apply IH, NoDup_set_add, H.
Qed.

Lemma In_collect v ts :
  forall s, In v (collect s ts) <-> In v s \/ exists t, In t ts /\ In v (listVariables t).
Proof.
  unfold collect. induction ts as [| t ts IH]; intros s; simpl.
  - split; [auto | intros [H | (t & [] & _)]; exact H].
  - rewrite IH, In_set_add_all. split.
    + intros [[H | H] | (t' & Ht' & H)]; eauto.
    + intros [H | (t' & [-> | Ht'] & H)]; eauto.
Qed.

Lemma NoDup_collect ts : forall s, NoDup s -> NoDup (collect s ts).
Proof.
  unfold collect. induction ts as [| t ts IH]; intros s H; simpl; [exact H | ].
  apply IH, NoDup_set_add_all, H.
Qed.

Lemma listVariables_Application r f ts :
  listVariables (Application r f ts) = collect [] ts.
Proof.
  unfold collect. simpl. generalize (@nil Variable_).
  induction ts as [| t ts IH]; intros acc; simpl; [reflexivity | apply IH].
Qed.

Lemma In_listVariables v t : In v (listVariables t) <-> In v (svars (syntax t)).
Proof.
  induction t as [w | c | r f ts IH] using Term_induction.
  - simpl. tauto.
  - simpl. tauto.
  - rewrite listVariables_Application, In_collect. simpl.
    rewrite in_flat_map. split.
    + intros [[] | (t & Ht & H)]. exists (syntax t). split; [apply in_map, Ht | ].
      rewrite Forall_forall in IH. apply IH; assumption.
    + intros (u & Hu & H). apply in_map_iff in Hu. destruct Hu as (t & <- & Ht).
      right. exists t. split; [exact Ht | ].
      rewrite Forall_forall in IH. apply IH; assumption.
Qed.

Lemma NoDup_listVariables t : NoDup (listVariables t).
Proof.
  destruct t as [w | c | r f ts].
  - simpl. constructor; [intros [] | constructor].
  - constructor.
  - rewrite listVariables_Application. apply NoDup_collect. constructor.
Qed.

Lemma listVariables_nil t : listVariables t = [] <-> svars (syntax t) = [].
Proof.
  split; intros H.
  - destruct (svars (syntax t)) as [| v l] eqn:E; [reflexivity | ].
    assert (Hv : In v (listVariables t)) by (apply In_listVariables; rewrite E; left; reflexivity).
    rewrite H in Hv. destruct Hv.
  - destruct (listVariables t) as [| v l] eqn:E; [reflexivity | ].
    assert (Hv : In v (svars (syntax t))) by (apply In_listVariables; rewrite E; left; reflexivity).
    rewrite H in Hv. destruct Hv.
Qed.

(** ** [apply] and [applyAll] on the syntax of terms *)

Lemma apply_Application s r f ts n :
  Substitution.apply s (Application r f ts) n
  = let '(ts', n') := apply_terms s ts n in (Application n' f ts', S n').
Proof.
  simpl.
  match goal with
  | |- (let '(_, _) := ?loop ts n in _) = _ =>
      assert (E : forall l m, loop l m = apply_terms s l m)
  end.
  { induction l as [| x l IH]; intros m; simpl; [reflexivity | ].
    destruct (Substitution.apply s x m) as [x' n1]. rewrite IH. reflexivity. }
  rewrite E. reflexivity.
Qed.

Lemma syntax_apply s t :
  forall n, syntax (fst (Substitution.apply s t n))
            = sapply (Substitution.variable s) (syntax (Substitution.term s)) (syntax t).
Proof.
  induction t as [v | c | r f ts IH] using Term_induction; intros n.
  - simpl. destruct (variable_same v (Substitution.variable s)); reflexivity.
  - reflexivity.
  - rewrite apply_Application.
    assert (H : forall n, map syntax (fst (apply_terms s ts n))
                = map (sapply (Substitution.variable s) (syntax (Substitution.term s)))
                    (map syntax ts)).
    { induction IH as [| x l Hx _ IHl]; intros m; simpl; [reflexivity | ].
      specialize (Hx m). destruct (Substitution.apply s x m) as [x' n1].
      specialize (IHl n1). destruct (apply_terms s l n1) as [l' n2].
      simpl in *. rewrite Hx, IHl. reflexivity. }
    specialize (H n). destruct (apply_terms s ts n) as [ts' n']. simpl in *.
    rewrite H. reflexivity.
Qed.

Lemma syntax_applyAll ss :
  forall t n, syntax (fst (Substitution.applyAll t ss n))
              = sapplyAll (map binding ss) (syntax t).
Proof.
  induction ss as [| s ss IH]; intros t n; simpl; [reflexivity | ].
  pose proof (syntax_apply s t n) as H.
  destruct (Substitution.apply s t n) as [t' n']. simpl in H.
  rewrite IH, H. reflexivity.
Qed.

Lemma sapplyAll_SApp bs : forall f args,
  sapplyAll bs (SApp f args) = SApp f (map (sapplyAll bs) args).
Proof.
  unfold sapplyAll. induction bs as [| b bs IH]; intros f args; simpl.
  - rewrite map_id. reflexivity.
  - rewrite IH, map_map. reflexivity.
Qed.

Lemma sapplyAll_SConst bs c : sapplyAll bs (SConst c) = SConst c.
Proof. unfold sapplyAll. induction bs as [| b bs IH]; simpl; auto. Qed.

Lemma sapply_fresh x u t : ~ In x (svars t) -> sapply x u t = t.
Proof.
  induction t as [v | c | f args IH] using Syntax_induction; intros H; simpl in *.
  - destruct (variable_same v x) eqn:E; [ | reflexivity].
    apply variable_same_eq in E. subst. tauto.
  - reflexivity.
  - f_equal. rewrite <- (map_id args) at 2. apply map_ext_in. intros a Ha.
    rewrite Forall_forall in IH. apply IH; [exact Ha | ].
    intros Hx. apply H. apply in_flat_map. eauto.
Qed.

Lemma svars_sapply v x u t :
  In v (svars (sapply x u t)) -> In v (svars t) \/ In v (svars u).
Proof.
  induction t as [w | c | f args IH] using Syntax_induction; simpl.
  - destruct (variable_same w x); simpl; auto.
  - auto.
  - rewrite !in_flat_map. intros (a & Ha & H).
    apply in_map_iff in Ha. destruct Ha as (b & <- & Hb).
    rewrite Forall_forall in IH. destruct (IH b Hb H); eauto.
Qed.

(** ** The runs of [unify] *)

Ltac unify_bind_case IH H :=
  match type of H with
  | (let '(_, _) := Constraint.apply_each ?s ?rest ?n in _) = _ =>
      let rest' := fresh "rest'" in
      let n1 := fresh "n1" in
      let Ea := fresh "Ea" in
      let Eu := fresh "Eu" in
      let ss := fresh "ss" in
      let n2 := fresh "n2" in
      destruct (Constraint.apply_each s rest n) as [rest' n1] eqn:Ea;
      match type of H with
      | match ?u with _ => _ end = _ =>
          destruct u as [[[ss |] n2] |] eqn:Eu; try discriminate;
          injection H as <- <-;
          [ apply (Unify_bind _ _ _ _ s rest' n1 (Some ss))
          | apply (Unify_bind _ _ _ _ s rest' n1 None) ];
          solve [ auto | reflexivity ]
      end
  end.

Lemma unify_Unify depth :
  forall cs n res n',
    Constraint.unify depth cs n = Some (res, n') -> Unify cs n res n'.
Proof.
  induction depth as [| d IH]; intros [| [l r] rest] n res n' H; simpl in H;
    try discriminate; try (injection H as <- <-; constructor).
  destruct (term_same l r) eqn:E.
  - apply Unify_same; auto.
  - destruct l as [v | c | a f ls].
    + unify_bind_case IH H.
    + destruct r as [w | c' | b g rs].
      * unify_bind_case IH H.
      * injection H as <- <-. apply Unify_constant; auto.
      * injection H as <- <-. apply Unify_constant; auto.
    + destruct r as [w | c' | b g rs].
      * unify_bind_case IH H.
      * injection H as <- <-. apply Unify_constant; auto.
      * destruct (functor_same f g) eqn:Ef; simpl in H.
        -- destruct (Nat.eqb (List.length ls) (List.length rs)) eqn:El; simpl in H.
           ++ apply Nat.eqb_eq in El. apply Unify_arguments; auto.
           ++ apply Nat.eqb_neq in El. injection H as <- <-. apply Unify_arity; auto.
        -- injection H as <- <-. apply Unify_functor; auto.
Qed.

(** The equations of [unify], one per branch of the source. *)

Lemma unify_eq_same d l r rest n :
  term_same l r = true ->
  Constraint.unify (S d) (Constraint.mk l r :: rest) n = Constraint.unify d rest n.
Proof. intros E. simpl. rewrite E. reflexivity. Qed.

Lemma unify_eq_bind d l r rest n s :
  term_same l r = false ->
  pick l r = Some s ->
  Constraint.unify (S d) (Constraint.mk l r :: rest) n
  = let '(rest', n1) := Constraint.apply_each s rest n in
    match Constraint.unify d rest' n1 with
    | None => None
    | Some (res, n2) => Some (option_map (cons s) res, n2)
    end.
Proof.
  intros E P. simpl. rewrite E.
  destruct l as [v | c | a f ls]; [ | destruct r as [w | c' | b g rs] ..];
    simpl in P; try discriminate; injection P as <-;
    destruct (Constraint.apply_each _ rest n) as [rest' n1];
    destruct (Constraint.unify d rest' n1) as [[[ss |] n2] |]; reflexivity.
Qed.

Lemma unify_eq_constant d l r rest n :
  term_same l r = false ->
  is_Variable l = false -> is_Variable r = false ->
  is_Constant l || is_Constant r = true ->
  Constraint.unify (S d) (Constraint.mk l r :: rest) n = Some (None, n).
Proof.
  intros E Hl Hr Hc. simpl. rewrite E.
  destruct l as [v | c | a f ls]; destruct r as [w | c' | b g rs];
    simpl in *; try discriminate; reflexivity.
Qed.

Lemma unify_eq_application d a f ls b g rs rest n :
  term_same (Application a f ls) (Application b g rs) = false ->
  Constraint.unify (S d) (Constraint.mk (Application a f ls) (Application b g rs) :: rest) n
  = if negb (functor_same f g) then Some (None, n)
    else if negb (Nat.eqb (List.length ls) (List.length rs)) then Some (None, n)
    else Constraint.unify d (Constraint.pairwise ls rs ++ rest) n.
Proof.
  intros E. remember (Application a f ls) as l eqn:El.
  remember (Application b g rs) as r eqn:Er.
  simpl. rewrite E. subst. reflexivity.
Qed.

Lemma Unify_unify cs n res n' :
  Unify cs n res n' ->
  exists d, forall d', d <= d' -> Constraint.unify d' cs n = Some (res, n').
Proof.
  induction 1 as [ n
                 | l r rest n res n' E _ [d IH]
                 | l r rest n s rest' n1 res n' E P A _ [d IH]
                 | l r rest n E Hl Hr Hc
                 | a f ls b g rs rest n E Ef
                 | a f ls b g rs rest n E Ef El
                 | a f ls b g rs rest n res n' E Ef El _ [d IH] ].
  - exists 0. intros d' _. destruct d'; reflexivity.
  - exists (S d). intros [| d'] Hd; [lia | ].
    rewrite unify_eq_same by exact E. apply IH. lia.
  - exists (S d). intros [| d'] Hd; [lia | ].
    rewrite (unify_eq_bind _ _ _ _ _ s) by assumption.
    rewrite A, IH by lia. reflexivity.
  - exists 1. intros [| d'] Hd; [lia | ]. apply unify_eq_constant; assumption.
  - exists 1. intros [| d'] Hd; [lia | ].
    rewrite unify_eq_application by exact E. rewrite Ef. reflexivity.
  - exists 1. intros [| d'] Hd; [lia | ].
    rewrite unify_eq_application by exact E. rewrite Ef. simpl.
    apply Nat.eqb_neq in El. rewrite El. reflexivity.
  - exists (S d). intros [| d'] Hd; [lia | ].
    rewrite unify_eq_application by exact E. rewrite Ef. simpl.
    apply Nat.eqb_eq in El. rewrite El. simpl. apply IH. lia.
Qed.

(** Without an occurs check [unify] need not return: on two copies of
    [X = h(X, X)] the first binds [X], the second becomes
    [h(X, X) = h(h(X, X), h(X, X))], and its arguments are the two
    constraints the call started from.  No bound is large enough. *)
Lemma unify_can_recurse_for_ever :
  forall d a b n, Constraint.unify d [Example.growing a; Example.growing b] n = None.
Proof.
  induction d as [d IH] using lt_wf_ind. intros a b n.
  destruct d as [| [| d]]; try reflexivity.
  unfold Example.growing.
  rewrite (unify_eq_bind _ _ _ _ _
             (Substitution.mk Example.X (Application a Example.h [Var Example.X; Var Example.X])))
    by reflexivity.
  cbn -[Constraint.unify term_same].
  rewrite unify_eq_application.
  - cbn -[Constraint.unify]. fold (Example.growing a).
    rewrite (IH d) by lia. reflexivity.
  - rewrite term_same_Application. cbn. apply andb_false_r.
Qed.

(** A result of [unify] does not depend on the bound, once the bound is
    large enough for the call to return. *)
Lemma Unify_deterministic cs n res n' :
  Unify cs n res n' -> forall res2 n2, Unify cs n res2 n2 -> res2 = res /\ n2 = n'.
Proof.
  intros H res2 n2 H2.
  destruct (Unify_unify _ _ _ _ H) as [d Hd].
  destruct (Unify_unify _ _ _ _ H2) as [d2 Hd2].
  specialize (Hd (d + d2)). specialize (Hd2 (d + d2)).
  rewrite Hd in Hd2 by lia. injection (Hd2 ltac:(lia)) as -> ->. auto.
Qed.

Lemma unify_depth_mono d :
  forall cs n r, Constraint.unify d cs n = Some r ->
  forall d', d <= d' -> Constraint.unify d' cs n = Some r.
Proof.
  induction d as [| d IH]; intros [| [l r] rest] n res H d' Hd;
    try (destruct d'; exact H); try discriminate.
  destruct d' as [| d']; [lia | ].
  assert (Hd' : d <= d') by lia.
  destruct (term_same l r) eqn:Es.
  - rewrite unify_eq_same in H by exact Es. rewrite unify_eq_same by exact Es. eapply IH; eauto.
  - destruct (pick l r) as [s |] eqn:P.
    + rewrite (unify_eq_bind _ _ _ _ _ s) in H by assumption.
      rewrite (unify_eq_bind _ _ _ _ _ s) by assumption.
      destruct (Constraint.apply_each s rest n) as [rest' n1].
      destruct (Constraint.unify d rest' n1) as [[res1 m1] |] eqn:E1; [ | discriminate].
      rewrite (IH _ _ _ E1 d' Hd'). exact H.
    + destruct l as [v | c | a f ls]; [discriminate | | ];
        destruct r as [w | c' | b g rs]; try discriminate;
        try (rewrite unify_eq_constant in H by auto; rewrite unify_eq_constant by auto; exact H).
      rewrite unify_eq_application in H by exact Es.
      rewrite unify_eq_application by exact Es.
      destruct (negb (functor_same f g)); [exact H | ].
      destruct (negb (Nat.eqb (List.length ls) (List.length rs))); [exact H | ].
      eapply IH; eauto.
Qed.

(** ** What a successful [unify] returns *)

Lemma apply_each_syntax s cs :
  forall n cs' n',
    Constraint.apply_each s cs n = (cs', n') ->
    Forall2 (fun c c' =>
               syntax (Constraint.left c')
               = sapply (Substitution.variable s) (syntax (Substitution.term s))
                   (syntax (Constraint.left c))
               /\ syntax (Constraint.right c')
                  = sapply (Substitution.variable s) (syntax (Substitution.term s))
                      (syntax (Constraint.right c)))
      cs cs'.
Proof.
  induction cs as [| c cs IH]; intros n cs' n' H; simpl in H.
  - injection H as <- <-. constructor.
  - pose proof (syntax_apply s (Constraint.left c) n) as Hl.
    destruct (Substitution.apply s (Constraint.left c) n) as [l n1].
    pose proof (syntax_apply s (Constraint.right c) n1) as Hr.
    destruct (Substitution.apply s (Constraint.right c) n1) as [r n2].
    destruct (Constraint.apply_each s cs n2) as [cs2 n3] eqn:E.
    injection H as <- <-. constructor; [split; assumption | eapply IH; eauto].
Qed.

Lemma Forall2_In_l {A B} (R : A -> B -> Prop) l l' x :
  Forall2 R l l' -> In x l -> exists y, In y l' /\ R x y.
Proof.
  induction 1 as [| a b l l' Hab _ IH]; intros Hx; [destruct Hx | ].
  destruct Hx as [<- | Hx].
  - exists b. split; [left; reflexivity | exact Hab].
  - destruct (IH Hx) as (y & Hy & Hr). exists y. split; [right; exact Hy | exact Hr].
Qed.

Lemma Forall2_In_r {A B} (R : A -> B -> Prop) l l' y :
  Forall2 R l l' -> In y l' -> exists x, In x l /\ R x y.
Proof.
  induction 1 as [| a b l l' Hab _ IH]; intros Hy; [destruct Hy | ].
  destruct Hy as [<- | Hy].
  - exists a. split; [left; reflexivity | exact Hab].
  - destruct (IH Hy) as (x & Hx & Hr). exists x. split; [right; exact Hx | exact Hr].
Qed.

Lemma map_pairwise_eq {A} (F G : Term -> A) :
  forall ls rs,
    List.length ls = List.length rs ->
    (forall c, In c (Constraint.pairwise ls rs) ->
               F (Constraint.left c) = G (Constraint.right c)) ->
    map F ls = map G rs.
Proof.
  unfold Constraint.pairwise.
  induction ls as [| l ls IH]; intros [| r rs] Hlen H; simpl in *; try discriminate.
  - reflexivity.
  - f_equal.
    + apply (H (Constraint.mk l r)). left. reflexivity.
    + apply IH; [lia | ]. intros c Hc. apply H. right. exact Hc.
Qed.

Lemma after_cons s ss t :
  after (s :: ss) t
  = sapplyAll (map binding ss)
      (sapply (Substitution.variable s) (syntax (Substitution.term s)) (syntax t)).
Proof. reflexivity. Qed.

Lemma circular_false s :
  circular s = false ->
  ~ In (Substitution.variable s) (svars (syntax (Substitution.term s))).
Proof.
  unfold circular. intros H Hin. apply In_listVariables, set_has_In in Hin. congruence.
Qed.

Lemma pick_solved l r s ss :
  pick l r = Some s ->
  circular s = false ->
  after (s :: ss) l = after (s :: ss) r.
Proof.
  intros P C. apply circular_false in C. rewrite !after_cons.
  destruct l as [v | c | a f ls]; [ | destruct r as [w | c' | b g rs] ..];
    simpl in P; try discriminate; injection P as <-; simpl in C |- *.
  - rewrite variable_same_refl.
    rewrite (sapply_fresh v (syntax r) (syntax r)) by exact C. reflexivity.
  - rewrite variable_same_refl. reflexivity.
  - rewrite variable_same_refl.
    change (SApp f (map (sapply w (SApp f (map syntax ls))) (map syntax ls)))
      with (sapply w (syntax (Application a f ls)) (syntax (Application a f ls))).
    rewrite sapply_fresh by exact C. reflexivity.
Qed.

Lemma Unify_identical cs n res n' :
  Unify cs n res n' ->
  forall ss, res = Some ss ->
    forallb (fun s => negb (circular s)) ss = true ->
    forall c, In c cs -> after ss (Constraint.left c) = after ss (Constraint.right c).
Proof.
  induction 1 as [ n
                 | l r rest n res n' E _ IH
                 | l r rest n s rest' n1 res n' E P A _ IH
                 | l r rest n E Hl Hr Hc
                 | a f ls b g rs rest n E Ef
                 | a f ls b g rs rest n E Ef El
                 | a f ls b g rs rest n res n' E Ef El _ IH ];
    intros ss Hres Hcirc c Hin; try discriminate.
  - destruct Hin.
  - destruct Hin as [<- | Hin]; [ | eapply IH; eauto].
    apply term_same_eq in E. simpl. rewrite E. reflexivity.
  - destruct res as [ss0 |]; [ | discriminate]. injection Hres as <-.
    simpl in Hcirc. apply andb_true_iff in Hcirc. destruct Hcirc as [Hs Hss0].
    apply negb_true_iff in Hs.
    destruct Hin as [<- | Hin]; [apply pick_solved; assumption | ].
    destruct (Forall2_In_l _ _ _ _ (apply_each_syntax _ _ _ _ _ A) Hin) as (c' & Hc' & Hl & Hr).
    rewrite !after_cons, <- Hl, <- Hr. apply (IH ss0 eq_refl Hss0 c' Hc').
  - destruct Hin as [<- | Hin].
    + apply functor_same_eq in Ef. subst g. unfold after. simpl.
      rewrite !sapplyAll_SApp, !map_map. f_equal.
      apply map_pairwise_eq; [exact El | ].
      intros c Hc. apply (IH ss Hres Hcirc c). apply in_or_app. left. exact Hc.
    + apply (IH ss Hres Hcirc c). apply in_or_app. right. exact Hin.
Qed.

(** The unification tests of the specification. *)

Example unify_fa_fa :
  Constraint.unify 2 [Example.fa_fa] Example.heap = Some (Some [], Example.heap).
Proof. reflexivity. Qed.

Example unify_fXY_fab :
  Constraint.unify 3 [Example.fXY_fab] Example.heap
  = Some (Some Example.fXY_fab_bindings, Example.heap)
  /\ syntax (fst (Substitution.applyAll (Constraint.left Example.fXY_fab)
                    Example.fXY_fab_bindings Example.heap))
     = syntax (Constraint.right Example.fXY_fab).
Proof. split; reflexivity. Qed.

Example unify_fX_gX :
  forall d, Constraint.unify (S d) [Example.fX_gX] Example.heap = Some (None, Example.heap).
Proof. reflexivity. Qed.

Example unify_fXX_fab :
  forall d, Constraint.unify (3 + d) [Example.fXX_fab] Example.heap = Some (None, Example.heap).
Proof. reflexivity. Qed.

(** C3 (as amended).  When [unify] succeeds and none of the bindings it
    returns is circular (no variable is bound to a term in which it
    occurs), applying the returned bindings in order, with [applyAll],
    to the two sides of any input constraint gives syntactically
    identical terms. *)
Theorem unify_makes_sides_identical depth cs n ss n' :
  Constraint.unify depth cs n = Some (Some ss, n') ->
  forallb (fun s => negb (circular s)) ss = true ->
  forall c, In c cs ->
  forall m m',
    syntax (fst (Substitution.applyAll (Constraint.left c) ss m))
    = syntax (fst (Substitution.applyAll (Constraint.right c) ss m')).
Proof.
  intros H Hcirc c Hc m m'. rewrite !syntax_applyAll.
  apply unify_Unify in H.
  exact (Unify_identical _ _ _ _ H ss eq_refl Hcirc c Hc).
Qed.

Lemma unify_makes_sides_identical_witness :
  Constraint.unify 3 [Example.fXY_fab] Example.heap
  = Some (Some Example.fXY_fab_bindings, Example.heap)
  /\ syntax (fst (Substitution.applyAll (Constraint.left Example.fXY_fab)
                    Example.fXY_fab_bindings Example.heap))
     = syntax (fst (Substitution.applyAll (Constraint.right Example.fXY_fab)
                      Example.fXY_fab_bindings Example.heap)).
Proof.
  split; [reflexivity | ].
  apply (unify_makes_sides_identical 3 [Example.fXY_fab] Example.heap
           Example.fXY_fab_bindings Example.heap).
  - reflexivity.
  - reflexivity.
  - left. reflexivity.
Defined.

(** C3 as it is written fails: there is no occurs check, so [unify]
    succeeds on [X = s(X)] with the circular binding [X -> s(X)], and
    applying it gives [s(X)] on the left and [s(s(X))] on the right. *)
Lemma unify_circular_binding_not_identical :
  Constraint.unify 1 [Example.loopy] Example.heap
  = Some (Some Example.loopy_bindings, Example.heap)
  /\ syntax (fst (Substitution.applyAll (Constraint.left Example.loopy)
                    Example.loopy_bindings Example.heap))
     = SApp Example.s [SVar Example.X]
  /\ syntax (fst (Substitution.applyAll (Constraint.right Example.loopy)
                    Example.loopy_bindings Example.heap))
     = SApp Example.s [SApp Example.s [SVar Example.X]]
  /\ syntax (fst (Substitution.applyAll (Constraint.left Example.loopy)
                    Example.loopy_bindings Example.heap))
     <> syntax (fst (Substitution.applyAll (Constraint.right Example.loopy)
                       Example.loopy_bindings Example.heap)).
Proof.
  repeat split; try reflexivity. discriminate.
Qed.

(** ** No variable is created by [apply] or [unify] *)

Lemma In_constraint_variables v cs :
  In v (constraint_variables cs)
  <-> exists c, In c cs
                /\ (In v (svars (syntax (Constraint.left c)))
                    \/ In v (svars (syntax (Constraint.right c)))).
Proof.
  unfold constraint_variables. rewrite in_flat_map.
  split; intros (c & Hc & H); exists c; (split; [exact Hc | ]).
  - apply in_app_iff in H. rewrite <- !In_listVariables. exact H.
  - apply in_app_iff. rewrite !In_listVariables. exact H.
Qed.

Lemma listVariables_apply s t n v :
  In v (listVariables (fst (Substitution.apply s t n))) ->
  In v (listVariables t) \/ In v (listVariables (Substitution.term s)).
Proof.
  rewrite !In_listVariables, syntax_apply. apply svars_sapply.
Qed.

Lemma pick_variables l r s v :
  pick l r = Some s ->
  v = Substitution.variable s \/ In v (svars (syntax (Substitution.term s))) ->
  In v (svars (syntax l)) \/ In v (svars (syntax r)).
Proof.
  intros P H.
  destruct l as [x | c | a f ls]; [ | destruct r as [w | c' | b g rs] ..];
    simpl in P; try discriminate; injection P as <-; simpl in H |- *;
    destruct H as [-> | H]; auto.
Qed.

Lemma pairwise_variables v ls rs c :
  In c (Constraint.pairwise ls rs) ->
  In v (svars (syntax (Constraint.left c))) \/ In v (svars (syntax (Constraint.right c))) ->
  In v (flat_map svars (map syntax ls)) \/ In v (flat_map svars (map syntax rs)).
Proof.
  unfold Constraint.pairwise. intros Hc H.
  apply in_map_iff in Hc. destruct Hc as ([l r] & <- & Hp). simpl in H.
  pose proof (in_combine_l _ _ _ _ Hp) as Hl.
  pose proof (in_combine_r _ _ _ _ Hp) as Hr.
  rewrite !in_flat_map. destruct H as [H | H]; [left | right].
  - exists (syntax l). split; [apply in_map, Hl | exact H].
  - exists (syntax r). split; [apply in_map, Hr | exact H].
Qed.

Lemma Unify_variables cs n res n' :
  Unify cs n res n' ->
  forall ss, res = Some ss ->
    forall s, In s ss ->
    forall v, v = Substitution.variable s \/ In v (svars (syntax (Substitution.term s))) ->
              In v (constraint_variables cs).
Proof.
  induction 1 as [ n
                 | l r rest n res n' E _ IH
                 | l r rest n s rest' n1 res n' E P A _ IH
                 | l r rest n E Hl Hr Hc
                 | a f ls b g rs rest n E Ef
                 | a f ls b g rs rest n E Ef El
                 | a f ls b g rs rest n res n' E Ef El _ IH ];
    intros ss Hres s0 Hs0 v Hv; try discriminate.
  - injection Hres as <-. destruct Hs0.
  - specialize (IH ss Hres s0 Hs0 v Hv).
    apply In_constraint_variables in IH. apply In_constraint_variables.
    destruct IH as (c & Hc & H). exists c. split; [right; exact Hc | exact H].
  - destruct res as [ss0 |]; [ | discriminate]. injection Hres as <-.
    apply In_constraint_variables.
    destruct Hs0 as [<- | Hs0].
    + exists (Constraint.mk l r). split; [left; reflexivity | ].
      simpl. eapply pick_variables; eauto.
    + specialize (IH ss0 eq_refl s0 Hs0 v Hv).
      apply In_constraint_variables in IH. destruct IH as (c' & Hc' & H).
      destruct (Forall2_In_r _ _ _ _ (apply_each_syntax _ _ _ _ _ A) Hc')
        as (c & Hc & Hl & Hr).
      rewrite Hl, Hr in H.
      assert (Hcases : (In v (svars (syntax (Constraint.left c)))
                        \/ In v (svars (syntax (Constraint.right c))))
                       \/ In v (svars (syntax (Substitution.term s)))).
      { destruct H as [H | H]; apply svars_sapply in H; tauto. }
      destruct Hcases as [H' | H'].
      * exists c. split; [right; exact Hc | exact H'].
      * exists (Constraint.mk l r). split; [left; reflexivity | ].
        simpl. eapply pick_variables; eauto.
  - specialize (IH ss Hres s0 Hs0 v Hv).
    apply In_constraint_variables in IH. apply In_constraint_variables.
    destruct IH as (c & Hc & H). apply in_app_iff in Hc. destruct Hc as [Hc | Hc].
    + exists (Constraint.mk (Application a f ls) (Application b g rs)).
      split; [left; reflexivity | ]. simpl. eapply pairwise_variables; eauto.
    + exists c. split; [right; exact Hc | exact H].
Qed.

(** C9.  Unification and substitution create no variable: every variable
    of a binding returned by a successful [unify], the bound variable
    and the variables of the bound term alike, occurs in the input
    constraints; and every variable of [apply]'s result occurs in the
    input term or in the replacement term of the substitution. *)
Theorem unify_and_apply_mint_no_variable :
  (forall depth cs n ss n',
      Constraint.unify depth cs n = Some (Some ss, n') ->
      forall s, In s ss ->
        In (Substitution.variable s) (constraint_variables cs)
        /\ forall v, In v (listVariables (Substitution.term s)) ->
                     In v (constraint_variables cs))
  /\ (forall s t n v,
        In v (listVariables (fst (Substitution.apply s t n))) ->
        In v (listVariables t) \/ In v (listVariables (Substitution.term s))).
Proof.
  split.
  - intros depth cs n ss n' H s Hs. apply unify_Unify in H. split.
    + eapply Unify_variables; eauto.
    + intros v Hv. apply In_listVariables in Hv. eapply Unify_variables; eauto.
  - intros s t n v. apply listVariables_apply.
Qed.

Lemma unify_and_apply_mint_no_variable_witness :
  In Example.X (constraint_variables [Example.fXY_fab])
  /\ (In Example.X (listVariables (Var Example.X))
      \/ In Example.X (listVariables (Const Example.a))).
Proof.
  destruct unify_and_apply_mint_no_variable as [U A]. split.
  - exact (proj1 (U 3 [Example.fXY_fab] Example.heap Example.fXY_fab_bindings
                    Example.heap eq_refl
                    (Substitution.mk Example.X (Const Example.a)) (or_introl eq_refl))).
  - apply (A (Substitution.mk Example.Y (Const Example.a)) (Var Example.X) Example.heap).
    simpl. left. reflexivity.
Defined.

(** ** The constant case of [unify] *)

Lemma unify_with_unify dead depth :
  forall cs n, unify_with dead depth cs n = Constraint.unify depth cs n.
Proof.
  induction depth as [| d IH]; intros [| [l r] rest] n; try reflexivity.
  simpl. destruct (term_same l r) eqn:E; [apply IH | ].
  destruct l as [v | c | a f ls]; destruct r as [w | c' | b g rs];
    try reflexivity;
    try (destruct (Constraint.apply_each _ rest n) as [rest' n1]; rewrite IH; reflexivity).
  destruct (negb (functor_same f g)); [reflexivity | ].
  destruct (negb (Nat.eqb (List.length ls) (List.length rs))); [reflexivity | apply IH].
Qed.

(** C10.  The inner [if (left === right) return []] of the constant case
    is dead code: whatever it returned, [unify] would return the same
    results ([unify_with dead] is [unify] for every [dead]).  A first
    constraint with no variable side and a constant side is either
    dropped by the identity step, which goes on with the remaining
    constraints, or makes [unify] fail. *)
Theorem unify_constant_case :
  (forall dead depth cs n, unify_with dead depth cs n = Constraint.unify depth cs n)
  /\ (forall depth l r rest n,
        is_Variable l = false -> is_Variable r = false ->
        is_Constant l || is_Constant r = true ->
        Constraint.unify (S depth) (Constraint.mk l r :: rest) n
        = if term_same l r then Constraint.unify depth rest n else Some (None, n)).
Proof.
  split.
  - intros. apply unify_with_unify.
  - intros depth l r rest n Hl Hr Hc. destruct (term_same l r) eqn:E.
    + apply unify_eq_same, E.
    + apply unify_eq_constant; assumption.
Qed.

Lemma unify_constant_case_witness :
  Constraint.unify 1 [Constraint.mk (Const Example.a) (Const Example.b); Example.fXY_fab]
    Example.heap
  = Some (None, Example.heap)
  /\ Constraint.unify 3 [Constraint.mk (Const Example.a) (Const Example.a); Example.fXY_fab]
       Example.heap
     = Constraint.unify 2 [Example.fXY_fab] Example.heap.
Proof.
  destruct unify_constant_case as [_ H]. split.
  - apply (H 0 (Const Example.a) (Const Example.b) [Example.fXY_fab] Example.heap); reflexivity.
  - apply (H 2 (Const Example.a) (Const Example.a) [Example.fXY_fab] Example.heap); reflexivity.
Defined.

(** ** Substitution on ground terms *)

Lemma sapplyAll_ground bs : forall t, svars t = [] -> sapplyAll bs t = t.
Proof.
  unfold sapplyAll. induction bs as [| [x u] bs IH]; intros t H; simpl; [reflexivity | ].
  rewrite sapply_fresh by (rewrite H; intros []). apply IH, H.
Qed.

(** C4.  On a fully ground term ([listVariables] returns the empty set)
    [applyAll] is a no-op for every substitution list: the result is
    syntactically the term itself, whenever and however often the list
    is applied, also when it is applied again to its own result. *)
Theorem applyAll_ground_noop ss t :
  listVariables t = [] ->
  forall n m,
    syntax (fst (Substitution.applyAll t ss n)) = syntax t
    /\ syntax (fst (Substitution.applyAll t ss m)) = syntax (fst (Substitution.applyAll t ss n))
    /\ syntax (fst (Substitution.applyAll (fst (Substitution.applyAll t ss n)) ss m)) = syntax t.
Proof.
  intros H n m. apply listVariables_nil in H.
  rewrite !syntax_applyAll, !sapplyAll_ground; auto.
Qed.

Lemma applyAll_ground_noop_witness :
  listVariables Example.two = []
  /\ syntax (fst (Substitution.applyAll Example.two Example.fXY_fab_bindings Example.heap))
     = syntax Example.two.
Proof.
  split; [reflexivity | ].
  apply (applyAll_ground_noop Example.fXY_fab_bindings Example.two eq_refl
           Example.heap Example.heap).
Defined.

(** On an [Application], [apply] returns a newly allocated object: the
    no-op above is about the syntax of the term, not about the identity
    of the object that holds it. *)
Lemma apply_Application_allocates s r f ts n :
  exists ts' n', Substitution.apply s (Application r f ts) n = (Application n' f ts', S n')
                 /\ n <= n'.
Proof.
  rewrite apply_Application.
  assert (H : forall l m, m <= snd (apply_terms s l m)).
  { assert (A : forall t m, m <= snd (Substitution.apply s t m)).
    { induction t as [v | c | r0 f0 l IHl] using Term_induction; intros m.
      - simpl. destruct (variable_same v (Substitution.variable s)); simpl; lia.
      - simpl. lia.
      - rewrite apply_Application.
        assert (Hl : forall k, k <= snd (apply_terms s l k)).
        { induction IHl as [| x l' Hx _ IH']; intros k; simpl; [lia | ].
          specialize (Hx k). destruct (Substitution.apply s x k) as [x' k1].
          specialize (IH' k1). destruct (apply_terms s l' k1) as [l'' k2].
          simpl in *. lia. }
        specialize (Hl m). destruct (apply_terms s l m) as [l' m']. simpl in *. lia. }
    induction l as [| x l IH]; intros m; simpl; [lia | ].
    specialize (A x m). destruct (Substitution.apply s x m) as [x' m1].
    specialize (IH m1). destruct (apply_terms s l m1) as [l' m2]. simpl in *. lia. }
  specialize (H ts n). destruct (apply_terms s ts n) as [ts' n'].
  exists ts', n'. split; [reflexivity | exact H].
Qed.

(** ** Refreshing the variables of a clause *)

Lemma syntax_applyAll_each ss ts :
  forall n, map syntax (fst (applyAll_each ts ss n))
            = map (sapplyAll (map binding ss)) (map syntax ts).
Proof.
  induction ts as [| t ts IH]; intros n; simpl; [reflexivity | ].
  pose proof (syntax_applyAll ss t n) as H.
  destruct (Substitution.applyAll t ss n) as [t' n1].
  specialize (IH n1). destruct (applyAll_each ts ss n1) as [ts' n2].
  simpl in *. rewrite H, IH. reflexivity.
Qed.

(** The bindings [refresh] builds: variable to new variable, the new
    one with the old name and a tag taken from the counter. *)
Lemma refresh_bindings vs :
  forall n ss n',
    refresh vs n = (ss, n') ->
    map Substitution.variable ss = vs
    /\ Forall (fun s => exists w, Substitution.term s = Var w
                                  /\ variable_name w = variable_name (Substitution.variable s)
                                  /\ n <= variable_tag w < n') ss
    /\ n <= n'.
Proof.
  induction vs as [| v vs IH]; intros n ss n' H; simpl in H.
  - injection H as <- <-. repeat split; [constructor | lia].
  - destruct (refresh vs (S n)) as [ss1 n1] eqn:E. injection H as <- <-.
    destruct (IH _ _ _ E) as (Hm & Hf & Hn). repeat split.
    + simpl. rewrite Hm. reflexivity.
    + constructor.
      * exists (mkVariable n (variable_name v)). simpl. repeat split; lia.
      * eapply Forall_impl; [ | exact Hf]. intros s (w & Hw & Hname & Htag).
        exists w. repeat split; auto; lia.
    + lia.
Qed.

Lemma renaming_refresh vs :
  forall n ss n',
    refresh vs n = (ss, n') ->
    forall v, In v vs ->
      variable_name (renaming ss v) = variable_name v
      /\ n <= variable_tag (renaming ss v) < n'.
Proof.
  induction vs as [| x vs IH]; intros n ss n' H v Hv; [destruct Hv | ].
  simpl in H. destruct (refresh vs (S n)) as [ss1 n1] eqn:E. injection H as <- <-.
  destruct (refresh_bindings _ _ _ _ E) as (_ & _ & Hn).
  simpl. destruct (variable_same v x) eqn:Ev.
  - apply variable_same_eq in Ev. subst. simpl. split; [reflexivity | lia].
  - apply variable_same_neq in Ev. destruct Hv as [-> | Hv]; [congruence | ].
    destruct (IH _ _ _ E v Hv) as [Hname Htag]. split; [exact Hname | lia].
Qed.

Lemma renaming_refresh_injective vs :
  forall n ss n',
    refresh vs n = (ss, n') ->
    forall v w, In v vs -> In w vs -> renaming ss v = renaming ss w -> v = w.
Proof.
  induction vs as [| x vs IH]; intros n ss n' H v w Hv Hw; [destruct Hv | ].
  simpl in H. destruct (refresh vs (S n)) as [ss1 n1] eqn:E. injection H as <- <-.
  simpl. destruct (variable_same v x) eqn:Ev; destruct (variable_same w x) eqn:Ew.
  - apply variable_same_eq in Ev, Ew. congruence.
  - apply variable_same_neq in Ew. destruct Hw as [-> | Hw]; [congruence | ].
    destruct (renaming_refresh _ _ _ _ E w Hw) as [_ Htag].
    intros Heq. rewrite <- Heq in Htag. simpl in Htag. lia.
  - apply variable_same_neq in Ev. destruct Hv as [-> | Hv]; [congruence | ].
    destruct (renaming_refresh _ _ _ _ E v Hv) as [_ Htag].
    intros Heq. rewrite Heq in Htag. simpl in Htag. lia.
  - apply variable_same_neq in Ev, Ew.
    destruct Hv as [-> | Hv]; [congruence | ]. destruct Hw as [-> | Hw]; [congruence | ].
    eapply IH; eauto.
Qed.

(** Bindings applied one after the other rename simultaneously when
    none of the new variables is bound by a later binding. *)
Lemma sapplyAll_SVar_unbound ss w :
  ~ In w (map Substitution.variable ss) ->
  sapplyAll (map binding ss) (SVar w) = SVar w.
Proof.
  unfold sapplyAll. induction ss as [| s ss IH]; intros H; simpl in *; [reflexivity | ].
  destruct (variable_same w (Substitution.variable s)) eqn:E.
  - apply variable_same_eq in E. subst. tauto.
  - apply IH. tauto.
Qed.

Lemma sapplyAll_renaming ss :
  (forall s w, In s ss -> Substitution.term s = Var w ->
               ~ In w (map Substitution.variable ss)) ->
  Forall (fun s => exists w, Substitution.term s = Var w) ss ->
  forall t, sapplyAll (map binding ss) t = srename (renaming ss) t.
Proof.
  intros Hfresh Hvar.
  assert (HV : forall v, sapplyAll (map binding ss) (SVar v) = SVar (renaming ss v)).
  { induction ss as [| s ss IH]; intros v; [reflexivity | ].
    inversion Hvar as [| s' ss' (w & Hw) Hvar']; subst.
    change (sapplyAll (map binding (s :: ss)) (SVar v))
      with (sapplyAll (map binding ss)
              (sapply (Substitution.variable s) (syntax (Substitution.term s)) (SVar v))).
    simpl. destruct (variable_same v (Substitution.variable s)) eqn:E.
    - rewrite Hw. simpl. apply sapplyAll_SVar_unbound.
      intros Hin. apply (Hfresh s w); [left; reflexivity | exact Hw | right; exact Hin].
    - apply IH; [ | exact Hvar'].
      intros s0 w0 Hs0 Hw0 Hin. apply (Hfresh s0 w0); [right; exact Hs0 | exact Hw0 | ].
      right. exact Hin. }
  induction t as [v | c | f args IH] using Syntax_induction.
  - apply HV.
  - apply sapplyAll_SConst.
  - rewrite sapplyAll_SApp. simpl. f_equal. apply map_ext_in.
    rewrite Forall_forall in IH. exact IH.
Qed.

Lemma svars_srename rho t : svars (srename rho t) = map rho (svars t).
Proof.
  induction t as [v | c | f args IH] using Syntax_induction; simpl; try reflexivity.
  induction IH as [| a l Ha _ IHl]; simpl; [reflexivity | ].
  rewrite map_app, Ha, IHl. reflexivity.
Qed.

Lemma allocated_In n vs v : allocated n vs = true -> In v vs -> variable_tag v < n.
Proof.
  unfold allocated. rewrite forallb_forall. intros H Hv.
  apply Nat.ltb_lt. apply H, Hv.
Qed.

(** What [refresh] followed by [applyAll] does to the syntax of any
    term, for a set of variables allocated before [n]. *)
Lemma refresh_renames vs n ss n' :
  allocated n vs = true ->
  refresh vs n = (ss, n') ->
  forall t, sapplyAll (map binding ss) t = srename (renaming ss) t.
Proof.
  intros Hall H. destruct (refresh_bindings _ _ _ _ H) as (Hm & Hf & _).
  apply sapplyAll_renaming.
  - intros s w Hs Hw. rewrite Hm. intros Hin.
    apply (allocated_In _ _ _ Hall) in Hin.
    rewrite Forall_forall in Hf. destruct (Hf s Hs) as (w' & Hw' & _ & Htag).
    rewrite Hw in Hw'. injection Hw' as <-. lia.
  - eapply Forall_impl; [ | exact Hf]. intros s (w & Hw & _). exists w. exact Hw.
Qed.

Lemma In_fact_variables v f :
  In v (fact_variables f) <-> In v (atom_svars (fact_syntax f)).
Proof.
  unfold fact_variables, atom_svars, fact_syntax. simpl.
  rewrite In_collect, in_flat_map. split.
  - intros [[] | (t & Ht & H)]. exists (syntax t).
    split; [apply in_map, Ht | apply In_listVariables, H].
  - intros (u & Hu & H). apply in_map_iff in Hu. destruct Hu as (t & <- & Ht).
    right. exists t. split; [exact Ht | apply In_listVariables, H].
Qed.

Lemma In_collect_svars v ts s :
  In v (collect s ts) <-> In v s \/ In v (flat_map svars (map syntax ts)).
Proof.
  rewrite In_collect, in_flat_map. split.
  - intros [H | (t & Ht & H)]; [left; exact H | right].
    exists (syntax t). split; [apply in_map, Ht | apply In_listVariables, H].
  - intros [H | (u & Hu & H)]; [left; exact H | right].
    apply in_map_iff in Hu. destruct Hu as (t & <- & Ht).
    exists t. split; [exact Ht | apply In_listVariables, H].
Qed.

Lemma In_rule_variables v r :
  In v (rule_variables r)
  <-> In v (atom_svars (atom_syntax (Rule.left r)))
      \/ exists a, In a (Rule.right r) /\ In v (atom_svars (atom_syntax a)).
Proof.
  unfold rule_variables, atom_svars, atom_syntax. simpl.
  assert (H : forall atoms s,
             In v (fold_left (fun vs a => collect vs (terms a)) atoms s)
             <-> In v s \/ exists a, In a atoms
                                     /\ In v (flat_map svars (map syntax (terms a)))).
  { induction atoms as [| a atoms IH]; intros s; simpl.
    - split; [auto | intros [H | (a & [] & _)]; exact H].
    - rewrite IH, In_collect_svars. split.
      + intros [[H | H] | (a' & Ha' & H)]; eauto.
      + intros [H | (a' & [-> | Ha'] & H)]; eauto. }
  rewrite H, In_collect_svars. simpl. tauto.
Qed.

Lemma syntax_clone_right ss atoms :
  forall n, map atom_syntax (fst (Rule.clone_right atoms ss n))
            = map (fun a => (fst a, map (sapplyAll (map binding ss)) (snd a)))
                (map atom_syntax atoms).
Proof.
  induction atoms as [| a atoms IH]; intros n; simpl; [reflexivity | ].
  pose proof (syntax_applyAll_each ss (terms a) n) as H.
  destruct (applyAll_each (terms a) ss n) as [tms n1].
  specialize (IH n1). destruct (Rule.clone_right atoms ss n1) as [atoms' n2].
  simpl in *. rewrite IH. unfold atom_syntax at 1. simpl. rewrite H. reflexivity.
Qed.

(** The variables of a renamed atom are new when the renaming sends the
    variables of the clause above the counter. *)
Lemma renamed_atom_fresh rho vs n a v :
  allocated n vs = true ->
  (forall u, In u vs -> n <= variable_tag (rho u)) ->
  (forall u, In u (atom_svars a) -> In u vs) ->
  In v (atom_svars (rename_atom rho a)) ->
  ~ In v vs.
Proof.
  intros Hall Hrho Hsub Hv Hin.
  unfold atom_svars, rename_atom in Hv. simpl in Hv.
  apply in_flat_map in Hv. destruct Hv as (t' & Ht' & Hv).
  apply in_map_iff in Ht'. destruct Ht' as (t & <- & Ht).
  rewrite svars_srename in Hv. apply in_map_iff in Hv. destruct Hv as (u & <- & Hu).
  assert (Huv : In u vs).
  { apply Hsub. unfold atom_svars. apply in_flat_map. eauto. }
  pose proof (Hrho u Huv). pose proof (allocated_In _ _ _ Hall Hin). lia.
Qed.

Lemma fact_clone_renames f n f' n' :
  allocated n (fact_variables f) = true ->
  Fact.clone f n = (f', n') ->
  exists rho,
    fact_syntax f' = rename_atom rho (fact_syntax f)
    /\ (forall v, In v (fact_variables f) ->
                  variable_name (rho v) = variable_name v
                  /\ n <= variable_tag (rho v)
                  /\ ~ In (rho v) (fact_variables f))
    /\ (forall v w, In v (fact_variables f) -> In w (fact_variables f) ->
                    rho v = rho w -> v = w)
    /\ (forall v, In v (fact_variables f') -> ~ In v (fact_variables f)).
Proof.
  intros Hall H. unfold Fact.clone in H. fold (fact_variables f) in H.
  destruct (refresh (fact_variables f) n) as [ss n1] eqn:E.
  pose proof (syntax_applyAll_each ss (Fact.terms f) n1) as Hs.
  destruct (applyAll_each (Fact.terms f) ss n1) as [tms n2]. injection H as <- <-.
  simpl in Hs.
  assert (Hsyn : fact_syntax (Fact.mk (Fact.predicate f) tms)
                 = rename_atom (renaming ss) (fact_syntax f)).
  { unfold fact_syntax, rename_atom. simpl. rewrite Hs. f_equal.
    apply map_ext. apply (refresh_renames _ _ _ _ Hall E). }
  assert (Htag : forall u, In u (fact_variables f) -> n <= variable_tag (renaming ss u)).
  { intros u Hu. apply (renaming_refresh _ _ _ _ E u Hu). }
  exists (renaming ss). split; [exact Hsyn | ]. split; [ | split].
  - intros v Hv. destruct (renaming_refresh _ _ _ _ E v Hv) as [Hname Ht].
    split; [exact Hname | ]. split; [lia | ].
    intros Hin. apply (allocated_In _ _ _ Hall) in Hin. lia.
  - apply (renaming_refresh_injective _ _ _ _ E).
  - intros v Hv. apply In_fact_variables in Hv. rewrite Hsyn in Hv.
    apply (renamed_atom_fresh _ _ n _ _ Hall Htag) in Hv; [exact Hv | ].
    intros u Hu. apply In_fact_variables, Hu.
Qed.

Lemma rule_clone_renames r n r' n' :
  allocated n (rule_variables r) = true ->
  Rule.clone r n = (r', n') ->
  exists rho,
    rule_syntax r'
    = (rename_atom rho (atom_syntax (Rule.left r)),
       map (rename_atom rho) (map atom_syntax (Rule.right r)))
    /\ (forall v, In v (rule_variables r) ->
                  variable_name (rho v) = variable_name v
                  /\ n <= variable_tag (rho v)
                  /\ ~ In (rho v) (rule_variables r))
    /\ (forall v w, In v (rule_variables r) -> In w (rule_variables r) ->
                    rho v = rho w -> v = w)
    /\ (forall v, In v (rule_variables r') -> ~ In v (rule_variables r)).
Proof.
  intros Hall H. unfold Rule.clone in H. cbv zeta in H. fold (rule_variables r) in H.
  destruct (refresh (rule_variables r) n) as [ss n1] eqn:E.
  pose proof (syntax_applyAll_each ss (terms (Rule.left r)) n1) as Hl.
  destruct (applyAll_each (terms (Rule.left r)) ss n1) as [ltms n2].
  pose proof (syntax_clone_right ss (Rule.right r) n2) as Hr.
  destruct (Rule.clone_right (Rule.right r) ss n2) as [atoms n3]. injection H as <- <-.
  simpl in Hl, Hr.
  pose proof (refresh_renames _ _ _ _ Hall E) as Hren.
  assert (Hsyn : rule_syntax (Rule.mk (mkAtom (predicate (Rule.left r)) ltms) atoms)
                 = (rename_atom (renaming ss) (atom_syntax (Rule.left r)),
                    map (rename_atom (renaming ss)) (map atom_syntax (Rule.right r)))).
  { unfold rule_syntax. simpl. f_equal.
    - unfold atom_syntax, rename_atom. simpl. rewrite Hl. f_equal. apply map_ext, Hren.
    - rewrite Hr. apply map_ext. intros a. unfold rename_atom. f_equal.
      apply map_ext, Hren. }
  assert (Htag : forall u, In u (rule_variables r) -> n <= variable_tag (renaming ss u)).
  { intros u Hu. apply (renaming_refresh _ _ _ _ E u Hu). }
  exists (renaming ss). split; [exact Hsyn | ]. split; [ | split].
  - intros v Hv. destruct (renaming_refresh _ _ _ _ E v Hv) as [Hname Ht].
    split; [exact Hname | ]. split; [lia | ].
    intros Hin. apply (allocated_In _ _ _ Hall) in Hin. lia.
  - apply (renaming_refresh_injective _ _ _ _ E).
  - intros v Hv. apply In_rule_variables in Hv.
    unfold rule_syntax in Hsyn.
    pose proof (f_equal fst Hsyn) as Hsl. pose proof (f_equal snd Hsyn) as Hsr.
    cbn [fst snd Rule.left Rule.right] in Hsl, Hsr, Hv.
    destruct Hv as [Hv | (a' & Ha' & Hv)].
    + rewrite Hsl in Hv. apply (renamed_atom_fresh _ _ n _ _ Hall Htag) in Hv; [exact Hv | ].
      intros u Hu. apply In_rule_variables. left. exact Hu.
    + assert (Hin : In (atom_syntax a') (map (rename_atom (renaming ss))
                                          (map atom_syntax (Rule.right r)))).
      { rewrite <- Hsr. apply in_map, Ha'. }
      apply in_map_iff in Hin. destruct Hin as (b & Hb & Hin). rewrite <- Hb in Hv.
      apply in_map_iff in Hin. destruct Hin as (a & <- & Ha).
      apply (renamed_atom_fresh _ _ n _ _ Hall Htag) in Hv; [exact Hv | ].
      intros u Hu. apply In_rule_variables. right. exists a. split; assumption.
Qed.

(** C7.  [clone] on a fact or on a rule returns the clause renamed: the
    predicates, functors and constants are unchanged, each variable of
    the clause (of the head and, for a rule, of every body atom) is
    replaced throughout by one variable of the same name whose identity
    is new, different variables get different replacements, and no
    variable of the result is a variable of the input.  The variables
    of the input are those of objects that exist when [clone] is called,
    allocated before the counter reached [n]. *)
Theorem clone_standardizes_apart :
  (forall f n f' n',
      allocated n (fact_variables f) = true ->
      Fact.clone f n = (f', n') ->
      (forall v, In v (fact_variables f) <-> In v (atom_svars (fact_syntax f)))
      /\ exists rho,
          fact_syntax f' = rename_atom rho (fact_syntax f)
          /\ (forall v, In v (fact_variables f) ->
                        variable_name (rho v) = variable_name v
                        /\ n <= variable_tag (rho v)
                        /\ ~ In (rho v) (fact_variables f))
          /\ (forall v w, In v (fact_variables f) -> In w (fact_variables f) ->
                          rho v = rho w -> v = w)
          /\ (forall v, In v (fact_variables f') -> ~ In v (fact_variables f)))
  /\ (forall r n r' n',
        allocated n (rule_variables r) = true ->
        Rule.clone r n = (r', n') ->
        (forall v, In v (rule_variables r)
                   <-> In v (atom_svars (atom_syntax (Rule.left r)))
                       \/ exists a, In a (Rule.right r) /\ In v (atom_svars (atom_syntax a)))
        /\ exists rho,
            rule_syntax r'
            = (rename_atom rho (atom_syntax (Rule.left r)),
               map (rename_atom rho) (map atom_syntax (Rule.right r)))
            /\ (forall v, In v (rule_variables r) ->
                          variable_name (rho v) = variable_name v
                          /\ n <= variable_tag (rho v)
                          /\ ~ In (rho v) (rule_variables r))
            /\ (forall v w, In v (rule_variables r) -> In w (rule_variables r) ->
                            rho v = rho w -> v = w)
            /\ (forall v, In v (rule_variables r') -> ~ In v (rule_variables r))).
Proof.
  split.
  - intros f n f' n' Hall H. split.
    + intros v. apply In_fact_variables.
    + eapply fact_clone_renames; eauto.
  - intros r n r' n' Hall H. split.
    + intros v. apply In_rule_variables.
    + eapply rule_clone_renames; eauto.
Qed.

Lemma clone_standardizes_apart_witness :
  (forall v, In v (fact_variables (fst (Fact.clone Example.add_zero Example.heap))) ->
             ~ In v (fact_variables Example.add_zero))
  /\ (forall v, In v (rule_variables (fst (Rule.clone Example.add_succ Example.heap))) ->
                ~ In v (rule_variables Example.add_succ)).
Proof.
  destruct clone_standardizes_apart as [F R]. split.
  - destruct (F Example.add_zero Example.heap
                (fst (Fact.clone Example.add_zero Example.heap))
                (snd (Fact.clone Example.add_zero Example.heap))
                eq_refl eq_refl) as (_ & rho & _ & _ & _ & H).
    exact H.
  - destruct (R Example.add_succ Example.heap
                (fst (Rule.clone Example.add_succ Example.heap))
                (snd (Rule.clone Example.add_succ Example.heap))
                eq_refl eq_refl) as (_ & rho & _ & _ & _ & H).
    exact H.
Defined.

(** ** The resolution engine: larger bounds change no result *)

Lemma try_fact_mono d goal item f n r :
  Space.try_fact d goal item f n = Some r ->
  forall d', d <= d' -> Space.try_fact d' goal item f n = Some r.
Proof.
  unfold Space.try_fact. intros H d' Hd.
  destruct (Fact.clone f n) as [fact n1].
  destruct (negb _); [exact H | ]. destruct (negb _); [exact H | ].
  destruct (Space.constraints_for _ _ _ n1) as [cs n2].
  destruct (Constraint.unify d cs n2) as [u |] eqn:E; [ | discriminate].
  rewrite (unify_depth_mono _ _ _ _ E d' Hd). exact H.
Qed.

Lemma try_rule_mono d goal item r0 n r :
  Space.try_rule d goal item r0 n = Some r ->
  forall d', d <= d' -> Space.try_rule d' goal item r0 n = Some r.
Proof.
  unfold Space.try_rule. intros H d' Hd.
  destruct (Rule.clone r0 n) as [rule n1].
  destruct (negb _); [exact H | ]. destruct (negb _); [exact H | ].
  destruct (Space.constraints_for _ _ _ n1) as [cs n2].
  destruct (Constraint.unify d cs n2) as [u |] eqn:E; [ | discriminate].
  rewrite (unify_depth_mono _ _ _ _ E d' Hd). exact H.
Qed.

Lemma scan_mono {C} (attempt attempt' : C -> nat -> option (option Space.Item * nat)) :
  (forall c n r, attempt c n = Some r -> attempt' c n = Some r) ->
  forall cs q n r, Space.scan attempt cs q n = Some r -> Space.scan attempt' cs q n = Some r.
Proof.
  intros Hmono. induction cs as [| c cs IH]; intros q n r H; simpl in *; [exact H | ].
  destruct (attempt c n) as [[[item |] n1] |] eqn:E; [ | | discriminate];
    rewrite (Hmono _ _ _ E); apply IH, H.
Qed.

Lemma loop_mono this fv d f :
  forall q n r,
    Space.loop this fv d f q n = Some r ->
    forall d' f', d <= d' -> f <= f' -> Space.loop this fv d' f' q n = Some r.
Proof.
  induction f as [| f IH]; intros [| item q] n r H d' f' Hd Hf;
    try (destruct f'; exact H); try discriminate.
  destruct f' as [| f']; [lia | ]. simpl in *.
  destruct (Space.goals item) as [| goal gs].
  - destruct (Space.bind_each fv (Space.substitutions item) [] n) as [m n1].
    destruct (negb (Space.isValid m)); [ | exact H].
    eapply IH; eauto. lia.
  - destruct (Space.scan (Space.try_fact d goal item) (Space.facts this) q n)
      as [[q1 n1] |] eqn:E1; [ | discriminate].
    rewrite (scan_mono _ (Space.try_fact d' goal item)
               (fun c k r0 Hr => try_fact_mono _ _ _ _ _ _ Hr d' Hd) _ _ _ _ E1).
    destruct (Space.scan (Space.try_rule d goal item) (Space.rules this) q1 n1)
      as [[q2 n2] |] eqn:E2; [ | discriminate].
    rewrite (scan_mono _ (Space.try_rule d' goal item)
               (fun c k r0 Hr => try_rule_mono _ _ _ _ _ _ Hr d' Hd) _ _ _ _ E2).
    eapply IH; eauto. lia.
Qed.

Lemma next_mono d f it n r :
  Space.next d f it n = Some r ->
  forall d' f', d <= d' -> f <= f' -> Space.next d' f' it n = Some r.
Proof.
  unfold Space.next. intros H d' f' Hd Hf.
  destruct (Space.loop _ _ d f _ n) as [[[res q] n1] |] eqn:E; [ | discriminate].
  rewrite (loop_mono _ _ _ _ _ _ _ E d' f' Hd Hf). exact H.
Qed.

Lemma pulls_mono d f k :
  forall it n rs,
    pulls d f k it n = Some rs ->
    forall d' f', d <= d' -> f <= f' -> pulls d' f' k it n = Some rs.
Proof.
  induction k as [| k IH]; intros it n rs H d' f' Hd Hf; simpl in *; [exact H | ].
  destruct (Space.next d f it n) as [[[r it'] n'] |] eqn:E; [ | discriminate].
  rewrite (next_mono _ _ _ _ _ E d' f' Hd Hf).
  destruct (pulls d f k it' n') as [rs' |] eqn:E'; [ | discriminate].
  rewrite (IH _ _ _ E' d' f' Hd Hf). exact H.
Qed.

(** ** The two example queries of the specification *)

(** C1.  On the store [add(z,Y,Y).], [add(s(X),Y,s(Z)) :- add(X,Y,Z).]
    the query [add(X, Y, s(s(z)))] gives, pull after pull, exactly the
    answers [{X -> z, Y -> s(s(z))}], [{X -> s(z), Y -> s(z)}] and
    [{X -> s(s(z)), Y -> z}], and the fourth pull reports exhaustion;
    this is what the engine returns for every bound that lets it
    return. *)
Theorem query_add_X_Y_two :
  forall d f,
    pulls (4 + d) (2 + f) 4 (Space.query Example.space [Example.goal2]) Example.heap
    = Some [ answer [(Example.X, Example.num 0); (Example.Y, Example.num 2)];
             answer [(Example.X, Example.num 1); (Example.Y, Example.num 1)];
             answer [(Example.X, Example.num 2); (Example.Y, Example.num 0)];
             exhausted ].
Proof.
  intros d f. apply (pulls_mono 4 2); [vm_compute; reflexivity | lia | lia].
Qed.

(** C2.  On the same store the query [add(s(z), s(s(z)), V)] gives
    exactly one answer, [{V -> s(s(s(z)))}], and the second pull reports
    exhaustion. *)
Theorem query_add_one_two_V :
  forall d f,
    pulls (4 + d) (3 + f) 2 (Space.query Example.space [Example.goal1]) Example.heap
    = Some [ answer [(Example.V, Example.num 3)]; exhausted ].
Proof.
  intros d f. apply (pulls_mono 4 3); [vm_compute; reflexivity | lia | lia].
Qed.

(** ** Exhaustion *)

Lemma fact_clone_predicate f n : Fact.predicate (fst (Fact.clone f n)) = Fact.predicate f.
Proof.
  unfold Fact.clone. destruct (refresh _ n) as [ss n1].
  destruct (applyAll_each _ ss n1) as [tms n2]. reflexivity.
Qed.

Lemma rule_clone_predicate r n :
  predicate (Rule.left (fst (Rule.clone r n))) = predicate (Rule.left r).
Proof.
  unfold Rule.clone. destruct (refresh _ n) as [ss n1].
  destruct (applyAll_each _ ss n1) as [tms n2].
  destruct (Rule.clone_right _ ss n2) as [atoms n3]. reflexivity.
Qed.

Lemma scan_facts_absent d goal item facts :
  forallb (fun f => negb (predicate_same (Goal.predicate goal) (Fact.predicate f))) facts
  = true ->
  forall q n, exists n', Space.scan (Space.try_fact d goal item) facts q n = Some (q, n').
Proof.
  induction facts as [| f facts IH]; intros H q n; simpl in *; [eexists; reflexivity | ].
  apply andb_true_iff in H. destruct H as [Hf Hfacts].
  unfold Space.try_fact at 1. pose proof (fact_clone_predicate f n) as Hp.
  destruct (Fact.clone f n) as [fact n1]. simpl in Hp. rewrite Hp, Hf.
  apply IH, Hfacts.
Qed.

Lemma scan_rules_absent d goal item rules :
  forallb (fun r => negb (predicate_same (Goal.predicate goal) (predicate (Rule.left r))))
    rules = true ->
  forall q n, exists n', Space.scan (Space.try_rule d goal item) rules q n = Some (q, n').
Proof.
  induction rules as [| r rules IH]; intros H q n; simpl in *; [eexists; reflexivity | ].
  apply andb_true_iff in H. destruct H as [Hr Hrules].
  unfold Space.try_rule at 1. pose proof (rule_clone_predicate r n) as Hp.
  destruct (Rule.clone r n) as [rule n1]. simpl in Hp. rewrite Hp, Hr.
  apply IH, Hrules.
Qed.

Lemma loop_done this fv d f :
  forall q n r q' n',
    Space.loop this fv d f q n = Some (r, q', n') ->
    Space.done r = true ->
    r = Space.mkResult true [] /\ q' = [].
Proof.
  induction f as [| f IH]; intros [| item q] n r q' n' H Hdone; simpl in H;
    try discriminate; try (injection H as <- <- <-; auto).
  destruct (Space.goals item) as [| goal gs].
  - destruct (Space.bind_each fv (Space.substitutions item) [] n) as [m n1].
    destruct (negb (Space.isValid m)); [eapply IH; eauto | ].
    injection H as <- <- <-. discriminate.
  - destruct (Space.scan _ (Space.facts this) q n) as [[q1 n1] |]; [ | discriminate].
    destruct (Space.scan _ (Space.rules this) q1 n1) as [[q2 n2] |]; [ | discriminate].
    eapply IH; eauto.
Qed.

(** C8.  A query whose first goal is on a predicate that no fact and no
    rule of the store defines reports exhaustion at its first pull (the
    pull returns, and returns [done]); and once a pull has reported
    exhaustion, every later pull on the same iterator reports
    exhaustion too, whatever the bounds. *)
Theorem absent_predicate_exhausts :
  (forall this goal goals d f n,
      predicate_absent this goal = true ->
      exists it' n',
        Space.next d (S f) (Space.query this (goal :: goals)) n
        = Some (Space.mkResult true [], it', n')
        /\ Space.queue it' = [])
  /\ (forall d f it n r it' n',
        Space.next d f it n = Some (r, it', n') ->
        Space.done r = true ->
        r = Space.mkResult true []
        /\ forall d' f', Space.next d' f' it' n' = Some (Space.mkResult true [], it', n')).
Proof.
  split.
  - intros this goal goals d f n H. unfold predicate_absent in H.
    apply andb_true_iff in H. destruct H as [Hf Hr].
    unfold Space.next, Space.query. simpl.
    destruct (scan_facts_absent d goal (Space.mkItem (goal :: goals) []) _ Hf [] n)
      as [n1 E1].
    rewrite E1.
    destruct (scan_rules_absent d goal (Space.mkItem (goal :: goals) []) _ Hr [] n1)
      as [n2 E2].
    rewrite E2. destruct f; simpl; eexists; eexists; split; reflexivity.
  - intros d f it n r it' n' H Hdone. unfold Space.next in H.
    destruct (Space.loop _ _ d f _ n) as [[[r0 q] n0] |] eqn:E; [ | discriminate].
    injection H as <- <- <-.
    destruct (loop_done _ _ _ _ _ _ _ _ _ E Hdone) as [-> ->].
    split; [reflexivity | ].
    intros d' f'. unfold Space.next. simpl. destruct f'; reflexivity.
Qed.

Lemma absent_predicate_exhausts_witness :
  pulls 0 1 3 (Space.query Example.space [Example.goal_mult]) Example.heap
  = Some [exhausted; exhausted; exhausted].
Proof.
  destruct absent_predicate_exhausts as [A S].
  destruct (A Example.space Example.goal_mult [] 0 0 Example.heap eq_refl)
    as (it1 & n1 & E1 & _).
  destruct (S 0 1 _ _ _ _ _ E1 eq_refl) as [_ E2].
  cbn [pulls]. rewrite E1. rewrite (E2 0 1). rewrite (E2 0 1). reflexivity.
Defined.

(** ** Answers *)

Lemma map_set_fresh m k t :
  ~ In k (map fst m) -> Space.map_set m k t = m ++ [(k, t)].
Proof.
  induction m as [| [k' t'] m IH]; intros H; simpl in *; [reflexivity | ].
  destruct (variable_same k' k) eqn:E.
  - apply variable_same_eq in E. subst. tauto.
  - rewrite IH by tauto. reflexivity.
Qed.

Lemma bind_each_entries ss vs :
  forall m n,
    NoDup (map fst m ++ vs) ->
    exists m', fst (Space.bind_each vs ss m n) = m ++ m'
               /\ map fst m' = vs
               /\ Forall (fun e => syntax (snd e) = after ss (Var (fst e))) m'.
Proof.
  induction vs as [| v vs IH]; intros m n H; simpl.
  - exists []. rewrite app_nil_r. repeat split. constructor.
  - pose proof (syntax_applyAll ss (Var v) n) as Hs.
    destruct (Substitution.applyAll (Var v) ss n) as [t n1]. simpl in Hs.
    assert (Hv : ~ In v (map fst m)).
    { intros Hin. apply NoDup_remove_2 in H. apply H. apply in_or_app. left. exact Hin. }
    rewrite map_set_fresh by exact Hv.
    destruct (IH (m ++ [(v, t)]) n1) as (m' & E & Hk & Hf).
    { rewrite map_app. simpl. rewrite <- app_assoc. exact H. }
    exists ((v, t) :: m'). rewrite E, <- app_assoc. simpl. repeat split.
    + rewrite Hk. reflexivity.
    + constructor; [exact Hs | exact Hf].
Qed.

Lemma is_ground_listVariables t : is_ground (syntax t) = true <-> listVariables t = [].
Proof.
  rewrite listVariables_nil. unfold is_ground.
  destruct (svars (syntax t)); split; congruence.
Qed.

Lemma isValid_ground m :
  Space.isValid m = forallb (fun e => is_ground (syntax (snd e))) m.
Proof.
  unfold Space.isValid. induction m as [| [k t] m IH]; simpl; [reflexivity | ].
  rewrite IH. f_equal.
  unfold is_ground. destruct (svars (syntax t)) as [| v l] eqn:E.
  - apply listVariables_nil in E. rewrite E. reflexivity.
  - destruct (listVariables t) as [| w l'] eqn:E'; [ | reflexivity].
    apply listVariables_nil in E'. congruence.
Qed.

Lemma isValid_bind_each ss fv n :
  NoDup fv ->
  map fst (fst (Space.bind_each fv ss [] n)) = fv
  /\ Space.isValid (fst (Space.bind_each fv ss [] n)) = all_ground fv ss.
Proof.
  intros H. destruct (bind_each_entries ss fv [] n H) as (m & E & Hk & Hf).
  simpl in E. rewrite E. split; [exact Hk | ].
  rewrite isValid_ground. unfold all_ground. subst fv. clear E H.
  induction Hf as [| e m He _ IH]; simpl; [reflexivity | ].
  rewrite He, IH. reflexivity.
Qed.

Lemma NoDup_freeVariables this goals :
  NoDup (Space.freeVariables (Space.query this goals)).
Proof.
  simpl. generalize (NoDup_nil Variable_). generalize (@nil Variable_).
  induction goals as [| g goals IH]; intros s H; simpl; [exact H | ].
  apply IH, NoDup_collect, H.
Qed.

Lemma In_freeVariables this goals v :
  In v (Space.freeVariables (Space.query this goals))
  <-> exists goal t, In goal goals /\ In t (Goal.terms goal) /\ In v (listVariables t).
Proof.
  simpl.
  assert (H : forall s,
             In v (fold_left (fun vs goal => collect vs (Goal.terms goal)) goals s)
             <-> In v s \/ exists goal t, In goal goals /\ In t (Goal.terms goal)
                                          /\ In v (listVariables t)).
  { induction goals as [| g goals IH]; intros s; simpl.
    - split; [auto | intros [H | (g & t & [] & _)]; exact H].
    - rewrite IH, In_collect. split.
      + intros [[H | (t & Ht & H)] | (g' & t & Hg' & Ht & H)]; eauto 8.
      + intros [H | (g' & t & [-> | Hg'] & Ht & H)]; eauto 8. }
  rewrite H. simpl. tauto.
Qed.

Lemma Pulled_invariant this goals it :
  Pulled this goals it ->
  Space.space it = this
  /\ Space.freeVariables it = Space.freeVariables (Space.query this goals).
Proof.
  induction 1 as [| it d f n r it' n' _ [IHs IHf] H]; [split; reflexivity | ].
  unfold Space.next in H.
  destruct (Space.loop _ _ d f _ n) as [[[r0 q] n0] |]; [ | discriminate].
  injection H as <- <- <-. simpl. split; assumption.
Qed.

Lemma loop_answer this fv d f :
  NoDup fv ->
  forall q n r q' n',
    Space.loop this fv d f q n = Some (r, q', n') ->
    Space.done r = false ->
    map fst (Space.value r) = fv
    /\ Forall (fun e => listVariables (snd e) = []) (Space.value r).
Proof.
  intros Hfv. induction f as [| f IH]; intros [| item q] n r q' n' H Hdone; simpl in H;
    try discriminate; try (injection H as <- <- <-; discriminate).
  destruct (Space.goals item) as [| goal gs].
  - destruct (isValid_bind_each (Space.substitutions item) fv n Hfv) as [Hk Hv].
    destruct (Space.bind_each fv (Space.substitutions item) [] n) as [m n1].
    simpl in Hk, Hv.
    destruct (Space.isValid m) eqn:E; simpl in H; [ | eapply IH; eauto].
    injection H as <- <- <-. simpl. split; [exact Hk | ].
    rewrite isValid_ground in E. rewrite forallb_forall in E.
    apply Forall_forall. intros e He. apply is_ground_listVariables, E, He.
  - destruct (Space.scan _ (Space.facts this) q n) as [[q1 n1] |]; [ | discriminate].
    destruct (Space.scan _ (Space.rules this) q1 n1) as [[q2 n2] |]; [ | discriminate].
    eapply IH; eauto.
Qed.

Lemma all_ground_false fv ss v m :
  In v fv ->
  listVariables (fst (Substitution.applyAll (Var v) ss m)) <> [] ->
  all_ground fv ss = false.
Proof.
  intros Hv Hng. unfold all_ground.
  destruct (forallb _ fv) eqn:E; [ | reflexivity].
  rewrite forallb_forall in E. specialize (E v Hv).
  unfold after in E. rewrite <- (syntax_applyAll ss (Var v) m) in E.
  apply is_ground_listVariables in E. contradiction.
Qed.

(** C5.  The query variables are the variables of the terms of the
    goals given to [query].  Every answer a pull returns has exactly
    the query variables as its keys, in the order of their first
    occurrence, and binds each of them to a term without variables.  A
    dequeued item with an empty goal list whose bindings leave a
    variable in the term of some query variable is not returned: the
    loop goes on with the rest of the queue. *)
Theorem answers_bind_query_variables_to_ground_terms this goals :
  let fv := Space.freeVariables (Space.query this goals) in
  (forall v, In v fv
             <-> exists goal t, In goal goals /\ In t (Goal.terms goal)
                                /\ In v (listVariables t))
  /\ (forall it d f n r it' n',
        Pulled this goals it ->
        Space.next d f it n = Some (r, it', n') ->
        Space.done r = false ->
        map fst (Space.value r) = fv
        /\ Forall (fun entry => listVariables (snd entry) = []) (Space.value r))
  /\ (forall d f item q n v m,
        Space.goals item = [] ->
        In v fv ->
        listVariables (fst (Substitution.applyAll (Var v) (Space.substitutions item) m)) <> [] ->
        exists n1, Space.loop this fv d (S f) (item :: q) n = Space.loop this fv d f q n1).
Proof.
  intros fv. split; [ | split].
  - intros v. apply In_freeVariables.
  - intros it d f n r it' n' Hp H Hdone.
    destruct (Pulled_invariant _ _ _ Hp) as [Hs Hf].
    unfold Space.next in H. rewrite Hs, Hf in H. fold fv in H.
    destruct (Space.loop this fv d f (Space.queue it) n) as [[[r0 q] n0] |] eqn:E;
      [ | discriminate].
    injection H as <- <- <-.
    exact (loop_answer _ _ _ _ (NoDup_freeVariables this goals) _ _ _ _ _ E Hdone).
  - intros d f item q n v m Hg Hv Hng. simpl. rewrite Hg.
    destruct (isValid_bind_each (Space.substitutions item) fv n
                (NoDup_freeVariables this goals)) as [_ Hvalid].
    destruct (Space.bind_each _ (Space.substitutions item) [] n) as [mp n1].
    simpl in Hvalid. fold fv. rewrite Hvalid.
    rewrite (all_ground_false _ _ _ _ Hv Hng). simpl.
    exists n1. reflexivity.
Qed.

Lemma answers_bind_query_variables_to_ground_terms_witness :
  match Example.first_pull with
  | Some (r, _, _) =>
      Space.done r = false
      /\ map fst (Space.value r) = [Example.X; Example.Y]
      /\ Forall (fun entry => listVariables (snd entry) = []) (Space.value r)
  | None => False
  end
  /\ exists n1,
      Space.loop Example.space [Example.X; Example.Y] 0 1 [Example.open_candidate] Example.heap
      = Space.loop Example.space [Example.X; Example.Y] 0 0 [] n1.
Proof.
  destruct (answers_bind_query_variables_to_ground_terms Example.space [Example.goal2])
    as (_ & A & D).
  split.
  - destruct Example.first_pull as [[[r it'] n'] |] eqn:E; [ | vm_compute in E; discriminate].
    assert (Hdone : Space.done r = false) by (vm_compute in E; injection E as <- _ _; reflexivity).
    split; [exact Hdone | ].
    exact (A _ 4 2 Example.heap r it' n' (Pulled_query _ _) E Hdone).
  - apply (D 0 0 Example.open_candidate [] Example.heap Example.X Example.heap).
    + reflexivity.
    + left. reflexivity.
    + simpl. discriminate.
Defined.

(** ** Expansion order *)

Lemma try_fact_Resolved d goal gs ss f n o n' :
  Space.try_fact d goal (Space.mkItem (goal :: gs) ss) f n = Some (o, n') ->
  exists res,
    Resolved goal ss (fact_head (fst (Fact.clone f n))) (snd (Fact.clone f n)) res n'
    /\ o = option_map (fact_successor gs ss (fst (Fact.clone f n))) res.
Proof.
  unfold Space.try_fact. destruct (Fact.clone f n) as [fact n1]. cbn [fst snd].
  cbn [Space.goals Space.substitutions tl].
  destruct (predicate_same (Goal.predicate goal) (Fact.predicate fact)) eqn:Ep; cbn [negb].
  2: { intros H. injection H as <- <-. exists None. split; [ | reflexivity].
       apply Resolved_other_shape. unfold same_shape, fact_head. cbn [predicate].
       rewrite Ep. reflexivity. }
  destruct (Nat.eqb (List.length (Goal.terms goal)) (List.length (Fact.terms fact))) eqn:Ea;
    cbn [negb].
  2: { intros H. injection H as <- <-. exists None. split; [ | reflexivity].
       apply Resolved_other_shape. unfold same_shape, fact_head. cbn [predicate terms].
       rewrite Ep, Ea. reflexivity. }
  assert (Hs : same_shape goal (fact_head fact) = true)
    by (unfold same_shape, fact_head; cbn [predicate terms]; rewrite Ep, Ea; reflexivity).
  destruct (Space.constraints_for (Goal.terms goal) ss (Fact.terms fact) n1) as [cs n2] eqn:Ec.
  destruct (Constraint.unify d cs n2) as [[[new |] n3] |] eqn:Eu; intros H; try discriminate;
    injection H as <- <-; apply unify_Unify in Eu.
  - exists (Some new). split; [ | reflexivity]. exact (Resolved_unified _ _ _ _ _ _ _ _ Hs Ec Eu).
  - exists None. split; [ | reflexivity]. exact (Resolved_unified _ _ _ _ _ _ _ _ Hs Ec Eu).
Qed.

Lemma try_rule_Resolved d goal gs ss r n o n' :
  Space.try_rule d goal (Space.mkItem (goal :: gs) ss) r n = Some (o, n') ->
  exists res,
    Resolved goal ss (Rule.left (fst (Rule.clone r n))) (snd (Rule.clone r n)) res n'
    /\ o = option_map (rule_successor gs ss (fst (Rule.clone r n))) res.
Proof.
  unfold Space.try_rule. destruct (Rule.clone r n) as [rule n1]. cbn [fst snd].
  cbn [Space.goals Space.substitutions tl].
  destruct (predicate_same (Goal.predicate goal) (predicate (Rule.left rule))) eqn:Ep;
    cbn [negb].
  2: { intros H. injection H as <- <-. exists None. split; [ | reflexivity].
       apply Resolved_other_shape. unfold same_shape. rewrite Ep. reflexivity. }
  destruct (Nat.eqb (List.length (Goal.terms goal)) (List.length (terms (Rule.left rule))))
    eqn:Ea; cbn [negb].
  2: { intros H. injection H as <- <-. exists None. split; [ | reflexivity].
       apply Resolved_other_shape. unfold same_shape. rewrite Ep, Ea. reflexivity. }
  assert (Hs : same_shape goal (Rule.left rule) = true)
    by (unfold same_shape; rewrite Ep, Ea; reflexivity).
  destruct (Space.constraints_for (Goal.terms goal) ss (terms (Rule.left rule)) n1)
    as [cs n2] eqn:Ec.
  destruct (Constraint.unify d cs n2) as [[[new |] n3] |] eqn:Eu; intros H; try discriminate;
    injection H as <- <-; apply unify_Unify in Eu.
  - exists (Some new). split; [ | reflexivity]. exact (Resolved_unified _ _ _ _ _ _ _ _ Hs Ec Eu).
  - exists None. split; [ | reflexivity]. exact (Resolved_unified _ _ _ _ _ _ _ _ Hs Ec Eu).
Qed.

Lemma Resolved_try_fact goal gs ss f n fact n1 res n2 :
  Fact.clone f n = (fact, n1) ->
  Resolved goal ss (fact_head fact) n1 res n2 ->
  exists d0, forall d, d0 <= d ->
    Space.try_fact d goal (Space.mkItem (goal :: gs) ss) f n
    = Some (option_map (fact_successor gs ss fact) res, n2).
Proof.
  intros Ec H. unfold Space.try_fact. rewrite Ec. cbn [Space.goals Space.substitutions tl].
  destruct H as [Hs | cs n1' res n2 Hs Ecs Hu];
    unfold same_shape, fact_head in Hs; cbn [predicate terms] in Hs.
  - exists 0. intros d _. apply andb_false_iff in Hs. destruct Hs as [-> | Ha]; [reflexivity | ].
    rewrite Ha. destruct (predicate_same _ _); reflexivity.
  - apply andb_true_iff in Hs. destruct Hs as [-> ->]. cbn [negb].
    unfold fact_head in Ecs. cbn [terms] in Ecs. rewrite Ecs.
    destruct (Unify_unify _ _ _ _ Hu) as [d0 Hd]. exists d0. intros d Hle.
    rewrite (Hd d Hle). destruct res; reflexivity.
Qed.

Lemma Resolved_try_rule goal gs ss r n rule n1 res n2 :
  Rule.clone r n = (rule, n1) ->
  Resolved goal ss (Rule.left rule) n1 res n2 ->
  exists d0, forall d, d0 <= d ->
    Space.try_rule d goal (Space.mkItem (goal :: gs) ss) r n
    = Some (option_map (rule_successor gs ss rule) res, n2).
Proof.
  intros Ec H. unfold Space.try_rule. rewrite Ec. cbn [Space.goals Space.substitutions tl].
  destruct H as [Hs | cs n1' res n2 Hs Ecs Hu]; unfold same_shape in Hs.
  - exists 0. intros d _. apply andb_false_iff in Hs. destruct Hs as [-> | Ha]; [reflexivity | ].
    rewrite Ha. destruct (predicate_same _ _); reflexivity.
  - apply andb_true_iff in Hs. destruct Hs as [-> ->]. cbn [negb]. rewrite Ecs.
    destruct (Unify_unify _ _ _ _ Hu) as [d0 Hd]. exists d0. intros d Hle.
    rewrite (Hd d Hle). destruct res; reflexivity.
Qed.

Lemma Resolved_deterministic goal ss head n res n' :
  Resolved goal ss head n res n' ->
  forall res2 n2, Resolved goal ss head n res2 n2 -> res2 = res /\ n2 = n'.
Proof.
  intros [Hs | cs n1 res0 n0 Hs Ec Hu] res2 n2 [Hs2 | cs2 m1 res3 m0 Hs2 Ec2 Hu2];
    try congruence; [split; reflexivity | ].
  rewrite Ec in Ec2. injection Ec2 as <- <-.
  exact (Unify_deterministic _ _ _ _ Hu _ _ Hu2).
Qed.

(** The successors of a list of clauses are determined by the clauses
    and the counter: a clause that matches cannot be passed over. *)
Lemma Successors_deterministic {C} (clone : C -> nat -> C * nat) head successor goal ss
  cs n items n' :
  Successors clone head successor goal ss cs n items n' ->
  forall items2 n2,
    Successors clone head successor goal ss cs n items2 n2 -> items2 = items /\ n2 = n'.
Proof.
  induction 1 as [ n
                 | c cs n c' n1 n2 items n3 Ec Hr _ IH
                 | c cs n c' n1 new n2 items n3 Ec Hr _ IH ];
    intros items2 m2 H2; inversion H2 as [ | ? ? ? d' m1 m3 ? ? Ec2 Hr2 Hs2
                                           | ? ? ? d' m1 new2 m3 ? ? Ec2 Hr2 Hs2 ]; subst;
    try (split; reflexivity);
    rewrite Ec in Ec2; injection Ec2 as <- <-;
    destruct (Resolved_deterministic _ _ _ _ _ _ Hr _ _ Hr2) as [Hres <-];
    try discriminate.
  - exact (IH _ _ Hs2).
  - injection Hres as <-. destruct (IH _ _ Hs2) as [<- <-]. split; reflexivity.
Qed.

(** A loop that returned has added the successors of its clauses. *)
Lemma scan_Successors {C} (clone : C -> nat -> C * nat) head successor goal ss
  (attempt : C -> nat -> option (option Space.Item * nat)) :
  (forall c n o n',
      attempt c n = Some (o, n') ->
      exists res,
        Resolved goal ss (head (fst (clone c n))) (snd (clone c n)) res n'
        /\ o = option_map (successor (fst (clone c n))) res) ->
  forall cs q n q' n',
    Space.scan attempt cs q n = Some (q', n') ->
    exists items, q' = q ++ items /\ Successors clone head successor goal ss cs n items n'.
Proof.
  intros Hattempt. induction cs as [| c cs IH]; intros q n q' n' H; simpl in H.
  - injection H as <- <-. exists []. rewrite app_nil_r. split; constructor.
  - destruct (attempt c n) as [[o n1] |] eqn:E; [ | discriminate].
    destruct (Hattempt _ _ _ _ E) as (res & Hres & ->).
    destruct (clone c n) as [c' m] eqn:Ec. cbn [fst snd] in *.
    destruct res as [new |]; cbn [option_map] in H.
    + destruct (IH _ _ _ _ H) as (items & -> & Hs).
      exists (successor c' new :: items). rewrite <- app_assoc. split; [reflexivity | ].
      exact (Successors_push _ _ _ _ _ _ _ _ _ _ _ _ _ _ Ec Hres Hs).
    + destruct (IH _ _ _ _ H) as (items & -> & Hs).
      exists items. split; [reflexivity | ].
      exact (Successors_skip _ _ _ _ _ _ _ _ _ _ _ _ _ Ec Hres Hs).
Qed.

(** With a bound on the recursion of [unify] that is large enough, the
    loop returns and adds the successors of its clauses. *)
Lemma Successors_scan {C} (clone : C -> nat -> C * nat) head successor goal ss
  (attempt : nat -> C -> nat -> option (option Space.Item * nat)) :
  (forall c n c' n1 res n2,
      clone c n = (c', n1) ->
      Resolved goal ss (head c') n1 res n2 ->
      exists d0, forall d, d0 <= d ->
        attempt d c n = Some (option_map (successor c') res, n2)) ->
  forall cs n items n',
    Successors clone head successor goal ss cs n items n' ->
    exists d0, forall d, d0 <= d ->
      forall q, Space.scan (attempt d) cs q n = Some (q ++ items, n').
Proof.
  intros Hattempt cs n items n' H.
  induction H as [ n
                 | c cs n c' n1 n2 items n3 Ec Hr _ [d1 IH]
                 | c cs n c' n1 new n2 items n3 Ec Hr _ [d1 IH] ].
  - exists 0. intros d _ q. simpl. rewrite app_nil_r. reflexivity.
  - destruct (Hattempt _ _ _ _ _ _ Ec Hr) as [d0 Hd]. exists (d0 + d1). intros d Hle q.
    simpl. rewrite (Hd d) by lia. cbn [option_map]. apply IH. lia.
  - destruct (Hattempt _ _ _ _ _ _ Ec Hr) as [d0 Hd]. exists (d0 + d1). intros d Hle q.
    simpl. rewrite (Hd d) by lia. cbn [option_map]. rewrite (IH d) by lia.
    rewrite <- app_assoc. reflexivity.
Qed.

(** C6.  An item with a nonempty goal list is expanded on its first goal
    by [expand] before the loop goes on.  When the expansion returns,
    the queue after it is the queue before it, followed by one
    successor for every fact that matches the goal, in store order,
    followed by one successor for every rule that matches, in store
    order, and nothing else; a fact or a rule matches when its
    refreshed head has the predicate and the number of arguments of the
    goal and unifies with it under the bindings of the item.  The
    successor of a fact has the rest of the item's goals as its goals;
    the successor of a rule has the rest of the item's goals followed
    by the body atoms of the refreshed rule; both have the bindings of
    the item followed by the unifier.  Conversely the expansion returns
    that queue with every bound on the recursion of [unify] that is
    large enough, whenever every unification it runs comes to an end. *)
Theorem expansion_order this goal gs ss :
  let item := Space.mkItem (goal :: gs) ss in
  (forall fv d f q n,
      Space.loop this fv d (S f) (item :: q) n
      = match expand this d goal item q n with
        | None => None
        | Some (q2, n2) => Space.loop this fv d f q2 n2
        end)
  /\ (forall d q n q2 n2,
        expand this d goal item q n = Some (q2, n2) ->
        exists from_facts n1 from_rules,
          q2 = q ++ from_facts ++ from_rules
          /\ Successors Fact.clone fact_head (fact_successor gs ss) goal ss
               (Space.facts this) n from_facts n1
          /\ Successors Rule.clone Rule.left (rule_successor gs ss) goal ss
               (Space.rules this) n1 from_rules n2)
  /\ (forall q n from_facts n1 from_rules n2,
        Successors Fact.clone fact_head (fact_successor gs ss) goal ss
          (Space.facts this) n from_facts n1 ->
        Successors Rule.clone Rule.left (rule_successor gs ss) goal ss
          (Space.rules this) n1 from_rules n2 ->
        exists d0, forall d, d0 <= d ->
          expand this d goal item q n = Some (q ++ from_facts ++ from_rules, n2)).
Proof.
  intros item. split; [ | split].
  - intros fv d f q n. unfold expand. simpl.
    destruct (Space.scan _ (Space.facts this) q n) as [[q1 n1] |]; reflexivity.
  - intros d q n q2 n2 H. unfold expand in H.
    destruct (Space.scan _ (Space.facts this) q n) as [[q1 n1] |] eqn:E1; [ | discriminate].
    destruct (scan_Successors Fact.clone fact_head (fact_successor gs ss) goal ss _
                (fun c m o m' => try_fact_Resolved d goal gs ss c m o m') _ _ _ _ _ E1)
      as (from_facts & -> & Hf).
    destruct (scan_Successors Rule.clone Rule.left (rule_successor gs ss) goal ss _
                (fun c m o m' => try_rule_Resolved d goal gs ss c m o m') _ _ _ _ _ H)
      as (from_rules & -> & Hr).
    exists from_facts, n1, from_rules. rewrite <- app_assoc. auto.
  - intros q n from_facts n1 from_rules n2 Hf Hr.
    destruct (Successors_scan Fact.clone fact_head (fact_successor gs ss) goal ss
                (fun d => Space.try_fact d goal item)
                (fun c m c' m1 res m2 => Resolved_try_fact goal gs ss c m c' m1 res m2)
                _ _ _ _ Hf) as [d1 H1].
    destruct (Successors_scan Rule.clone Rule.left (rule_successor gs ss) goal ss
                (fun d => Space.try_rule d goal item)
                (fun c m c' m1 res m2 => Resolved_try_rule goal gs ss c m c' m1 res m2)
                _ _ _ _ Hr) as [d2 H2].
    exists (d1 + d2). intros d Hle. unfold expand.
    rewrite (H1 d) by lia. rewrite (H2 d) by lia. rewrite <- app_assoc. reflexivity.
Qed.

Lemma expansion_order_witness :
  match Example.first_expansion with
  | Some (q2, n2) =>
      map (fun it => map goal_toString (Space.goals it)) q2 = [[]; ["add(X, Y, Z)"%string]]
      /\ (exists from_facts n1 from_rules,
            q2 = [] ++ from_facts ++ from_rules
            /\ Successors Fact.clone fact_head (fact_successor [] []) Example.goal2 []
                 Example.facts Example.heap from_facts n1
            /\ Successors Rule.clone Rule.left (rule_successor [] []) Example.goal2 []
                 Example.rules n1 from_rules n2)
      /\ exists d0, forall d, d0 <= d ->
           expand Example.space d Example.goal2 (Space.mkItem [Example.goal2] []) []
             Example.heap
           = Some (q2, n2)
  | None => False
  end.
Proof.
  destruct (expansion_order Example.space Example.goal2 [] []) as (_ & E & R).
  destruct Example.first_expansion as [[q2 n2] |] eqn:H; [ | vm_compute in H; discriminate].
  split; [vm_compute in H; injection H as <- <-; reflexivity | ].
  destruct (E 4 [] Example.heap q2 n2 H) as (from_facts & n1 & from_rules & Hq & Hf & Hr).
  split; [exists from_facts, n1, from_rules; auto | ].
  rewrite Hq. exact (R [] Example.heap from_facts n1 from_rules n2 Hf Hr).
Defined.

(** * Further properties of the core *)

(** ** [listVariables] *)

(** X1.  [listVariables] returns every variable that occurs in the term,
    and each of them once. *)
Theorem listVariables_each_variable_once t :
  NoDup (listVariables t)
  /\ forall v, In v (listVariables t) <-> In v (svars (syntax t)).
Proof.
  split; [apply NoDup_listVariables | intros v; apply In_listVariables].
Qed.

(** ** One substitution *)

Lemma svars_sapply_eliminated x u t :
  ~ In x (svars u) -> ~ In x (svars (sapply x u t)).
Proof.
  intros Hu. induction t as [w | c | f args IH] using Syntax_induction; simpl.
  - destruct (variable_same w x) eqn:E; [exact Hu | ].
    apply variable_same_neq in E. simpl. intros [H | []]. congruence.
  - intros [].
  - rewrite in_flat_map. intros (a & Ha & H).
    apply in_map_iff in Ha. destruct Ha as (b & <- & Hb).
    rewrite Forall_forall in IH. exact (IH b Hb H).
Qed.

(** X2.  A substitution whose term does not contain its own variable
    removes that variable: it does not occur in the result of [apply]. *)
Theorem apply_removes_the_variable s t n :
  circular s = false ->
  ~ In (Substitution.variable s) (listVariables (fst (Substitution.apply s t n))).
Proof.
  intros H. rewrite In_listVariables, syntax_apply.
  apply svars_sapply_eliminated, circular_false, H.
Qed.

Lemma apply_removes_the_variable_witness :
  ~ In Example.X
      (listVariables
         (fst (Substitution.apply (Substitution.mk Example.X Example.two)
                 (Constraint.left Example.fXY_fab) Example.heap))).
Proof.
  apply (apply_removes_the_variable (Substitution.mk Example.X Example.two)
           (Constraint.left Example.fXY_fab) Example.heap).
  reflexivity.
Defined.

(** X3.  [apply] changes nothing in a term in which the variable of the
    substitution does not occur: the result has the syntax of the term. *)
Theorem apply_without_the_variable s t n :
  set_has (Substitution.variable s) (listVariables t) = false ->
  syntax (fst (Substitution.apply s t n)) = syntax t.
Proof.
  intros H. rewrite syntax_apply. apply sapply_fresh.
  intros Hin. apply In_listVariables, set_has_In in Hin. congruence.
Qed.

Lemma apply_without_the_variable_witness :
  syntax (fst (Substitution.apply (Substitution.mk Example.V Example.two)
                 (Constraint.left Example.fXY_fab) Example.heap))
  = syntax (Constraint.left Example.fXY_fab).
Proof.
  apply (apply_without_the_variable (Substitution.mk Example.V Example.two)
           (Constraint.left Example.fXY_fab) Example.heap).
  reflexivity.
Defined.

(** ** Lists of substitutions *)

(** X4.  Applying the concatenation of two substitution lists is
    applying the first list and then the second to its result, the
    allocations included: this is how the engine extends the bindings of
    an item with those of a new unification. *)
Theorem applyAll_app ss1 :
  forall ss2 t n,
    Substitution.applyAll t (ss1 ++ ss2) n
    = let '(t1, n1) := Substitution.applyAll t ss1 n in Substitution.applyAll t1 ss2 n1.
Proof.
  induction ss1 as [| s ss1 IH]; intros ss2 t n; simpl; [reflexivity | ].
  destruct (Substitution.apply s t n) as [t' n']. apply IH.
Qed.

(** ** More on [unify] *)

Lemma term_size_pos t : 1 <= term_size t.
Proof. destruct t; simpl; lia. Qed.

Lemma constraints_size_app cs1 cs2 :
  constraints_size (cs1 ++ cs2) = constraints_size cs1 + constraints_size cs2.
Proof.
  unfold constraints_size. rewrite map_app, list_sum_app. reflexivity.
Qed.

Lemma constraints_size_pairwise ls :
  forall rs, List.length ls = List.length rs ->
             constraints_size (Constraint.pairwise ls rs) = list_sum (map term_size ls).
Proof.
  unfold constraints_size, Constraint.pairwise.
  induction ls as [| l ls IH]; intros [| r rs] H; simpl in *; try discriminate; auto.
Qed.

Lemma same_syntax_pairwise ls :
  forall rs, map syntax ls = map syntax rs ->
             Forall same_syntax (Constraint.pairwise ls rs).
Proof.
  unfold Constraint.pairwise.
  induction ls as [| l ls IH]; intros [| r rs] H; simpl in *; try discriminate;
    [constructor | ].
  injection H as Hl Hrest. constructor; [exact Hl | apply IH, Hrest].
Qed.

Lemma Unify_same_syntax k :
  forall cs n, constraints_size cs <= k -> Forall same_syntax cs -> Unify cs n (Some []) n.
Proof.
  induction k as [| k IH]; intros [| [l r] rest] n Hk Hs;
    [apply Unify_empty | | apply Unify_empty | ];
    unfold constraints_size in Hk; simpl in Hk; fold (constraints_size rest) in Hk;
    pose proof (term_size_pos l) as Hpos; [lia | ].
  inversion Hs as [| c cs' Hc Hrest]; subst. unfold same_syntax in Hc. simpl in Hc.
  destruct (term_same l r) eqn:E.
  - apply Unify_same; [exact E | ]. apply IH; [lia | exact Hrest].
  - destruct l as [v | c | a f ls]; destruct r as [w | c' | b g rs];
      simpl in Hc; try discriminate.
    + injection Hc as ->. rewrite term_same_refl in E. discriminate.
    + injection Hc as ->. rewrite term_same_refl in E. discriminate.
    + injection Hc as Hf Hargs. subst g.
      assert (Hlen : List.length ls = List.length rs).
      { rewrite <- (length_map syntax ls), Hargs, length_map. reflexivity. }
      apply Unify_arguments; [exact E | apply functor_same_eq; reflexivity | exact Hlen | ].
      apply IH.
      * rewrite constraints_size_app, constraints_size_pairwise by exact Hlen.
        simpl in Hk. lia.
      * apply Forall_app. split; [apply same_syntax_pairwise, Hargs | exact Hrest].
Qed.

(** X5.  When the two sides of every constraint have the same syntax,
    [unify] returns, succeeds and binds nothing, whether or not the two
    sides are the same objects: the [===] test at the top of [unify]
    only shortens the work. *)
Theorem unify_same_syntax_binds_nothing cs n :
  Forall same_syntax cs ->
  exists d, forall d', d <= d' -> Constraint.unify d' cs n = Some (Some [], n).
Proof.
  intros H. apply Unify_unify. apply (Unify_same_syntax (constraints_size cs)); auto.
Qed.

Lemma unify_same_syntax_binds_nothing_witness :
  exists d, forall d', d <= d' ->
    Constraint.unify d' [Example.fa_fa] Example.heap = Some (Some [], Example.heap).
Proof.
  apply (unify_same_syntax_binds_nothing [Example.fa_fa] Example.heap).
  constructor; [reflexivity | constructor].
Defined.

Lemma apply_each_eliminated s cs n cs' n' :
  circular s = false ->
  Constraint.apply_each s cs n = (cs', n') ->
  ~ In (Substitution.variable s) (constraint_variables cs').
Proof.
  intros Hc H Hin. apply circular_false in Hc.
  apply In_constraint_variables in Hin. destruct Hin as (c' & Hc' & Hv).
  destruct (Forall2_In_r _ _ _ _ (apply_each_syntax _ _ _ _ _ H) Hc') as (c & _ & Hl & Hr).
  rewrite Hl, Hr in Hv.
  destruct Hv as [Hv | Hv]; exact (svars_sapply_eliminated _ _ _ Hc Hv).
Qed.

Lemma Unify_binds_once cs n res n' :
  Unify cs n res n' ->
  forall ss1 s ss2, res = Some (ss1 ++ s :: ss2) ->
    circular s = false ->
    forall s', In s' ss2 ->
      Substitution.variable s' <> Substitution.variable s
      /\ ~ In (Substitution.variable s) (listVariables (Substitution.term s')).
Proof.
  induction 1 as [ n
                 | l r rest n res n' E _ IH
                 | l r rest n s0 rest' n1 res n' E P A HU IH
                 | l r rest n E Hl Hr Hc
                 | a f ls b g rs rest n E Ef
                 | a f ls b g rs rest n E Ef El
                 | a f ls b g rs rest n res n' E Ef El _ IH ];
    intros ss1 s ss2 Hres Hcirc s' Hs'; try discriminate; try (eapply IH; eauto; fail).
  - destruct ss1; discriminate.
  - destruct res as [ss0 |]; [ | discriminate]. simpl in Hres. injection Hres as Hres.
    destruct ss1 as [| s1 ss1]; simpl in Hres.
    + injection Hres as -> ->.
      pose proof (apply_each_eliminated _ _ _ _ _ Hcirc A) as Hel.
      pose proof (Unify_variables _ _ _ _ HU ss2 eq_refl s' Hs') as Hv.
      split.
      * intros Heq. apply Hel. apply Hv. left. symmetry. exact Heq.
      * intros Hin. apply Hel. apply Hv. right. apply In_listVariables, Hin.
    + injection Hres as -> ->. eapply IH; eauto.
Qed.

(** X6.  A binding returned by [unify] that is not circular is final:
    the bindings after it in the returned list neither bind its
    variable again nor mention it in their terms. *)
Theorem unify_binds_each_variable_once depth cs n ss1 s ss2 n' :
  Constraint.unify depth cs n = Some (Some (ss1 ++ s :: ss2), n') ->
  circular s = false ->
  forall s', In s' ss2 ->
    Substitution.variable s' <> Substitution.variable s
    /\ ~ In (Substitution.variable s) (listVariables (Substitution.term s')).
Proof.
  intros H. apply unify_Unify in H. eapply Unify_binds_once; eauto.
Qed.

Lemma unify_binds_each_variable_once_witness :
  Example.Y <> Example.X /\ ~ In Example.X (listVariables (Const Example.b)).
Proof.
  apply (unify_binds_each_variable_once 3 [Example.fXY_fab] Example.heap
           [] (Substitution.mk Example.X (Const Example.a))
           [Substitution.mk Example.Y (Const Example.b)] Example.heap
           eq_refl eq_refl (Substitution.mk Example.Y (Const Example.b))).
  left. reflexivity.
Defined.

(** *** [unify] and the unification of syntax *)

Lemma syntax_eq_dec a : forall b : Syntax, a = b \/ a <> b.
Proof.
  induction a as [v | c | f args IH] using Syntax_induction; intros [w | d | g args'];
    try (right; discriminate).
  - destruct (variable_same v w) eqn:E.
    + apply variable_same_eq in E. left. congruence.
    + apply variable_same_neq in E. right. congruence.
  - destruct (constant_same c d) eqn:E.
    + apply constant_same_eq in E. left. congruence.
    + right. intros [= H]. apply constant_same_eq in H. congruence.
  - assert (Hargs : args = args' \/ args <> args').
    { clear f g. revert args'. induction IH as [| a l Ha _ IHl]; intros [| a' l'];
        try (right; discriminate); [left; reflexivity | ].
      destruct (Ha a') as [-> | Hne]; [ | right; congruence].
      destruct (IHl l') as [-> | Hne]; [left; reflexivity | right; congruence]. }
    destruct (functor_same f g) eqn:E.
    + apply functor_same_eq in E. subst g.
      destruct Hargs as [-> | Hne]; [left; reflexivity | right; congruence].
    + right. intros [= H _]. apply functor_same_eq in H. congruence.
Qed.

Lemma syntax_pairwise ls :
  forall rs, map constraint_syntax (Constraint.pairwise ls rs)
             = combine (map syntax ls) (map syntax rs).
Proof.
  unfold Constraint.pairwise.
  induction ls as [| l ls IH]; intros [| r rs]; simpl; try reflexivity.
  rewrite IH. reflexivity.
Qed.

Lemma apply_each_constraint_syntax s cs :
  forall n cs' n',
    Constraint.apply_each s cs n = (cs', n') ->
    map constraint_syntax cs' = map (sapply_both (binding s)) (map constraint_syntax cs).
Proof.
  intros n cs' n' H. pose proof (apply_each_syntax _ _ _ _ _ H) as F.
  clear H. induction F as [| c c' l l' [Hl Hr] _ IH]; simpl; [reflexivity | ].
  rewrite IH. unfold constraint_syntax at 1, sapply_both at 1. simpl.
  rewrite Hl, Hr. reflexivity.
Qed.

Lemma pick_spick l r :
  spick (syntax l) (syntax r) = option_map binding (pick l r).
Proof.
  destruct l as [v | c | a f ls]; destruct r as [w | c' | b g rs]; reflexivity.
Qed.

Lemma term_same_syntax l r : term_same l r = true -> syntax l = syntax r.
Proof. intros H. apply term_same_eq in H. subst. reflexivity. Qed.

Lemma pick_differ l r s :
  term_same l r = false -> pick l r = Some s -> syntax l <> syntax r.
Proof.
  intros E P H.
  destruct l as [v | c | a f ls]; destruct r as [w | c' | b g rs];
    simpl in P, H; try discriminate.
  injection H as ->. rewrite term_same_refl in E. discriminate.
Qed.

Lemma SUnify_identical_inv t rest res :
  SUnify ((t, t) :: rest) res -> SUnify rest res.
Proof.
  intros H. inversion H; subst; try congruence.
Qed.

Lemma SUnify_drop_identical pre :
  forall rest res,
    Forall (fun p => fst p = snd p) pre ->
    SUnify (pre ++ rest) res -> SUnify rest res.
Proof.
  induction pre as [| [l r] pre IH]; intros rest res Hp H; simpl in *; [exact H | ].
  inversion Hp as [| p ps Hlr Hpre]; subst. simpl in Hlr. subst r.
  apply IH; [exact Hpre | ]. eapply SUnify_identical_inv; eauto.
Qed.

Lemma combine_identical {A} (l : list A) : Forall (fun p => fst p = snd p) (combine l l).
Proof. induction l; simpl; constructor; auto. Qed.

Lemma Unify_SUnify cs n res n' :
  Unify cs n res n' -> SUnify (map constraint_syntax cs) (result_syntax res).
Proof.
  induction 1 as [ n
                 | l r rest n res n' E _ IH
                 | l r rest n s rest' n1 res n' E P A _ IH
                 | l r rest n E Hl Hr Hc
                 | a f ls b g rs rest n E Ef
                 | a f ls b g rs rest n E Ef El
                 | a f ls b g rs rest n res n' E Ef El _ IH ];
    simpl; try (unfold constraint_syntax at 1); simpl.
  - constructor.
  - rewrite (term_same_syntax _ _ E). apply SUnify_same, IH.
  - rewrite (apply_each_constraint_syntax _ _ _ _ _ A) in IH.
    replace (result_syntax (option_map (cons s) res))
      with (option_map (cons (binding s)) (result_syntax res))
      by (destruct res; reflexivity).
    apply SUnify_bind; [eapply pick_differ; eauto | rewrite pick_spick, P; reflexivity | exact IH].
  - destruct l as [v | c | a f ls]; destruct r as [w | c' | b g rs]; try discriminate;
      (apply SUnify_clash; [ | reflexivity | reflexivity]); simpl; try discriminate.
    intros [= H]. subst. rewrite term_same_refl in E. discriminate.
  - apply SUnify_clash; [ | reflexivity | simpl; rewrite Ef; reflexivity].
    intros [= H _]. apply functor_same_eq in H. congruence.
  - apply functor_same_eq in Ef. subst g.
    apply SUnify_clash; [ | reflexivity | ].
    + intros [= H]. apply El. rewrite <- (length_map syntax ls), H, length_map. reflexivity.
    + simpl. rewrite !length_map. apply Nat.eqb_neq in El. rewrite El.
      apply orb_true_r.
  - apply functor_same_eq in Ef. subst g.
    rewrite map_app, syntax_pairwise in IH.
    destruct (syntax_eq_dec (SApp f (map syntax ls)) (SApp f (map syntax rs))) as [Heq | Hne].
    + injection Heq as Heq. rewrite <- Heq in IH |- *.
      apply SUnify_same. eapply SUnify_drop_identical; [apply combine_identical | exact IH].
    + apply SUnify_arguments; [congruence | rewrite !length_map; exact El | exact IH].
Qed.

Lemma Unify_prepend_same_syntax k :
  forall pre rest n res n',
    constraints_size pre <= k ->
    Forall same_syntax pre ->
    Unify rest n res n' ->
    Unify (pre ++ rest) n res n'.
Proof.
  induction k as [| k IH]; intros [| [l r] pre] rest n res n' Hk Hs H;
    [exact H | | exact H | ];
    unfold constraints_size in Hk; simpl in Hk; fold (constraints_size pre) in Hk;
    pose proof (term_size_pos l) as Hpos; [lia | ].
  inversion Hs as [| c cs' Hc Hpre]; subst. unfold same_syntax in Hc. simpl in Hc.
  simpl. destruct (term_same l r) eqn:E.
  - apply Unify_same; [exact E | ]. apply IH; [lia | exact Hpre | exact H].
  - destruct l as [v | c | a f ls]; destruct r as [w | c' | b g rs];
      simpl in Hc; try discriminate.
    + injection Hc as ->. rewrite term_same_refl in E. discriminate.
    + injection Hc as ->. rewrite term_same_refl in E. discriminate.
    + injection Hc as Hf Hargs. subst g.
      assert (Hlen : List.length ls = List.length rs).
      { rewrite <- (length_map syntax ls), Hargs, length_map. reflexivity. }
      apply Unify_arguments; [exact E | apply functor_same_eq; reflexivity | exact Hlen | ].
      rewrite app_assoc. apply IH; [ | | exact H].
      * rewrite constraints_size_app, constraints_size_pairwise by exact Hlen.
        simpl in Hk. lia.
      * apply Forall_app. split; [apply same_syntax_pairwise, Hargs | exact Hpre].
Qed.

Lemma SUnify_Unify scs sres :
  SUnify scs sres ->
  forall cs n, map constraint_syntax cs = scs ->
    exists res n', Unify cs n res n' /\ result_syntax res = sres.
Proof.
  induction 1 as [ | t srest sres _ IH
                 | sl sr srest b sres Hne P _ IH
                 | sl sr srest Hne P C
                 | f sls srs srest sres Hne Hlen _ IH ];
    intros [| [l r] rest] n Hcs; simpl in Hcs; try discriminate.
  - exists (Some []), n. split; constructor.
  - unfold constraint_syntax at 1 in Hcs. simpl in Hcs. injection Hcs as Hl Hr Hrest.
    destruct (IH rest n Hrest) as (res & n' & HU & Hres). exists res, n'.
    split; [ | exact Hres].
    apply (Unify_prepend_same_syntax (constraints_size [Constraint.mk l r])
             [Constraint.mk l r]); [lia | | exact HU].
    constructor; [unfold same_syntax; simpl; congruence | constructor].
  - unfold constraint_syntax at 1 in Hcs. simpl in Hcs. injection Hcs as Hl Hr Hrest.
    subst sl sr.
    assert (E : term_same l r = false).
    { destruct (term_same l r) eqn:E; [ | reflexivity].
      apply term_same_syntax in E. contradiction. }
    rewrite pick_spick in P. destruct (pick l r) as [s |] eqn:Pk; [ | discriminate].
    simpl in P. injection P as <-.
    destruct (Constraint.apply_each s rest n) as [rest' n1] eqn:A.
    destruct (IH rest' n1) as (res & n' & HU & Hres).
    { rewrite (apply_each_constraint_syntax _ _ _ _ _ A), Hrest. reflexivity. }
    exists (option_map (cons s) res), n'. split.
    + eapply Unify_bind; eauto.
    + rewrite <- Hres. destruct res; reflexivity.
  - unfold constraint_syntax at 1 in Hcs. simpl in Hcs. injection Hcs as Hl Hr Hrest.
    subst sl sr.
    assert (E : term_same l r = false).
    { destruct (term_same l r) eqn:E; [ | reflexivity].
      apply term_same_syntax in E. contradiction. }
    exists None, n. split; [ | reflexivity].
    destruct l as [v | c | a f ls]; [discriminate | | ];
      destruct r as [w | c' | b g rs]; try discriminate;
      try (apply Unify_constant; auto; fail).
    simpl in C. rewrite !length_map in C.
    destruct (functor_same f g) eqn:Ef; [ | apply Unify_functor; auto].
    simpl in C. apply negb_true_iff, Nat.eqb_neq in C. apply Unify_arity; auto.
  - unfold constraint_syntax at 1 in Hcs. simpl in Hcs. injection Hcs as Hl Hr Hrest.
    destruct l as [v | c | a f' ls]; try discriminate.
    destruct r as [w | c' | b g rs]; try discriminate.
    simpl in Hl, Hr. injection Hl as -> <-. injection Hr as -> <-.
    assert (E : term_same (Application a f ls) (Application b f rs) = false).
    { destruct (term_same _ _) eqn:E; [ | reflexivity].
      apply term_same_syntax in E. simpl in E. congruence. }
    rewrite !length_map in Hlen.
    destruct (IH (Constraint.pairwise ls rs ++ rest) n) as (res & n' & HU & Hres).
    { rewrite map_app, syntax_pairwise, Hrest. reflexivity. }
    exists res, n'. split; [ | exact Hres].
    apply Unify_arguments; auto. apply functor_same_eq. reflexivity.
Qed.

(** X7.  The outcome of [unify] depends only on the syntax of the
    constraints.  When [unify] returns on a list of constraints, it
    returns on every list with the same syntax, from every allocation
    counter: it fails on both, or succeeds on both with bindings of the
    same variables to terms of the same syntax. *)
Theorem unify_depends_on_syntax_only depth cs n res n' cs' m :
  Constraint.unify depth cs n = Some (res, n') ->
  map constraint_syntax cs' = map constraint_syntax cs ->
  exists d res' m',
    (forall d', d <= d' -> Constraint.unify d' cs' m = Some (res', m'))
    /\ result_syntax res' = result_syntax res.
Proof.
  intros H Hs. apply unify_Unify, Unify_SUnify in H.
  destruct (SUnify_Unify _ _ H cs' m Hs) as (res' & m' & HU & Hres).
  destruct (Unify_unify _ _ _ _ HU) as [d Hd].
  exists d, res', m'. split; assumption.
Qed.

Lemma unify_depends_on_syntax_only_witness :
  exists d res' m',
    (forall d', d <= d' -> Constraint.unify d' [Sample.fXY_fab_again] 50 = Some (res', m'))
    /\ result_syntax res' = result_syntax (Some Example.fXY_fab_bindings).
Proof.
  apply (unify_depends_on_syntax_only 3 [Example.fXY_fab] Example.heap
           (Some Example.fXY_fab_bindings) Example.heap [Sample.fXY_fab_again] 50).
  - reflexivity.
  - reflexivity.
Defined.

Lemma SUnify_failure_extends scs sres :
  SUnify scs sres -> sres = None -> forall more, SUnify (scs ++ more) None.
Proof.
  induction 1 as [ | t srest sres _ IH
                 | sl sr srest b sres Hne P _ IH
                 | sl sr srest Hne P C
                 | f sls srs srest sres Hne Hlen _ IH ];
    intros Hres more; try discriminate; simpl.
  - apply SUnify_same, IH, Hres.
  - destruct sres; [discriminate | ].
    apply (SUnify_bind _ _ _ b None); auto. rewrite map_app. apply IH. reflexivity.
  - apply SUnify_clash; assumption.
  - apply SUnify_arguments; auto. rewrite app_assoc. apply IH, Hres.
Qed.

(** X8.  A failure of [unify] is final: when [unify] fails on a list of
    constraints, it returns and fails on every list that starts with
    it, whatever constraints follow. *)
Theorem unify_failure_extends depth cs n n' more :
  Constraint.unify depth cs n = Some (None, n') ->
  exists d n'', forall d', d <= d' -> Constraint.unify d' (cs ++ more) n = Some (None, n'').
Proof.
  intros H. apply unify_Unify, Unify_SUnify in H.
  pose proof (SUnify_failure_extends _ _ H eq_refl (map constraint_syntax more)) as H'.
  rewrite <- map_app in H'.
  destruct (SUnify_Unify _ _ H' (cs ++ more) n eq_refl) as (res & n'' & HU & Hres).
  destruct res; [discriminate | ].
  destruct (Unify_unify _ _ _ _ HU) as [d Hd]. exists d, n''. exact Hd.
Qed.

Lemma unify_failure_extends_witness :
  exists d n'', forall d', d <= d' ->
    Constraint.unify d' Sample.clash_then_fine Example.heap = Some (None, n'').
Proof.
  apply (unify_failure_extends 1 [Example.fX_gX] Example.heap Example.heap [Example.fa_fa]).
  reflexivity.
Defined.

(** ** More on the resolution engine *)

(** X9.  The query with no goal has exactly one answer, the empty
    mapping, on every store: the first pull returns it and the second
    reports exhaustion. *)
Theorem query_without_goals this d f n :
  pulls d (S f) 2 (Space.query this []) n = Some [answer []; exhausted].
Proof. reflexivity. Qed.

Lemma applyAll_each_length ss ts :
  forall n, List.length (fst (applyAll_each ts ss n)) = List.length ts.
Proof.
  induction ts as [| t ts IH]; intros n; simpl; [reflexivity | ].
  destruct (Substitution.applyAll t ss n) as [t' n1].
  specialize (IH n1). destruct (applyAll_each ts ss n1) as [ts' n2].
  simpl in *. rewrite IH. reflexivity.
Qed.

Lemma fact_clone_arity f n :
  List.length (Fact.terms (fst (Fact.clone f n))) = List.length (Fact.terms f).
Proof.
  unfold Fact.clone. destruct (refresh _ n) as [ss n1].
  pose proof (applyAll_each_length ss (Fact.terms f) n1) as H.
  destruct (applyAll_each _ ss n1) as [tms n2]. exact H.
Qed.

Lemma rule_clone_arity r n :
  List.length (terms (Rule.left (fst (Rule.clone r n)))) = List.length (terms (Rule.left r)).
Proof.
  unfold Rule.clone. destruct (refresh _ n) as [ss n1].
  pose proof (applyAll_each_length ss (terms (Rule.left r)) n1) as H.
  destruct (applyAll_each _ ss n1) as [tms n2].
  destruct (Rule.clone_right _ ss n2) as [atoms n3]. exact H.
Qed.

Lemma scan_facts_unmatched d goal item facts :
  forallb (fun f => negb (predicate_same (Goal.predicate goal) (Fact.predicate f)
                          && Nat.eqb (List.length (Goal.terms goal))
                               (List.length (Fact.terms f)))) facts = true ->
  forall q n, exists n', Space.scan (Space.try_fact d goal item) facts q n = Some (q, n').
Proof.
  induction facts as [| f facts IH]; intros H q n; simpl in *; [eexists; reflexivity | ].
  apply andb_true_iff in H. destruct H as [Hf Hfacts].
  unfold Space.try_fact at 1.
  pose proof (fact_clone_predicate f n) as Hp. pose proof (fact_clone_arity f n) as Ha.
  destruct (Fact.clone f n) as [fact n1]. simpl in Hp, Ha. rewrite Hp, Ha.
  destruct (predicate_same (Goal.predicate goal) (Fact.predicate f)); simpl in *;
    [ | apply IH, Hfacts].
  apply negb_true_iff in Hf. rewrite Hf. simpl. apply IH, Hfacts.
Qed.

Lemma scan_rules_unmatched d goal item rules :
  forallb (fun r => negb (predicate_same (Goal.predicate goal) (predicate (Rule.left r))
                          && Nat.eqb (List.length (Goal.terms goal))
                               (List.length (terms (Rule.left r))))) rules = true ->
  forall q n, exists n', Space.scan (Space.try_rule d goal item) rules q n = Some (q, n').
Proof.
  induction rules as [| r rules IH]; intros H q n; simpl in *; [eexists; reflexivity | ].
  apply andb_true_iff in H. destruct H as [Hr Hrules].
  unfold Space.try_rule at 1.
  pose proof (rule_clone_predicate r n) as Hp. pose proof (rule_clone_arity r n) as Ha.
  destruct (Rule.clone r n) as [rule n1]. simpl in Hp, Ha. rewrite Hp, Ha.
  destruct (predicate_same (Goal.predicate goal) (predicate (Rule.left r))); simpl in *;
    [ | apply IH, Hrules].
  apply negb_true_iff in Hr. rewrite Hr. simpl. apply IH, Hrules.
Qed.

(** X10.  When no clause of the store has both the predicate and the
    number of arguments of the first goal, the first pull reports
    exhaustion and no unification is attempted: the pull returns with
    every bound, also with depth 0. *)
Theorem unmatched_arity_exhausts this goal goals f n :
  no_clause_matches this goal = true ->
  exists it' n',
    Space.next 0 (S f) (Space.query this (goal :: goals)) n
    = Some (Space.mkResult true [], it', n')
    /\ Space.queue it' = [].
Proof.
  intros H. unfold no_clause_matches in H.
  apply andb_true_iff in H. destruct H as [Hf Hr].
  unfold Space.next, Space.query. simpl.
  destruct (scan_facts_unmatched 0 goal (Space.mkItem (goal :: goals) []) _ Hf [] n)
    as [n1 E1].
  rewrite E1.
  destruct (scan_rules_unmatched 0 goal (Space.mkItem (goal :: goals) []) _ Hr [] n1)
    as [n2 E2].
  rewrite E2. destruct f; simpl; eexists; eexists; split; reflexivity.
Qed.

Lemma unmatched_arity_exhausts_witness :
  exists it' n',
    Space.next 0 1 (Space.query Example.space [Sample.goal_add2]) Example.heap
    = Some (Space.mkResult true [], it', n')
    /\ Space.queue it' = [].
Proof.
  apply (unmatched_arity_exhausts Example.space Sample.goal_add2 [] 0 Example.heap).
  reflexivity.
Defined.

(** ** Rendering *)

Lemma term_toString_syntax t : term_toString t = syntax_toString (syntax t).
Proof.
  induction t as [v | c | r f ts IH] using Term_induction; simpl; try reflexivity.
  rewrite map_map.
  assert (E : map term_toString ts = map (fun x => syntax_toString (syntax x)) ts).
  { apply map_ext_in. rewrite Forall_forall in IH. exact IH. }
  rewrite E. reflexivity.
Qed.

(** X11.  The text of a term does not depend on how the term is
    allocated: two terms with the same syntax have the same [toString]. *)
Theorem toString_depends_on_syntax_only t u :
  syntax t = syntax u -> term_toString t = term_toString u.
Proof. intros H. rewrite !term_toString_syntax, H. reflexivity. Qed.

Lemma toString_depends_on_syntax_only_witness :
  term_toString (Constraint.left Sample.fXY_fab_again)
  = term_toString (Constraint.left Example.fXY_fab).
Proof.
  apply (toString_depends_on_syntax_only (Constraint.left Sample.fXY_fab_again)
           (Constraint.left Example.fXY_fab)).
  reflexivity.
Defined.

Lemma syntax_toString_srename rho t :
  (forall v, In v (svars t) -> variable_name (rho v) = variable_name v) ->
  syntax_toString (srename rho t) = syntax_toString t.
Proof.
  induction t as [v | c | f args IH] using Syntax_induction; intros H; simpl.
  - apply H. left. reflexivity.
  - reflexivity.
  - rewrite map_map.
    assert (E : map (fun x => syntax_toString (srename rho x)) args
                = map syntax_toString args).
    { apply map_ext_in. intros a Ha.
      rewrite Forall_forall in IH. apply IH; [exact Ha | ].
      intros v Hv. apply H. simpl. apply in_flat_map. eauto. }
    rewrite E. reflexivity.
Qed.

Lemma atom_toString_syntax p ts :
  atom_toString p ts
  = (predicate_name p ++ "(" ++ String.concat ", " (map syntax_toString (map syntax ts)) ++ ")")%string.
Proof.
  unfold atom_toString. rewrite map_map.
  rewrite (map_ext term_toString (fun x => syntax_toString (syntax x)) term_toString_syntax).
  reflexivity.
Qed.

Lemma renamed_atom_toString rho (a : AtomSyntax) :
  (forall v, In v (atom_svars a) -> variable_name (rho v) = variable_name v) ->
  map syntax_toString (snd (rename_atom rho a)) = map syntax_toString (snd a).
Proof.
  intros H. unfold rename_atom. simpl. rewrite map_map. apply map_ext_in.
  intros t Ht. apply syntax_toString_srename. intros v Hv. apply H.
  unfold atom_svars. apply in_flat_map. eauto.
Qed.

(** X12.  Refreshing a clause does not change its text: [clone] keeps
    the [toString] of a fact and of a rule. *)
Theorem clone_keeps_toString :
  (forall f n, allocated n (fact_variables f) = true ->
               fact_toString (fst (Fact.clone f n)) = fact_toString f)
  /\ (forall r n, allocated n (rule_variables r) = true ->
                  rule_toString (fst (Rule.clone r n)) = rule_toString r).
Proof.
  split.
  - intros f n Hall. destruct (Fact.clone f n) as [f' n'] eqn:E.
    destruct (fact_clone_renames _ _ _ _ Hall E) as (rho & Hsyn & Hrho & _).
    unfold fact_toString. simpl. rewrite !atom_toString_syntax.
    pose proof (f_equal fst Hsyn) as Hp. pose proof (f_equal snd Hsyn) as Ht.
    unfold fact_syntax in Hp, Ht. simpl in Hp, Ht. rewrite Hp, Ht.
    change (map (srename rho) (map syntax (Fact.terms f)))
      with (snd (rename_atom rho (fact_syntax f))).
    rewrite renamed_atom_toString; [reflexivity | ].
    intros v Hv. apply Hrho, In_fact_variables, Hv.
  - intros r n Hall. destruct (Rule.clone r n) as [r' n'] eqn:E.
    destruct (rule_clone_renames _ _ _ _ Hall E) as (rho & Hsyn & Hrho & _).
    unfold rule_syntax in Hsyn.
    pose proof (f_equal fst Hsyn) as Hl. pose proof (f_equal snd Hsyn) as Hr.
    cbn [fst snd] in Hl, Hr. unfold rule_toString. cbn [fst].
    assert (Hatom : forall a a' : Atom,
               atom_syntax a' = rename_atom rho (atom_syntax a) ->
               (forall v, In v (atom_svars (atom_syntax a)) -> In v (rule_variables r)) ->
               atom_toString (predicate a') (terms a') = atom_toString (predicate a) (terms a)).
    { intros a a' Ha Hin. rewrite !atom_toString_syntax.
      pose proof (f_equal fst Ha) as Hp. pose proof (f_equal snd Ha) as Ht.
      unfold atom_syntax in Hp, Ht. simpl in Hp, Ht. rewrite Hp, Ht.
      change (map (srename rho) (map syntax (terms a)))
        with (snd (rename_atom rho (atom_syntax a))).
      rewrite renamed_atom_toString; [reflexivity | ].
      intros v Hv. apply Hrho, Hin, Hv. }
    assert (Hall2 : forall l l' : list Atom,
               map atom_syntax l' = map (rename_atom rho) (map atom_syntax l) ->
               (forall a, In a l -> In a (Rule.right r)) ->
               map (fun a => atom_toString (predicate a) (terms a)) l'
               = map (fun a => atom_toString (predicate a) (terms a)) l).
    { induction l as [| a l IHl]; intros [| a' l'] Hm Hsub; simpl in Hm;
        try discriminate; [reflexivity | ].
      injection Hm as Hp Ht Hm. simpl. f_equal.
      - apply Hatom; [unfold atom_syntax, rename_atom; simpl; rewrite Hp, Ht; reflexivity | ].
        intros v Hv. apply In_rule_variables. right.
        exists a. split; [apply Hsub; left; reflexivity | exact Hv].
      - apply IHl; [exact Hm | ]. intros b Hb. apply Hsub. right. exact Hb. }
    rewrite (Hatom (Rule.left r) (Rule.left r') Hl).
    + rewrite (Hall2 (Rule.right r) (Rule.right r') Hr); [reflexivity | auto].
    + intros v Hv. apply In_rule_variables. left. exact Hv.
Qed.

Lemma clone_keeps_toString_witness :
  fact_toString (fst (Fact.clone Example.add_zero Example.heap)) = "add(z, Y, Y)"%string
  /\ rule_toString (fst (Rule.clone Example.add_succ Example.heap))
     = "add(s(X), Y, s(Z)) :- [add(X, Y, Z)]"%string.
Proof.
  destruct clone_keeps_toString as [F R]. split.
  - rewrite (F Example.add_zero Example.heap eq_refl). reflexivity.
  - rewrite (R Example.add_succ Example.heap eq_refl). reflexivity.
Defined.

(** * Properties of the parser *)

(** ** Strings *)

Lemma sapp_nil_r (s : string) : (s ++ "")%string = s.
Proof. induction s as [| c s IH]; simpl; [reflexivity | rewrite IH; reflexivity]. Qed.

Lemma sapp_assoc (a b c : string) : ((a ++ b) ++ c)%string = (a ++ (b ++ c))%string.
Proof. induction a as [| x a IH]; simpl; [reflexivity | rewrite IH; reflexivity]. Qed.

Lemma slength_app (a b : string) :
  String.length (a ++ b)%string = String.length a + String.length b.
Proof. induction a as [| x a IH]; simpl; [reflexivity | rewrite IH; reflexivity]. Qed.

Lemma slength_zero (s : string) : String.length s = 0 -> s = EmptyString.
Proof. destruct s; [reflexivity | discriminate]. Qed.

Lemma concat_snoc sep (l : list string) (b : string) :
  l <> [] ->
  String.concat sep (l ++ [b]) = (String.concat sep l ++ sep ++ b)%string.
Proof.
  induction l as [| a l IH]; intros H; [congruence | ].
  destruct l as [| a' l].
  - reflexivity.
  - change (String.concat sep ((a :: a' :: l) ++ [b]))
      with (a ++ sep ++ String.concat sep ((a' :: l) ++ [b]))%string.
    rewrite IH by discriminate.
    change (String.concat sep (a :: a' :: l))
      with (a ++ sep ++ String.concat sep (a' :: l))%string.
    rewrite !sapp_assoc. reflexivity.
Qed.

Lemma joined_snoc (splitted : list string) (buf : string) :
  String.concat "," (splitted ++ [buf]) = joined splitted buf.
Proof.
  destruct splitted as [| a l]; [reflexivity | ].
  unfold joined. apply concat_snoc. discriminate.
Qed.

(** ** [split] *)

Lemma split_from_rejoin s :
  forall buf depth splitted,
    String.concat "," (split_from s buf depth splitted) = (joined splitted buf ++ s)%string
    \/ (String.concat "," (split_from s buf depth splitted) ++ ",")%string
       = (joined splitted buf ++ s)%string.
Proof.
  induction s as [| c s IH]; intros buf depth splitted; simpl.
  - rewrite sapp_nil_r. destruct (Nat.ltb 0 (String.length buf)) eqn:E.
    + left. apply joined_snoc.
    + apply Nat.ltb_ge in E. assert (Hb : buf = EmptyString) by (apply slength_zero; lia).
      subst buf. destruct splitted as [| a l]; [left; reflexivity | right].
      unfold joined. reflexivity.
  - destruct (Z.eqb depth 0 && Ascii.eqb c ",") eqn:E.
    + apply andb_true_iff in E. destruct E as [_ Ec]. apply Ascii.eqb_eq in Ec. subst c.
      assert (Hj : (joined (splitted ++ [buf]) "" ++ s)%string
                   = (joined splitted buf ++ String "," s)%string).
      { unfold joined at 1.
        destruct (splitted ++ [buf]) as [| a l] eqn:El;
          [destruct splitted; discriminate | ].
        rewrite <- El, joined_snoc, !sapp_assoc. reflexivity. }
      rewrite <- Hj. apply IH.
    + assert (Hj : (joined splitted (buf ++ String c "") ++ s)%string
                   = (joined splitted buf ++ String c s)%string).
      { destruct splitted as [| a l]; unfold joined; rewrite !sapp_assoc; reflexivity. }
      rewrite <- Hj. apply IH.
Qed.

(** X13.  [split] loses nothing but a comma at the very end: joining
    its pieces with commas gives the string back, or the string
    without its last character when that is a comma outside
    parentheses. *)
Theorem split_rejoin s :
  String.concat "," (split s) = s
  \/ (String.concat "," (split s) ++ ",")%string = s.
Proof. exact (split_from_rejoin s EmptyString 0%Z []). Qed.

Lemma split_from_no_comma s :
  has_comma s = false ->
  forall buf depth,
    split_from s buf depth []
    = if Nat.ltb 0 (String.length (buf ++ s)%string) then [(buf ++ s)%string] else [].
Proof.
  induction s as [| c s IH]; intros H buf depth; simpl in *.
  - rewrite sapp_nil_r. reflexivity.
  - apply orb_false_iff in H. destruct H as [Hc Hs]. rewrite Hc, andb_false_r.
    rewrite IH by exact Hs. rewrite sapp_assoc. reflexivity.
Qed.

(** X14.  A string without a comma is not split: [split] returns it as
    its only piece, and returns no piece for the empty string. *)
Theorem split_without_comma s :
  has_comma s = false ->
  split s = match s with EmptyString => [] | _ => [s] end.
Proof.
  intros H. unfold split. rewrite split_from_no_comma by exact H.
  destruct s; reflexivity.
Qed.

Lemma split_without_comma_witness : split "add(s(X))" = ["add(s(X))"].
Proof. apply (split_without_comma "add(s(X))"). reflexivity. Defined.

(** ** [constructTree] *)

Lemma constructTree_within_S fuel str :
  constructTree_within (S fuel) str
  = let s := remove_spaces str in
    if matches_name s then Some (Returned (mkNode s []))
    else
      match match_application s with
      | None => Some (Thrown ParseError)
      | Some (name, body) =>
          match constructTrees_within fuel (split body) with
          | None => None
          | Some (Thrown e) => Some (Thrown e)
          | Some (Returned children) => Some (Returned (mkNode name children))
          end
      end.
Proof.
  simpl. destruct (matches_name (remove_spaces str)); [reflexivity | ].
  destruct (match_application (remove_spaces str)) as [[name body] |]; [ | reflexivity].
  match goal with
  | |- match ?loop (split body) with _ => _ end = _ =>
      assert (E : forall pieces, loop pieces = constructTrees_within fuel pieces)
  end.
  { induction pieces as [| p ps IH]; simpl; [reflexivity | ].
    destruct (constructTree_within fuel p) as [[child | e] |]; try reflexivity.
    rewrite IH. reflexivity. }
  rewrite E. reflexivity.
Qed.

Lemma constructTree_within_mono fuel :
  forall str o, constructTree_within fuel str = Some o ->
  forall fuel', fuel <= fuel' -> constructTree_within fuel' str = Some o.
Proof.
  induction fuel as [| fuel IH]; intros str o H fuel' Hf; [discriminate | ].
  destruct fuel' as [| fuel']; [lia | ].
  rewrite constructTree_within_S in H |- *. cbv zeta in *.
  destruct (matches_name (remove_spaces str)); [exact H | ].
  destruct (match_application (remove_spaces str)) as [[name body] |]; [ | exact H].
  assert (E : forall pieces r, constructTrees_within fuel pieces = Some r ->
                               constructTrees_within fuel' pieces = Some r).
  { induction pieces as [| p ps IHp]; intros r Hr; simpl in *; [exact Hr | ].
    destruct (constructTree_within fuel p) as [o1 |] eqn:E1; [ | discriminate].
    rewrite (IH _ _ E1 fuel') by lia.
    destruct o1 as [child | e]; [ | exact Hr].
    destruct (constructTrees_within fuel ps) as [o2 |] eqn:E2; [ | discriminate].
    rewrite (IHp _ eq_refl). exact Hr. }
  destruct (constructTrees_within fuel (split body)) as [r |] eqn:Er; [ | discriminate].
  rewrite (E _ _ Er). exact H.
Qed.

Lemma remove_spaces_length s : String.length (remove_spaces s) <= String.length s.
Proof.
  induction s as [| c s IH]; simpl; [lia | ].
  destruct (Ascii.eqb c " "); simpl; lia.
Qed.

Lemma split_from_piece_length s :
  forall buf depth splitted p,
    In p (split_from s buf depth splitted) ->
    In p splitted \/ String.length p <= String.length buf + String.length s.
Proof.
  induction s as [| c s IH]; intros buf depth splitted p H; simpl in H.
  - destruct (Nat.ltb 0 (String.length buf)); [ | left; exact H].
    apply in_app_iff in H. destruct H as [H | [<- | []]]; [left; exact H | right; simpl; lia].
  - destruct (Z.eqb depth 0 && Ascii.eqb c ",").
    + apply IH in H. destruct H as [H | H]; [ | right; simpl in *; lia].
      apply in_app_iff in H. destruct H as [H | [<- | []]]; [left; exact H | right; simpl; lia].
    + apply IH in H. destruct H as [H | H]; [left; exact H | right].
      rewrite slength_app in H. simpl in *. lia.
Qed.

Lemma take_drop_letters s : (take_letters s ++ drop_letters s)%string = s.
Proof.
  induction s as [| c s IH]; simpl; [reflexivity | ].
  destruct (is_letter c); simpl; [rewrite IH | ]; reflexivity.
Qed.

Lemma unsnoc_snoc r body last :
  unsnoc r = Some (body, last) -> r = (body ++ String last "")%string.
Proof.
  revert body last. induction r as [| c r IH]; intros body last H; simpl in H; [discriminate | ].
  destruct (unsnoc r) as [[init l] |] eqn:E.
  - injection H as <- <-. simpl. rewrite (IH _ _ eq_refl). reflexivity.
  - injection H as <- <-. destruct r; [reflexivity | ].
    simpl in E. destruct (unsnoc r) as [[? ?] |]; discriminate.
Qed.

(** What a match of the second pattern says about the string. *)
Lemma match_application_inv s name body :
  match_application s = Some (name, body) ->
  s = (name ++ "(" ++ body ++ ")")%string
  /\ name = take_letters s
  /\ 0 < String.length name
  /\ 0 < String.length body
  /\ no_line_terminator body = true.
Proof.
  unfold match_application. intros H. pose proof (take_drop_letters s) as Hs.
  destruct (take_letters s) as [| a nm] eqn:Et; [discriminate | ].
  destruct (drop_letters s) as [| c r] eqn:Ed; [discriminate | ].
  destruct (Ascii.eqb c "(") eqn:Ec; [ | discriminate]. apply Ascii.eqb_eq in Ec. subst c.
  destruct (unsnoc r) as [[b last] |] eqn:Eu; [ | discriminate].
  destruct (Ascii.eqb last ")" && Nat.ltb 0 (String.length b) && no_line_terminator b) eqn:E;
    [ | discriminate].
  injection H as <- <-.
  apply andb_true_iff in E. destruct E as [E Hnl].
  apply andb_true_iff in E. destruct E as [El Hb].
  apply Ascii.eqb_eq in El. subst last. apply Nat.ltb_lt in Hb.
  apply unsnoc_snoc in Eu. subst r.
  split; [symmetry; exact Hs | ]. split; [reflexivity | ].
  split; [simpl; lia | ]. split; assumption.
Qed.

Lemma constructTree_within_total fuel :
  forall str, String.length (remove_spaces str) < fuel ->
              exists o, constructTree_within fuel str = Some o.
Proof.
  induction fuel as [| fuel IH]; intros str H; [lia | ].
  rewrite constructTree_within_S. cbv zeta.
  destruct (matches_name (remove_spaces str)); [eexists; reflexivity | ].
  destruct (match_application (remove_spaces str)) as [[name body] |] eqn:Em;
    [ | eexists; reflexivity].
  destruct (match_application_inv _ _ _ Em) as (Hs & _ & Hn & _ & _).
  assert (Hb : String.length body < fuel).
  { rewrite Hs in H. rewrite !slength_app in H. simpl in H. lia. }
  assert (E : forall pieces,
             (forall p, In p pieces -> String.length p <= String.length body) ->
             exists r, constructTrees_within fuel pieces = Some r).
  { induction pieces as [| p ps IHp]; intros Hp; simpl; [eexists; reflexivity | ].
    destruct (IH p) as [o Ho].
    { pose proof (remove_spaces_length p). pose proof (Hp p (or_introl eq_refl)). lia. }
    rewrite Ho. destruct o as [child | e]; [ | eexists; reflexivity].
    destruct IHp as [r Hr]; [intros q Hq; apply Hp; right; exact Hq | ].
    rewrite Hr. destruct r; eexists; reflexivity. }
  destruct (E (split body)) as [r Hr].
  { intros p Hp. apply split_from_piece_length in Hp. destruct Hp as [[] | Hp].
    simpl in Hp. exact Hp. }
  rewrite Hr. destruct r; eexists; reflexivity.
Qed.

Lemma constructTree_within_enough str :
  forall fuel, String.length (remove_spaces str) < fuel ->
               constructTree_within fuel str = Some (constructTree str).
Proof.
  intros fuel Hf. unfold constructTree.
  destruct (constructTree_within_total (S (String.length str)) str) as [o Ho].
  { pose proof (remove_spaces_length str). lia. }
  rewrite Ho.
  destruct (constructTree_within_total fuel str Hf) as [o' Ho'].
  rewrite Ho'. f_equal.
  pose proof (constructTree_within_mono _ _ _ Ho (fuel + S (String.length str)) ltac:(lia)) as H1.
  pose proof (constructTree_within_mono _ _ _ Ho' (fuel + S (String.length str)) ltac:(lia)) as H2.
  congruence.
Qed.

(** X15.  [constructTree] returns on every string, with a tree or with
    the parse error: its recursion is on pieces shorter than the
    string, and the result is the same for every bound above the length
    of the string without its spaces. *)
Theorem constructTree_returns str :
  forall fuel, String.length (remove_spaces str) < fuel ->
               constructTree_within fuel str = Some (constructTree str).
Proof.
  exact (constructTree_within_enough str).
Qed.

Lemma constructTree_returns_witness :
  constructTree_within 20 "f( a , b )" = Some (constructTree "f( a , b )").
Proof. apply (constructTree_returns "f( a , b )" 20). simpl. lia. Defined.

Lemma Node_induction (P : Node -> Prop) :
  (forall value children, Forall P children -> P (mkNode value children)) ->
  forall node, P node.
Proof.
  intros H. fix IH 1. intros [value children]. apply H.
  induction children as [| c cs IHcs]; constructor; [apply IH | exact IHcs].
Qed.

Lemma all_letters_take_letters s : all_letters (take_letters s) = true.
Proof.
  induction s as [| c s IH]; simpl; [reflexivity | ].
  destruct (is_letter c) eqn:E; simpl; [rewrite E, IH | ]; reflexivity.
Qed.

Lemma constructTree_within_well_named fuel :
  forall str node,
    constructTree_within fuel str = Some (Returned node) -> well_named node = true.
Proof.
  induction fuel as [| fuel IH]; intros str node H; [discriminate | ].
  rewrite constructTree_within_S in H. cbv zeta in H.
  destruct (matches_name (remove_spaces str)) eqn:En.
  - injection H as <-. simpl. rewrite En. reflexivity.
  - destruct (match_application (remove_spaces str)) as [[name body] |] eqn:Em;
      [ | discriminate].
    destruct (match_application_inv _ _ _ Em) as (_ & Hname & Hn & _ & _).
    destruct (constructTrees_within fuel (split body)) as [[children | e] |] eqn:Ec;
      try discriminate.
    injection H as <-. simpl. apply andb_true_iff. split.
    + unfold matches_name. apply andb_true_iff. split; [apply Nat.ltb_lt, Hn | ].
      rewrite Hname. apply all_letters_take_letters.
    + clear Em. revert children Ec.
      induction (split body) as [| p ps IHp]; intros children Ec; simpl in Ec.
      * injection Ec as <-. reflexivity.
      * destruct (constructTree_within fuel p) as [[child | e] |] eqn:E1; try discriminate.
        destruct (constructTrees_within fuel ps) as [[cs | e] |] eqn:E2; try discriminate.
        injection Ec as <-. simpl. rewrite (IH _ _ E1), (IHp cs eq_refl). reflexivity.
Qed.

(** X16.  Every node of a tree that [constructTree] returns has a name
    that is a non-empty string of letters; [startsWithUpperCase], which
    reads the first character of the name, is never given an empty
    string by the parser. *)
Theorem constructTree_names_are_letters str node :
  constructTree str = Returned node -> well_named node = true.
Proof.
  intros H. pose proof (constructTree_within_enough str (S (String.length str))) as E.
  rewrite H in E. eapply constructTree_within_well_named. apply E.
  pose proof (remove_spaces_length str). lia.
Qed.

Lemma constructTree_names_are_letters_witness :
  well_named CliSample.add_tree = true.
Proof.
  apply (constructTree_names_are_letters "add(s(X), Y, s(Z))" CliSample.add_tree).
  reflexivity.
Defined.

Lemma remove_spaces_idempotent s : remove_spaces (remove_spaces s) = remove_spaces s.
Proof.
  induction s as [| c s IH]; simpl; [reflexivity | ].
  destruct (Ascii.eqb c " ") eqn:E; [exact IH | ]. simpl. rewrite E, IH. reflexivity.
Qed.

Lemma constructTree_within_remove_spaces fuel str :
  constructTree_within fuel (remove_spaces str) = constructTree_within fuel str.
Proof.
  destruct fuel as [| fuel]; [reflexivity | ].
  rewrite !constructTree_within_S, remove_spaces_idempotent. reflexivity.
Qed.

(** X17.  [constructTree] ignores spaces wherever they are: a string
    and the string without its spaces give the same result. *)
Theorem constructTree_ignores_spaces str :
  constructTree (remove_spaces str) = constructTree str.
Proof.
  pose proof (remove_spaces_length str) as Hl.
  pose proof (constructTree_within_enough str (S (String.length str)) ltac:(lia)) as H1.
  pose proof (constructTree_within_enough (remove_spaces str) (S (String.length str))) as H2.
  rewrite remove_spaces_idempotent, constructTree_within_remove_spaces in H2.
  specialize (H2 ltac:(lia)). congruence.
Qed.

(** *** Reading back the text of a tree *)

Lemma letter_is_plain c :
  is_letter c = true ->
  Ascii.eqb c "," = false /\ Ascii.eqb c "(" = false /\ Ascii.eqb c ")" = false
  /\ Ascii.eqb c " " = false /\ is_line_terminator c = false.
Proof.
  intros H.
  assert (Hne : forall d, is_letter d = false -> Ascii.eqb c d = false).
  { intros d Hd. destruct (Ascii.eqb c d) eqn:E; [ | reflexivity].
    apply Ascii.eqb_eq in E. congruence. }
  repeat split; try (apply Hne; reflexivity).
  unfold is_letter in H. unfold is_line_terminator.
  destruct (Nat.eqb (nat_of_ascii c) 10) eqn:E1;
    [apply Nat.eqb_eq in E1; rewrite E1 in H; discriminate | ].
  destruct (Nat.eqb (nat_of_ascii c) 13) eqn:E2;
    [apply Nat.eqb_eq in E2; rewrite E2 in H; discriminate | reflexivity].
Qed.

Lemma split_from_letters v :
  all_letters v = true ->
  forall rest buf depth splitted,
    split_from (v ++ rest)%string buf depth splitted
    = split_from rest (buf ++ v)%string depth splitted.
Proof.
  induction v as [| c v IH]; intros H rest buf depth splitted; simpl in *.
  - rewrite sapp_nil_r. reflexivity.
  - apply andb_true_iff in H. destruct H as [Hc Hv].
    destruct (letter_is_plain c Hc) as (E1 & E2 & E3 & _).
    rewrite E1, E2, E3, andb_false_r, IH by exact Hv.
    rewrite sapp_assoc. reflexivity.
Qed.

Lemma compact_cons value c cs :
  compact (mkNode value (c :: cs))
  = (value ++ "(" ++ String.concat "," (map compact (c :: cs)) ++ ")")%string.
Proof. reflexivity. Qed.

Lemma concat_cons2 sep (a b : string) (l : list string) :
  String.concat sep (a :: b :: l) = (a ++ sep ++ String.concat sep (b :: l))%string.
Proof. reflexivity. Qed.

Lemma well_named_inv value children :
  well_named (mkNode value children) = true ->
  matches_name value = true /\ Forall (fun c => well_named c = true) children.
Proof.
  simpl. intros H. apply andb_true_iff in H. destruct H as [Hv Hc].
  split; [exact Hv | ]. apply Forall_forall. rewrite forallb_forall in Hc. exact Hc.
Qed.

Lemma matches_name_inv v :
  matches_name v = true -> 0 < String.length v /\ all_letters v = true.
Proof.
  unfold matches_name. intros H. apply andb_true_iff in H. destruct H as [Hl Ha].
  split; [apply Nat.ltb_lt, Hl | exact Ha].
Qed.

(** Inside parentheses or not, [split] reads the text of a tree into
    its buffer without cutting it. *)
Lemma split_from_compact node :
  well_named node = true ->
  forall rest buf depth splitted,
    (0 <= depth)%Z ->
    split_from (compact node ++ rest)%string buf depth splitted
    = split_from rest (buf ++ compact node)%string depth splitted.
Proof.
  induction node as [value children IH] using Node_induction.
  intros Hw rest buf depth splitted Hd.
  destruct (well_named_inv _ _ Hw) as [Hv Hcs].
  destruct (matches_name_inv _ Hv) as [_ Hletters].
  destruct children as [| c cs]; [apply split_from_letters, Hletters | ].
  rewrite compact_cons, !sapp_assoc, split_from_letters by exact Hletters.
  cbn [append split_from].
  replace (Z.eqb depth 0 && Ascii.eqb "(" ",") with false by (rewrite andb_false_r; reflexivity).
  cbn [Ascii.eqb Bool.eqb].
  assert (Hin : forall l,
             Forall (fun n => well_named n = true) l ->
             Forall (fun n => well_named n = true ->
                              forall rest buf depth splitted,
                                (0 <= depth)%Z ->
                                split_from (compact n ++ rest)%string buf depth splitted
                                = split_from rest (buf ++ compact n)%string depth splitted) l ->
             forall rest buf d, (0 < d)%Z ->
               split_from (String.concat "," (map compact l) ++ rest)%string buf d splitted
               = split_from rest (buf ++ String.concat "," (map compact l))%string d splitted).
  { induction l as [| x l IHl]; intros Hwl Hl rest0 buf0 d Hpos.
    - simpl. rewrite sapp_nil_r. reflexivity.
    - inversion Hwl as [| ? ? Hx Hwl']; subst. inversion Hl as [| ? ? Hxs Hl']; subst.
      destruct l as [| y l].
      + simpl. apply Hxs; [exact Hx | lia].
      + change (map compact (x :: y :: l)) with (compact x :: map compact (y :: l)).
        change (String.concat "," (compact x :: map compact (y :: l)))
          with (compact x ++ "," ++ String.concat "," (map compact (y :: l)))%string.
        rewrite !sapp_assoc, Hxs by (auto; lia).
        cbn [append split_from].
        replace (Z.eqb d 0) with false by (symmetry; apply Z.eqb_neq; lia).
        cbn [andb Ascii.eqb Bool.eqb].
        rewrite (IHl Hwl' Hl') by exact Hpos. rewrite !sapp_assoc. reflexivity. }
  rewrite (Hin (c :: cs) Hcs IH) by lia.
  cbn [append split_from].
  replace (Z.eqb (depth + 1) 0 && Ascii.eqb ")" ",") with false
    by (rewrite andb_false_r; reflexivity).
  cbn [Ascii.eqb Bool.eqb].
  replace (depth + 1 - 1)%Z with depth by lia.
  rewrite !sapp_assoc. reflexivity.
Qed.

Lemma compact_nonempty node : well_named node = true -> 0 < String.length (compact node).
Proof.
  destruct node as [value children]. intros Hw.
  destruct (well_named_inv _ _ Hw) as [Hv _]. destruct (matches_name_inv _ Hv) as [Hl _].
  destruct children; [exact Hl | ]. rewrite compact_cons, slength_app. lia.
Qed.

Lemma split_compact_list l :
  Forall (fun n => well_named n = true) l ->
  forall splitted,
    split_from (String.concat "," (map compact l)) EmptyString 0%Z splitted
    = splitted ++ map compact l.
Proof.
  induction l as [| x l IH]; intros Hw splitted.
  - simpl. rewrite app_nil_r. reflexivity.
  - inversion Hw as [| ? ? Hx Hl]; subst. destruct l as [| y l].
    + simpl. rewrite <- (sapp_nil_r (compact x)) at 1.
      rewrite split_from_compact by (auto; lia). simpl.
      pose proof (compact_nonempty x Hx) as Hn. apply Nat.ltb_lt in Hn. rewrite Hn.
      reflexivity.
    + change (map compact (x :: y :: l)) with (compact x :: map compact (y :: l)).
      change (String.concat "," (compact x :: map compact (y :: l)))
        with (compact x ++ "," ++ String.concat "," (map compact (y :: l)))%string.
      rewrite split_from_compact by (auto; lia).
      cbn [append split_from Z.eqb andb Ascii.eqb Bool.eqb].
      rewrite (IH Hl). rewrite <- app_assoc. reflexivity.
Qed.

Lemma remove_spaces_app a b :
  remove_spaces (a ++ b)%string = (remove_spaces a ++ remove_spaces b)%string.
Proof.
  induction a as [| c a IH]; simpl; [reflexivity | ].
  destruct (Ascii.eqb c " "); simpl; rewrite IH; reflexivity.
Qed.

Lemma remove_spaces_letters v : all_letters v = true -> remove_spaces v = v.
Proof.
  induction v as [| c v IH]; intros H; simpl in *; [reflexivity | ].
  apply andb_true_iff in H. destruct H as [Hc Hv].
  destruct (letter_is_plain c Hc) as (_ & _ & _ & E & _). rewrite E, IH by exact Hv.
  reflexivity.
Qed.

Lemma remove_spaces_node_toString node :
  well_named node = true -> remove_spaces (node_toString node) = compact node.
Proof.
  induction node as [value children IH] using Node_induction. intros Hw.
  destruct (well_named_inv _ _ Hw) as [Hv Hcs].
  destruct (matches_name_inv _ Hv) as [_ Hletters].
  destruct children as [| c cs]; [apply remove_spaces_letters, Hletters | ].
  change (node_toString (mkNode value (c :: cs)))
    with (value ++ "(" ++ String.concat ", " (map node_toString (c :: cs)) ++ ")")%string.
  rewrite compact_cons, !remove_spaces_app, remove_spaces_letters by exact Hletters.
  assert (E : forall l,
             Forall (fun n => well_named n = true) l ->
             Forall (fun n => well_named n = true ->
                              remove_spaces (node_toString n) = compact n) l ->
             remove_spaces (String.concat ", " (map node_toString l))
             = String.concat "," (map compact l)).
  { induction l as [| x l IHl]; intros Hwl Hl; [reflexivity | ].
    inversion Hwl as [| ? ? Hx Hwl']; subst. inversion Hl as [| ? ? Hxs Hl']; subst.
    destruct l as [| y l]; [simpl; auto | ].
    change (map node_toString (x :: y :: l))
      with (node_toString x :: map node_toString (y :: l)).
    change (String.concat ", " (node_toString x :: map node_toString (y :: l)))
      with (node_toString x ++ ", " ++ String.concat ", " (map node_toString (y :: l)))%string.
    rewrite !remove_spaces_app, Hxs, (IHl Hwl' Hl') by exact Hx. reflexivity. }
  rewrite (E (c :: cs) Hcs IH). reflexivity.
Qed.

Lemma no_line_terminator_app a b :
  no_line_terminator (a ++ b)%string = no_line_terminator a && no_line_terminator b.
Proof.
  induction a as [| c a IH]; simpl; [reflexivity | ].
  rewrite IH, andb_assoc. reflexivity.
Qed.

Lemma no_line_terminator_letters v : all_letters v = true -> no_line_terminator v = true.
Proof.
  induction v as [| c v IH]; intros H; simpl in *; [reflexivity | ].
  apply andb_true_iff in H. destruct H as [Hc Hv].
  destruct (letter_is_plain c Hc) as (_ & _ & _ & _ & E). rewrite E, IH by exact Hv.
  reflexivity.
Qed.

Lemma no_line_terminator_compact node :
  well_named node = true -> no_line_terminator (compact node) = true.
Proof.
  induction node as [value children IH] using Node_induction. intros Hw.
  destruct (well_named_inv _ _ Hw) as [Hv Hcs].
  destruct (matches_name_inv _ Hv) as [_ Hletters].
  destruct children as [| c cs]; [apply no_line_terminator_letters, Hletters | ].
  rewrite compact_cons, !no_line_terminator_app, no_line_terminator_letters by exact Hletters.
  assert (E : forall l,
             Forall (fun n => well_named n = true) l ->
             Forall (fun n => well_named n = true -> no_line_terminator (compact n) = true) l ->
             no_line_terminator (String.concat "," (map compact l)) = true).
  { induction l as [| x l IHl]; intros Hwl Hl; [reflexivity | ].
    inversion Hwl as [| ? ? Hx Hwl']; subst. inversion Hl as [| ? ? Hxs Hl']; subst.
    destruct l as [| y l]; [simpl; auto | ].
    change (map compact (x :: y :: l)) with (compact x :: map compact (y :: l)).
    change (String.concat "," (compact x :: map compact (y :: l)))
      with (compact x ++ "," ++ String.concat "," (map compact (y :: l)))%string.
    rewrite !no_line_terminator_app, Hxs, (IHl Hwl' Hl') by exact Hx. reflexivity. }
  rewrite (E (c :: cs) Hcs IH). reflexivity.
Qed.

Lemma all_letters_app_paren v rest :
  all_letters (v ++ String "(" rest)%string = false.
Proof.
  induction v as [| c v IH]; simpl; [reflexivity | ].
  rewrite IH. apply andb_false_r.
Qed.

Lemma take_letters_app_paren v rest :
  all_letters v = true -> take_letters (v ++ String "(" rest)%string = v.
Proof.
  induction v as [| c v IH]; intros H; simpl in *; [reflexivity | ].
  apply andb_true_iff in H. destruct H as [Hc Hv]. rewrite Hc, IH by exact Hv. reflexivity.
Qed.

Lemma drop_letters_app_paren v rest :
  all_letters v = true -> drop_letters (v ++ String "(" rest)%string = String "(" rest.
Proof.
  induction v as [| c v IH]; intros H; simpl in *; [reflexivity | ].
  apply andb_true_iff in H. destruct H as [Hc Hv]. rewrite Hc, IH by exact Hv. reflexivity.
Qed.

Lemma unsnoc_app_last body last :
  unsnoc (body ++ String last "")%string = Some (body, last).
Proof.
  induction body as [| c body IH]; simpl; [reflexivity | ]. rewrite IH. reflexivity.
Qed.

Lemma match_application_text v body :
  matches_name v = true ->
  0 < String.length body ->
  no_line_terminator body = true ->
  match_application (v ++ "(" ++ body ++ ")")%string = Some (v, body).
Proof.
  intros Hv Hb Hnl. destruct (matches_name_inv _ Hv) as [Hl Hletters].
  unfold match_application. cbn [append].
  rewrite take_letters_app_paren, drop_letters_app_paren by exact Hletters.
  destruct v as [| a v]; [simpl in Hl; lia | ].
  cbn [Ascii.eqb Bool.eqb]. rewrite unsnoc_app_last.
  apply Nat.ltb_lt in Hb. rewrite Hb, Hnl. reflexivity.
Qed.

Lemma remove_spaces_compact node :
  well_named node = true -> remove_spaces (compact node) = compact node.
Proof.
  intros Hw. rewrite <- (remove_spaces_node_toString node Hw) at 1.
  rewrite remove_spaces_idempotent. apply remove_spaces_node_toString, Hw.
Qed.

Lemma constructTree_within_compact node :
  well_named node = true ->
  forall fuel, node_height node <= fuel ->
               constructTree_within fuel (compact node) = Some (Returned node).
Proof.
  induction node as [value children IH] using Node_induction. intros Hw fuel Hf.
  destruct fuel as [| fuel]; [simpl in Hf; lia | ].
  rewrite constructTree_within_S, remove_spaces_compact by exact Hw. cbv zeta.
  destruct (well_named_inv _ _ Hw) as [Hv Hcs].
  destruct children as [| c cs].
  - simpl. rewrite Hv. reflexivity.
  - pose proof (no_line_terminator_compact _ Hw) as Hnl.
    rewrite compact_cons in Hnl |- *.
    rewrite !no_line_terminator_app in Hnl.
    apply andb_true_iff in Hnl. destruct Hnl as [_ Hnl].
    apply andb_true_iff in Hnl. destruct Hnl as [_ Hnl].
    apply andb_true_iff in Hnl. destruct Hnl as [Hnl _].
    assert (Hm : matches_name (value ++ "(" ++ String.concat "," (map compact (c :: cs)) ++ ")")
                 = false).
    { unfold matches_name. cbn [append]. rewrite all_letters_app_paren. apply andb_false_r. }
    rewrite Hm.
    assert (Hbody : 0 < String.length (String.concat "," (map compact (c :: cs)))).
    { inversion Hcs as [| ? ? Hc _]; subst. pose proof (compact_nonempty c Hc).
      destruct cs; simpl; [assumption | rewrite slength_app; lia]. }
    rewrite (match_application_text _ _ Hv Hbody Hnl).
    unfold split. rewrite (split_compact_list (c :: cs) Hcs []). cbn [app].
    simpl in Hf. apply le_S_n in Hf.
    assert (E : forall l,
               Forall (fun n => well_named n = true) l ->
               Forall (fun n => well_named n = true ->
                                forall fuel, node_height n <= fuel ->
                                  constructTree_within fuel (compact n) = Some (Returned n)) l ->
               list_max (map node_height l) <= fuel ->
               constructTrees_within fuel (map compact l) = Some (Returned l)).
    { induction l as [| x l IHl]; intros Hwl Hl Hmax; [reflexivity | ].
      inversion Hwl as [| ? ? Hx Hwl']; subst. inversion Hl as [| ? ? Hxs Hl']; subst.
      simpl in Hmax. cbn [map constructTrees_within].
      rewrite (Hxs Hx fuel) by lia. rewrite (IHl Hwl' Hl') by lia. reflexivity. }
    rewrite (E (c :: cs) Hcs IH Hf). reflexivity.
Qed.

Lemma constructTree_node_toString node :
  well_named node = true ->
  constructTree (node_toString node) = Returned node.
Proof.
  intros Hw.
  pose (fuel := node_height node + S (String.length (node_toString node))).
  pose proof (remove_spaces_length (node_toString node)) as Hl.
  pose proof (constructTree_within_enough (node_toString node) fuel ltac:(unfold fuel; lia)) as H.
  rewrite <- constructTree_within_remove_spaces, remove_spaces_node_toString in H by exact Hw.
  rewrite constructTree_within_compact in H by (auto; unfold fuel; lia).
  congruence.
Qed.

(** X18.  Reading the text of a tree gives the tree back:
    [constructTree] of [toString] of a tree is that tree, for every
    tree whose names are non-empty strings of letters. *)
Theorem constructTree_of_toString node :
  well_named node = true ->
  constructTree (node_toString node) = Returned node.
Proof.
  exact (constructTree_node_toString node).
Qed.

Lemma constructTree_of_toString_witness :
  constructTree (node_toString CliSample.add_tree) = Returned CliSample.add_tree.
Proof. apply (constructTree_of_toString CliSample.add_tree). reflexivity. Defined.

Lemma constructTree_empty_arguments name :
  all_letters name = true ->
  constructTree (name ++ "()")%string = Thrown ParseError.
Proof.
  intros H.
  pose proof (constructTree_within_enough (name ++ "()")%string
                (S (String.length (name ++ "()")%string))) as E.
  pose proof (remove_spaces_length (name ++ "()")%string) as Hl.
  specialize (E ltac:(lia)). rewrite constructTree_within_S in E. cbv zeta in E.
  rewrite remove_spaces_app, remove_spaces_letters in E by exact H.
  cbn [remove_spaces Ascii.eqb Bool.eqb] in E.
  assert (Hm : matches_name (name ++ "()") = false).
  { unfold matches_name. rewrite all_letters_app_paren. apply andb_false_r. }
  rewrite Hm in E.
  assert (Ha : match_application (name ++ "()") = None).
  { unfold match_application.
    rewrite take_letters_app_paren, drop_letters_app_paren by exact H.
    destruct name; reflexivity. }
  rewrite Ha in E. congruence.
Qed.

(** X19.  An application without arguments does not parse: a name
    followed by [()] is a parse error, and so is the empty string. *)
Theorem constructTree_rejects_empty_arguments name :
  all_letters name = true ->
  constructTree (name ++ "()")%string = Thrown ParseError
  /\ constructTree EmptyString = Thrown ParseError.
Proof.
  intros H. split; [exact (constructTree_empty_arguments name H) | reflexivity].
Qed.

Lemma constructTree_rejects_empty_arguments_witness :
  constructTree "nat()" = Thrown ParseError.
Proof. apply (constructTree_rejects_empty_arguments "nat"). reflexivity. Defined.

(** ** Interning *)

Lemma find_name_some {A} (name_of : A -> string) name l x :
  find (fun i => String.eqb (name_of i) name) l = Some x ->
  name_of x = name /\ In x l.
Proof.
  intros H. apply find_some in H. destruct H as [Hin He].
  apply String.eqb_eq in He. auto.
Qed.

Lemma find_name_app {A} (name_of : A -> string) name l l' x :
  find (fun i => String.eqb (name_of i) name) l = Some x ->
  find (fun i => String.eqb (name_of i) name) (l ++ l') = Some x.
Proof.
  induction l as [| a l IH]; simpl; [discriminate | ].
  destruct (String.eqb (name_of a) name); auto.
Qed.

Lemma find_name_snoc {A} (name_of : A -> string) name l x :
  find (fun i => String.eqb (name_of i) name) l = None ->
  name_of x = name ->
  find (fun i => String.eqb (name_of i) name) (l ++ [x]) = Some x.
Proof.
  intros H Hx. induction l as [| a l IH]; simpl in *.
  - rewrite Hx, String.eqb_refl. reflexivity.
  - destruct (String.eqb (name_of a) name); [discriminate | auto].
Qed.

Lemma find_name_none {A} (name_of : A -> string) name l :
  find (fun i => String.eqb (name_of i) name) l = None -> ~ In name (map name_of l).
Proof.
  intros H Hin. apply in_map_iff in Hin. destruct Hin as (a & Ha & Hin).
  apply (find_none _ _ H) in Hin. simpl in Hin. rewrite Ha, String.eqb_refl in Hin.
  discriminate.
Qed.

Lemma NoDup_snoc {A} (l : list A) x : NoDup l -> ~ In x l -> NoDup (l ++ [x]).
Proof.
  intros Hl Hx. induction Hl as [| a l Ha Hl IH]; simpl.
  - constructor; [intros [] | constructor].
  - constructor.
    + rewrite in_app_iff. simpl. intros [H | [-> | []]]; [auto | ].
      apply Hx. left. reflexivity.
    + apply IH. intros H. apply Hx. right. exact H.
Qed.

Ltac interns_tac get name_of table make :=
  intros name this n x this1 n1 H; unfold get in H;
  destruct (find (fun i => String.eqb (name_of i) name) (table this)) as [found |] eqn:E;
  [ injection H as <- <- <-;
    destruct (find_name_some _ _ _ _ E) as [Hname Hin];
    split; [exact Hname | ]; split; [exact Hin | ];
    split; [unfold get; rewrite E; reflexivity | ];
    split; [ | auto];
    intros name2 x2 this2 n2 H2; unfold get in H2;
    destruct (find (fun i => String.eqb (name_of i) name2) (table this)) as [f2 |];
    injection H2 as <- <- <-; unfold get; simpl;
    [rewrite E | rewrite (find_name_app _ _ _ _ _ E)]; reflexivity
  | injection H as <- <- <-; simpl;
    pose proof (find_name_snoc name_of name (table this) (make n name) E eq_refl) as Hs;
    simpl in Hs;
    split; [reflexivity | ];
    split; [apply in_or_app; right; left; reflexivity | ];
    split; [unfold get; simpl; rewrite Hs; reflexivity | ];
    split;
    [ intros name2 x2 this2 n2 H2; unfold get in H2; simpl in H2;
      match type of H2 with
      | match ?f with _ => _ end = _ => destruct f as [f2 |]
      end;
      injection H2 as <- <- <-; unfold get; simpl;
      [rewrite Hs | rewrite (find_name_app _ _ _ _ _ Hs)]; reflexivity
    | intros Hnd; rewrite map_app; simpl;
      apply NoDup_snoc; [exact Hnd | apply (find_name_none _ _ _ E)] ] ].

Lemma interns_constants : Interns constant_name Cli.constants Cli.getOrCreateConstant.
Proof. interns_tac Cli.getOrCreateConstant constant_name Cli.constants mkConstant. Qed.

Lemma interns_functors : Interns functor_name Cli.functors Cli.getOrCreateFunctor.
Proof. interns_tac Cli.getOrCreateFunctor functor_name Cli.functors mkFunctor. Qed.

Lemma interns_predicates : Interns predicate_name Cli.predicates Cli.getOrCreatePredicate.
Proof. interns_tac Cli.getOrCreatePredicate predicate_name Cli.predicates mkPredicate. Qed.

(** X20.  The three [getOrCreate] methods intern names.  The object
    returned has the name asked for; asking for a name again, at once
    or after other names, returns the same object without allocating;
    and no two objects of a table ever have the same name. *)
Theorem getOrCreate_interns :
  Interns constant_name Cli.constants Cli.getOrCreateConstant
  /\ Interns functor_name Cli.functors Cli.getOrCreateFunctor
  /\ Interns predicate_name Cli.predicates Cli.getOrCreatePredicate.
Proof.
  split; [ | split].
  - exact interns_constants.
  - exact interns_functors.
  - exact interns_predicates.
Qed.

Lemma getOrCreate_interns_witness :
  Cli.getOrCreateConstant "z" (Cli.mk [mkConstant 0 "z"] [] []) 1
  = (mkConstant 0 "z", Cli.mk [mkConstant 0 "z"] [] [], 1).
Proof.
  destruct getOrCreate_interns as [C _].
  apply (C "z"%string CliSample.empty 0 (mkConstant 0 "z")
           (Cli.mk [mkConstant 0 "z"] [] []) 1 eq_refl).
Defined.

(** ** [constructTerm] *)

Lemma constructTerm_children value c cs this n :
  Cli.constructTerm (mkNode value (c :: cs)) this n
  = let '(f, this1, n1) := Cli.getOrCreateFunctor value this n in
    let '(r, this2, n2) := Cli.constructTerms (c :: cs) this1 n1 in
    match r with
    | Thrown e => (Thrown e, this2, n2)
    | Returned tms => (Returned (Application n2 f tms), this2, S n2)
    end.
Proof.
  cbn [Cli.constructTerm Cli.constructTerms].
  destruct (Cli.getOrCreateFunctor value this n) as [[f this1] n1].
  destruct (Cli.constructTerm c this1 n1) as [[[tm | e] t0] k0]; [ | reflexivity].
  remember (Cli.constructTerms cs t0 k0) as rhs eqn:Erhs.
  match goal with
  | |- context [?loop cs t0 k0] =>
      assert (E : forall nodes t k, loop nodes t k = Cli.constructTerms nodes t k)
  end.
  { induction nodes as [| x xs IH]; intros t k; simpl; [reflexivity | ].
    destruct (Cli.constructTerm x t k) as [[[tm' | e] t1] k1]; [ | reflexivity].
    rewrite IH. reflexivity. }
  rewrite E, <- Erhs. reflexivity.
Qed.

Lemma getOrCreateConstant_name name this n :
  constant_name (fst (fst (Cli.getOrCreateConstant name this n))) = name.
Proof.
  destruct (Cli.getOrCreateConstant name this n) as [[c this1] n1] eqn:E.
  apply (interns_constants _ _ _ _ _ _ E).
Qed.

Lemma getOrCreateFunctor_name name this n :
  functor_name (fst (fst (Cli.getOrCreateFunctor name this n))) = name.
Proof.
  destruct (Cli.getOrCreateFunctor name this n) as [[c this1] n1] eqn:E.
  apply (interns_functors _ _ _ _ _ _ E).
Qed.

Lemma getOrCreatePredicate_name name this n :
  predicate_name (fst (fst (Cli.getOrCreatePredicate name this n))) = name.
Proof.
  destruct (Cli.getOrCreatePredicate name this n) as [[c this1] n1] eqn:E.
  apply (interns_predicates _ _ _ _ _ _ E).
Qed.

Lemma constructTerm_text node :
  forall this n t this' n',
    Cli.constructTerm node this n = (Returned t, this', n') ->
    term_toString t = node_toString node.
Proof.
  induction node as [value children IH] using Node_induction.
  intros this n t this' n' H. destruct children as [| c cs].
  - simpl in H. destruct (startsWithUpperCase value) as [[|] | e]; try discriminate.
    + injection H as <- _ _. reflexivity.
    + pose proof (getOrCreateConstant_name value this n) as Hn.
      destruct (Cli.getOrCreateConstant value this n) as [[k this1] n1].
      injection H as <- _ _. exact Hn.
  - rewrite constructTerm_children in H.
    pose proof (getOrCreateFunctor_name value this n) as Hn.
    destruct (Cli.getOrCreateFunctor value this n) as [[f this1] n1]. simpl in Hn.
    destruct (Cli.constructTerms (c :: cs) this1 n1) as [[[tms | e] this2] n2] eqn:E;
      [ | discriminate].
    injection H as <- _ _.
    assert (Hts : forall l this0 n0 tms0 this3 n3,
               Forall (fun nd => forall this n t this' n',
                           Cli.constructTerm nd this n = (Returned t, this', n') ->
                           term_toString t = node_toString nd) l ->
               Cli.constructTerms l this0 n0 = (Returned tms0, this3, n3) ->
               map term_toString tms0 = map node_toString l).
    { induction l as [| x xs IHl]; intros this0 n0 tms0 this3 n3 Hl Hc; simpl in Hc.
      - injection Hc as <- _ _. reflexivity.
      - inversion Hl as [| ? ? Hx Hxs]; subst.
        destruct (Cli.constructTerm x this0 n0) as [[[tm | e] t1] k1] eqn:Ex; [ | discriminate].
        destruct (Cli.constructTerms xs t1 k1) as [[[tms1 | e] t2] k2] eqn:Exs; [ | discriminate].
        injection Hc as <- _ _. simpl. rewrite (Hx _ _ _ _ _ Ex), (IHl _ _ _ _ _ Hxs Exs).
        reflexivity. }
    change (node_toString (mkNode value (c :: cs)))
      with (value ++ "(" ++ String.concat ", " (map node_toString (c :: cs)) ++ ")")%string.
    simpl. rewrite Hn, (Hts _ _ _ _ _ _ IH E). reflexivity.
Qed.

Lemma startsWithUpperCase_returns value :
  matches_name value = true -> exists b, startsWithUpperCase value = Returned b.
Proof.
  intros H. destruct (matches_name_inv _ H) as [Hl _].
  destruct value; [simpl in Hl; lia | eexists; reflexivity].
Qed.

Lemma constructTerm_returns node :
  well_named node = true ->
  forall this n, exists t this' n', Cli.constructTerm node this n = (Returned t, this', n').
Proof.
  induction node as [value children IH] using Node_induction. intros Hw this n.
  destruct (well_named_inv _ _ Hw) as [Hv Hcs].
  destruct children as [| c cs].
  - simpl. destruct (startsWithUpperCase_returns _ Hv) as [b Hb]. rewrite Hb.
    destruct b; [eexists; eexists; eexists; reflexivity | ].
    destruct (Cli.getOrCreateConstant value this n) as [[k this1] n1].
    eexists; eexists; eexists; reflexivity.
  - rewrite constructTerm_children.
    destruct (Cli.getOrCreateFunctor value this n) as [[f this1] n1].
    assert (Hts : forall l,
               Forall (fun nd => well_named nd = true) l ->
               Forall (fun nd => well_named nd = true ->
                                 forall this n, exists t this' n',
                                     Cli.constructTerm nd this n = (Returned t, this', n')) l ->
               forall this0 n0, exists tms this3 n3,
                   Cli.constructTerms l this0 n0 = (Returned tms, this3, n3)).
    { induction l as [| x xs IHl]; intros Hwl Hl this0 n0; simpl.
      - eexists; eexists; eexists; reflexivity.
      - inversion Hwl as [| ? ? Hx Hwl']; subst. inversion Hl as [| ? ? Hxr Hl']; subst.
        destruct (Hxr Hx this0 n0) as (tm & t1 & k1 & Ex). rewrite Ex.
        destruct (IHl Hwl' Hl' t1 k1) as (tms & t2 & k2 & Exs). rewrite Exs.
        eexists; eexists; eexists; reflexivity. }
    destruct (Hts (c :: cs) Hcs IH this1 n1) as (tms & this2 & n2 & E). rewrite E.
    eexists; eexists; eexists; reflexivity.
Qed.

(** X21.  [constructTerm] keeps the text of the tree: the term it
    returns has the [toString] of the tree it was built from; and on a
    tree whose names are non-empty strings of letters it does return a
    term. *)
Theorem constructTerm_keeps_text node this n :
  (forall t this' n',
      Cli.constructTerm node this n = (Returned t, this', n') ->
      term_toString t = node_toString node)
  /\ (well_named node = true ->
      exists t this' n', Cli.constructTerm node this n = (Returned t, this', n')).
Proof.
  split.
  - intros t this' n'. apply constructTerm_text.
  - intros Hw. apply constructTerm_returns, Hw.
Qed.

Lemma constructTerm_keeps_text_witness :
  exists t this' n',
    Cli.constructTerm CliSample.add_tree CliSample.empty 0 = (Returned t, this', n')
    /\ term_toString t = "add(s(X), Y, s(Z))"%string.
Proof.
  destruct (constructTerm_keeps_text CliSample.add_tree CliSample.empty 0) as [T R].
  destruct (R eq_refl) as (t & this' & n' & E).
  exists t, this', n'. split; [exact E | exact (T t this' n' E)].
Defined.

(** ** One variable for each name *)

Lemma names_get_app names l k r :
  Cli.names_get names k = Some r -> Cli.names_get (names ++ l) k = Some r.
Proof.
  unfold Cli.names_get. induction names as [| [k' v] names IH]; simpl; [discriminate | ].
  destruct (String.eqb k' k); auto.
Qed.

Lemma names_get_snoc names k' v k :
  Cli.names_get names k = None ->
  Cli.names_get (names ++ [(k', v)]) k = if String.eqb k' k then Some v else None.
Proof.
  unfold Cli.names_get. induction names as [| [k0 v0] names IH]; simpl.
  - intros _. destruct (String.eqb k' k); reflexivity.
  - destruct (String.eqb k0 k); [discriminate | exact IH].
Qed.

Lemma sharing_step seen state v :
  sharing seen state -> sharing (seen ++ [v]) (Cli.share_variable state v).
Proof.
  destruct state as [names subs]. intros (Ia & Ib & Ic). unfold Cli.share_variable. simpl.
  destruct (Cli.names_get names (variable_name v)) as [r |] eqn:E; cbn [fst snd] in *.
  - split; [exact Ia | ]. split; cbn [fst snd].
    + intros s Hs. apply in_app_iff in Hs. destruct Hs as [Hs | [<- | []]]; [auto | ].
      exists r. split; [reflexivity | exact E].
    + intros w Hw. apply in_app_iff in Hw. destruct Hw as [Hw | [<- | []]].
      * destruct (Ic w Hw) as (r' & Hr' & Hor). exists r'. split; [exact Hr' | ].
        destruct Hor as [-> | Hin]; [left; reflexivity | right; apply in_or_app; left; exact Hin].
      * exists r. split; [exact E | ]. right. apply in_or_app. right. left. reflexivity.
  - split; [ | split]; cbn [fst snd].
    + intros k r Hk. destruct (Cli.names_get names k) as [r0 |] eqn:E0.
      * rewrite (names_get_app _ _ _ _ E0) in Hk. injection Hk as <-. apply Ia, E0.
      * rewrite (names_get_snoc _ _ _ _ E0) in Hk.
        destruct (String.eqb (variable_name v) k) eqn:Ek; [ | discriminate].
        injection Hk as <-. apply String.eqb_eq, Ek.
    + intros s Hs. destruct (Ib s Hs) as (r & Hr & Hg). exists r.
      split; [exact Hr | apply names_get_app, Hg].
    + intros w Hw. apply in_app_iff in Hw. destruct Hw as [Hw | [<- | []]].
      * destruct (Ic w Hw) as (r' & Hr' & Hor). exists r'.
        split; [apply names_get_app, Hr' | exact Hor].
      * exists v. split; [ | left; reflexivity].
        rewrite (names_get_snoc _ _ _ _ E), String.eqb_refl. reflexivity.
Qed.

Lemma sharing_fold vs :
  forall seen state,
    sharing seen state -> sharing (seen ++ vs) (fold_left Cli.share_variable vs state).
Proof.
  induction vs as [| v vs IH]; intros seen state H; simpl.
  - rewrite app_nil_r. exact H.
  - replace (seen ++ v :: vs) with ((seen ++ [v]) ++ vs)
      by (rewrite <- app_assoc; reflexivity).
    apply IH, sharing_step, H.
Qed.

Lemma sharing_start : sharing [] ([], []).
Proof.
  split; [ | split].
  - intros k r H. discriminate.
  - intros s [].
  - intros v [].
Qed.

Lemma share_terms_fold terms :
  forall state,
    Cli.share_terms state terms
    = fold_left Cli.share_variable (flat_map listVariables terms) state.
Proof.
  unfold Cli.share_terms. induction terms as [| t ts IH]; intros state; simpl; [reflexivity | ].
  rewrite IH, fold_left_app. reflexivity.
Qed.

(** Sequential application of the bindings sends every variable to its
    representative. *)
Lemma sapplyAll_representative rho subs :
  (forall x, rho (rho x) = rho x) ->
  (forall s, In s subs -> Substitution.term s = Var (rho (Substitution.variable s))) ->
  forall x,
    (sapplyAll (map binding subs) (SVar x) = SVar x
     \/ sapplyAll (map binding subs) (SVar x) = SVar (rho x))
    /\ (In (Substitution.mk x (Var (rho x))) subs ->
        sapplyAll (map binding subs) (SVar x) = SVar (rho x)).
Proof.
  intros Hid. induction subs as [| s subs IH]; intros Hs x.
  - split; [left; reflexivity | intros []].
  - assert (Hs' : forall s0, In s0 subs ->
                             Substitution.term s0 = Var (rho (Substitution.variable s0)))
      by (intros s0 H0; apply Hs; right; exact H0).
    change (sapplyAll (map binding (s :: subs)) (SVar x))
      with (sapplyAll (map binding subs)
              (sapply (Substitution.variable s) (syntax (Substitution.term s)) (SVar x))).
    simpl. destruct (variable_same x (Substitution.variable s)) eqn:E.
    + apply variable_same_eq in E. subst x.
      rewrite (Hs s (or_introl eq_refl)). simpl.
      destruct (IH Hs' (rho (Substitution.variable s))) as [[H | H] _];
        rewrite H, ?Hid; split; auto.
    + apply variable_same_neq in E. destruct (IH Hs' x) as [Hor Hin].
      split; [exact Hor | ]. intros [Heq | H]; [ | exact (Hin H)].
      subst s. simpl in E. congruence.
Qed.

Lemma sapplyAll_variables_rename bs rho t :
  (forall v, In v (svars t) -> sapplyAll bs (SVar v) = SVar (rho v)) ->
  sapplyAll bs t = srename rho t.
Proof.
  induction t as [v | c | f args IH] using Syntax_induction; intros H.
  - apply H. left. reflexivity.
  - apply sapplyAll_SConst.
  - rewrite sapplyAll_SApp. simpl. f_equal. apply map_ext_in. intros a Ha.
    rewrite Forall_forall in IH. apply IH; [exact Ha | ].
    intros v Hv. apply H. simpl. apply in_flat_map. eauto.
Qed.

(** The outcome of the loop, for the variables [vs] it has read. *)
Lemma share_variables_result vs names subs :
  fold_left Cli.share_variable vs ([], []) = (names, subs) ->
  (forall v, In v vs -> variable_name (representative names v) = variable_name v)
  /\ (forall v w, In v vs -> In w vs -> variable_name v = variable_name w ->
                  representative names v = representative names w)
  /\ (forall t, (forall v, In v (svars t) -> In v vs) ->
                sapplyAll (map binding subs) t = srename (representative names) t).
Proof.
  intros H. pose proof (sharing_fold vs [] _ sharing_start) as Hsh.
  simpl in Hsh. rewrite H in Hsh. destruct Hsh as (Ia & Ib & Ic). simpl in *.
  assert (Hname : forall v, variable_name (representative names v) = variable_name v).
  { intros v. unfold representative.
    destruct (Cli.names_get names (variable_name v)) as [r |] eqn:E; [apply Ia, E | reflexivity]. }
  assert (Hid : forall x, representative names (representative names x) = representative names x).
  { intros x. unfold representative at 1. rewrite Hname. unfold representative.
    destruct (Cli.names_get names (variable_name x)); reflexivity. }
  split; [intros v _; apply Hname | ]. split.
  - intros v w Hv _ Hvw. destruct (Ic v Hv) as (r & Hr & _).
    unfold representative. rewrite <- Hvw, Hr. reflexivity.
  - intros t Ht. apply sapplyAll_variables_rename. intros v Hv.
    assert (Hsubs : forall s, In s subs ->
                      Substitution.term s = Var (representative names (Substitution.variable s))).
    { intros s Hs. destruct (Ib s Hs) as (r & Hr & Hg). unfold representative.
      rewrite Hg. exact Hr. }
    destruct (sapplyAll_representative _ subs Hid Hsubs v) as [Hor Hin].
    destruct (Ic v (Ht v Hv)) as (r & Hr & Hcase).
    assert (Hrep : representative names v = r) by (unfold representative; rewrite Hr; reflexivity).
    destruct Hcase as [-> | Hmem].
    + destruct Hor as [Hx | Hx]; rewrite Hx, ?Hrep; reflexivity.
    + rewrite <- Hrep in Hmem. exact (Hin Hmem).
Qed.

Lemma in_renamed_svars rho ts v :
  In v (flat_map svars (map (srename rho) ts)) ->
  exists u, In u (flat_map svars ts) /\ v = rho u.
Proof.
  rewrite in_flat_map. intros (t' & Ht' & Hv).
  apply in_map_iff in Ht'. destruct Ht' as (t & <- & Ht).
  rewrite svars_srename in Hv. apply in_map_iff in Hv. destruct Hv as (u & <- & Hu).
  exists u. split; [apply in_flat_map; eauto | reflexivity].
Qed.

Lemma in_variables_of_terms terms u :
  In u (flat_map svars (map syntax terms)) <-> In u (flat_map listVariables terms).
Proof.
  rewrite !in_flat_map. split.
  - intros (t' & Ht' & Hu). apply in_map_iff in Ht'. destruct Ht' as (t & <- & Ht).
    exists t. split; [exact Ht | apply In_listVariables, Hu].
  - intros (t & Ht & Hu). exists (syntax t). split; [apply in_map, Ht | ].
    apply In_listVariables, Hu.
Qed.

(** The terms after the pass, for any terms whose variables the loop
    has read: renamed by a map that keeps the names and identifies the
    variables of the same name. *)
Lemma shared_terms vs names subs terms n :
  fold_left Cli.share_variable vs ([], []) = (names, subs) ->
  (forall u, In u (flat_map listVariables terms) -> In u vs) ->
  map syntax (fst (applyAll_each terms subs n))
  = map (srename (representative names)) (map syntax terms).
Proof.
  intros H Hsub. destruct (share_variables_result _ _ _ H) as (_ & _ & Hren).
  rewrite syntax_applyAll_each. apply map_ext_in. intros t Ht. apply Hren.
  intros v Hv. apply Hsub. apply in_variables_of_terms. apply in_flat_map. eauto.
Qed.

Lemma renamed_names_identify vs names subs (ts : list Syntax) :
  fold_left Cli.share_variable vs ([], []) = (names, subs) ->
  (forall u, In u (flat_map svars ts) -> In u vs) ->
  names_identify (flat_map svars (map (srename (representative names)) ts)).
Proof.
  intros H Hsub v w Hv Hw Hname.
  destruct (share_variables_result _ _ _ H) as (Hn & Heq & _).
  destruct (in_renamed_svars _ _ _ Hv) as (u & Hu & ->).
  destruct (in_renamed_svars _ _ _ Hw) as (u' & Hu' & ->).
  apply Hsub in Hu. apply Hsub in Hu'.
  apply Heq; auto. rewrite <- (Hn u Hu), <- (Hn u' Hu'). exact Hname.
Qed.

Lemma parseFact_inv s this n f this' n' :
  Cli.parseFact s this n = (Returned f, this', n') ->
  exists tree this1 n1 terms n2 names subs,
    constructTree s = Returned tree
    /\ Cli.getOrCreatePredicate (node_value tree) this n = (Fact.predicate f, this1, n1)
    /\ Cli.constructTerms (node_children tree) this1 n1 = (Returned terms, this', n2)
    /\ Cli.share_terms ([], []) terms = (names, subs)
    /\ map syntax (Fact.terms f)
       = map (srename (representative names)) (map syntax terms).
Proof.
  unfold Cli.parseFact. intros H.
  destruct (constructTree s) as [tree | e]; [ | discriminate].
  destruct (Cli.getOrCreatePredicate (node_value tree) this n) as [[p this1] n1] eqn:Ep.
  destruct (Cli.constructTerms (node_children tree) this1 n1) as [[[terms | e] this2] n2] eqn:Et;
    [ | discriminate].
  destruct (Cli.share_terms ([], []) terms) as [names subs] eqn:Es. cbn [snd] in H.
  pose proof (shared_terms (flat_map listVariables terms) names subs terms n2) as Hsh.
  rewrite share_terms_fold in Es. specialize (Hsh Es (fun u Hu => Hu)).
  destruct (applyAll_each terms subs n2) as [tms n3]. injection H as <- <- <-.
  exists tree, this1, n1, terms, n2, names, subs. rewrite share_terms_fold.
  repeat split; auto.
Qed.

(** X22.  In a fact that [parseFact] returns, variables are identified
    by their names: two variables of the fact with the same name are the
    same variable, however often the name occurs in the text. *)
Theorem parseFact_shares_variables s this n f this' n' :
  Cli.parseFact s this n = (Returned f, this', n') ->
  names_identify (fact_variables f).
Proof.
  intros H. destruct (parseFact_inv _ _ _ _ _ _ H)
    as (tree & this1 & n1 & terms & n2 & names & subs & _ & _ & _ & Es & Hsyn).
  rewrite share_terms_fold in Es.
  pose proof (renamed_names_identify _ _ _ (map syntax terms) Es) as Hid.
  intros v w Hv Hw. apply In_fact_variables in Hv, Hw.
  unfold atom_svars, fact_syntax in Hv, Hw. cbn [snd] in Hv, Hw. rewrite Hsyn in Hv, Hw.
  apply Hid; auto. intros u Hu. apply in_variables_of_terms, Hu.
Qed.

Lemma parseFact_shares_variables_witness :
  names_identify
    (fact_variables
       (Fact.mk (mkPredicate 0 "add")
          [Const (mkConstant 1 "z"); Var (mkVariable 2 "Y"); Var (mkVariable 2 "Y")])).
Proof.
  apply (parseFact_shares_variables "add(z, Y, Y)" CliSample.empty 0 _
           (Cli.mk [mkConstant 1 "z"] [] [mkPredicate 0 "add"]) 4).
  reflexivity.
Defined.

Lemma share_atoms_fold (atoms : list Atom) :
  forall state,
    fold_left (fun state a => Cli.share_terms state (terms a)) atoms state
    = fold_left Cli.share_variable
        (flat_map (fun a => flat_map listVariables (terms a)) atoms) state.
Proof.
  induction atoms as [| a atoms IH]; intros state; simpl; [reflexivity | ].
  rewrite IH, fold_left_app, share_terms_fold. reflexivity.
Qed.

(** The representatives of the variables the loop has read are
    identified by their names. *)
Lemma representatives_identified vs names subs v w :
  fold_left Cli.share_variable vs ([], []) = (names, subs) ->
  (exists u, In u vs /\ v = representative names u) ->
  (exists u, In u vs /\ w = representative names u) ->
  variable_name v = variable_name w -> v = w.
Proof.
  intros H (u & Hu & ->) (u' & Hu' & ->) Hname.
  destruct (share_variables_result _ _ _ H) as (Hn & Heq & _).
  apply Heq; auto. rewrite <- (Hn u Hu), <- (Hn u' Hu'). exact Hname.
Qed.

Lemma shared_terms_variables vs names subs terms n v :
  fold_left Cli.share_variable vs ([], []) = (names, subs) ->
  (forall u, In u (flat_map listVariables terms) -> In u vs) ->
  In v (flat_map svars (map syntax (fst (applyAll_each terms subs n)))) ->
  exists u, In u vs /\ v = representative names u.
Proof.
  intros H Hsub Hv. rewrite (shared_terms _ _ _ _ _ H Hsub) in Hv.
  destruct (in_renamed_svars _ _ _ Hv) as (u & Hu & ->).
  exists u. split; [apply Hsub, in_variables_of_terms, Hu | reflexivity].
Qed.

Lemma shared_atoms_variables vs names subs atoms :
  fold_left Cli.share_variable vs ([], []) = (names, subs) ->
  (forall a u, In a atoms -> In u (flat_map listVariables (terms a)) -> In u vs) ->
  forall n a' v,
    In a' (fst (Cli.share_atoms atoms subs n)) ->
    In v (flat_map svars (map syntax (terms a'))) ->
    exists u, In u vs /\ v = representative names u.
Proof.
  intros H. unfold Cli.share_atoms.
  induction atoms as [| a atoms IH]; intros Hsub n a' v Ha' Hv; simpl in Ha'; [destruct Ha' | ].
  pose proof (shared_terms_variables vs names subs (terms a) n v H
                (fun u Hu => Hsub a u (or_introl eq_refl) Hu)) as Hhere.
  destruct (applyAll_each (terms a) subs n) as [tms n1].
  assert (Hrest : forall a0 u, In a0 atoms -> In u (flat_map listVariables (terms a0)) ->
                               In u vs)
    by (intros a0 u Ha0; apply Hsub; right; exact Ha0).
  specialize (IH Hrest n1 a' v).
  destruct (Rule.clone_right atoms subs n1) as [atoms' n2]. simpl in *.
  destruct Ha' as [<- | Ha']; [apply Hhere, Hv | apply IH; assumption].
Qed.

Lemma In_goals_variables v (atoms : list Atom) :
  In v (goals_variables (map (fun a => Goal.mk (predicate a) (terms a)) atoms))
  <-> exists a, In a atoms /\ In v (flat_map svars (map syntax (terms a))).
Proof.
  unfold goals_variables.
  assert (H : forall s,
             In v (fold_left (fun vs goal => collect vs (Goal.terms goal))
                     (map (fun a => Goal.mk (predicate a) (terms a)) atoms) s)
             <-> In v s \/ exists a, In a atoms
                                     /\ In v (flat_map svars (map syntax (terms a)))).
  { induction atoms as [| a atoms IH]; intros s; simpl.
    - split; [auto | intros [H | (a & [] & _)]; exact H].
    - rewrite IH, In_collect_svars. split.
      + intros [[H | H] | (a' & Ha' & H)]; eauto.
      + intros [H | (a' & [-> | Ha'] & H)]; eauto. }
  rewrite H. simpl. split; [intros [[] | H0]; exact H0 | auto].
Qed.

(** X23.  In the goals that [parseGoals] returns, variables are
    identified by their names across all the goals of the line: two
    variables with the same name, in the same goal or in two of them,
    are the same variable. *)
Theorem parseGoals_shares_variables s this n goals this' n' :
  Cli.parseGoals s this n = (Returned goals, this', n') ->
  names_identify (goals_variables goals).
Proof.
  unfold Cli.parseGoals. intros H.
  destruct (Cli.constructTrees (split s)) as [trees | e]; [ | discriminate].
  destruct (Cli.constructAtoms trees this n) as [[[atoms | e] this1] n1]; [ | discriminate].
  destruct (fold_left (fun state goal => Cli.share_terms state (terms goal)) atoms ([], []))
    as [names subs] eqn:Es.
  cbn [snd] in H. rewrite share_atoms_fold in Es.
  pose proof (shared_atoms_variables _ names subs atoms Es) as Hvars.
  destruct (Cli.share_atoms atoms subs n1) as [atoms' n2] eqn:Ea.
  injection H as <- <- <-.
  assert (Hin : forall v,
             In v (goals_variables (map (fun a => Goal.mk (predicate a) (terms a)) atoms')) ->
             exists u, In u (flat_map (fun a => flat_map listVariables (terms a)) atoms)
                       /\ v = representative names u).
  { intros v Hv. apply In_goals_variables in Hv. destruct Hv as (a' & Ha' & Hv).
    apply (Hvars (fun a u Ha Hu => proj2 (in_flat_map _ _ _) (ex_intro _ a (conj Ha Hu)))
             n1 a' v); [rewrite Ea; exact Ha' | exact Hv]. }
  intros v w Hv Hw. apply (representatives_identified _ _ _ v w Es); auto.
Qed.

Lemma parseGoals_shares_variables_witness :
  names_identify
    (goals_variables
       [Goal.mk (mkPredicate 0 "p") [Var (mkVariable 1 "X")];
        Goal.mk (mkPredicate 2 "q") [Var (mkVariable 1 "X"); Var (mkVariable 4 "Y")]]).
Proof.
  apply (parseGoals_shares_variables "p(X), q(X, Y)" CliSample.empty 0 _
           (Cli.mk [] [] [mkPredicate 0 "p"; mkPredicate 2 "q"]) 5).
  reflexivity.
Defined.

(** X24.  In a rule that [parseRule] returns, variables are identified
    by their names across the head and the body: two variables of the
    rule with the same name are the same variable. *)
Theorem parseRule_shares_variables s this n r this' n' :
  Cli.parseRule s this n = (Returned r, this', n') ->
  names_identify (rule_variables r).
Proof.
  unfold Cli.parseRule. intros H.
  destruct (constructTree (before_neck s)) as [tree | e]; [ | discriminate].
  destruct (Cli.getOrCreatePredicate (node_value tree) this n) as [[p this1] n1].
  destruct (Cli.constructTerms (node_children tree) this1 n1)
    as [[[left_terms | e] this2] n2]; [ | discriminate].
  destruct (after_neck s) as [rest | ]; [ | discriminate].
  destruct (Cli.constructTrees (split (before_neck rest))) as [trees | e]; [ | discriminate].
  destruct (Cli.constructAtoms trees this2 n2) as [[[right_atoms | e] this3] n3];
    [ | discriminate].
  destruct (fold_left (fun state a => Cli.share_terms state (terms a)) right_atoms
              (Cli.share_terms ([], []) left_terms)) as [names subs] eqn:Es.
  cbn [snd] in H. rewrite share_atoms_fold, share_terms_fold, <- fold_left_app in Es.
  pose proof (fun v => shared_terms_variables _ names subs left_terms n3 v Es) as Hleft.
  pose proof (shared_atoms_variables _ names subs right_atoms Es) as Hright.
  destruct (applyAll_each left_terms subs n3) as [ltms n4].
  destruct (Cli.share_atoms right_atoms subs n4) as [atoms n5] eqn:Ea.
  injection H as <- <- <-.
  assert (Hin : forall v,
             In v (rule_variables (Rule.mk (mkAtom p ltms) atoms)) ->
             exists u,
               In u (flat_map listVariables left_terms
                     ++ flat_map (fun a => flat_map listVariables (terms a)) right_atoms)
               /\ v = representative names u).
  { intros v Hv. apply In_rule_variables in Hv. cbn [Rule.left Rule.right] in Hv.
    destruct Hv as [Hv | (a' & Ha' & Hv)].
    - apply Hleft; [intros u Hu; apply in_or_app; left; exact Hu | exact Hv].
    - apply (Hright (fun a u Ha Hu =>
                       in_or_app _ _ _
                         (or_intror (proj2 (in_flat_map _ _ _) (ex_intro _ a (conj Ha Hu)))))
               n4 a' v); [rewrite Ea; exact Ha' | exact Hv]. }
  intros v w Hv Hw. apply (representatives_identified _ _ _ v w Es); auto.
Qed.

Lemma parseRule_shares_variables_witness :
  names_identify
    (rule_variables
       (Rule.mk (mkAtom (mkPredicate 0 "p") [Var (mkVariable 1 "X"); Var (mkVariable 2 "Y")])
          [mkAtom (mkPredicate 3 "q") [Var (mkVariable 1 "X")];
           mkAtom (mkPredicate 5 "r") [Var (mkVariable 2 "Y"); Var (mkVariable 1 "X")]])).
Proof.
  apply (parseRule_shares_variables "p(X, Y) :- q(X), r(Y, X)" CliSample.empty 0 _
           (Cli.mk [] [] [mkPredicate 0 "p"; mkPredicate 3 "q"; mkPredicate 5 "r"]) 8).
  reflexivity.
Defined.

(** ** The text of a parsed fact *)

Lemma constructTerms_text l :
  forall this n tms this' n',
    Cli.constructTerms l this n = (Returned tms, this', n') ->
    map term_toString tms = map node_toString l.
Proof.
  induction l as [| x xs IH]; intros this n tms this' n' H; simpl in H.
  - injection H as <- _ _. reflexivity.
  - destruct (Cli.constructTerm x this n) as [[[tm | e] t1] k1] eqn:Ex; [ | discriminate].
    destruct (Cli.constructTerms xs t1 k1) as [[[tms1 | e] t2] k2] eqn:Exs; [ | discriminate].
    injection H as <- _ _. simpl.
    rewrite (constructTerm_text _ _ _ _ _ _ Ex), (IH _ _ _ _ _ Exs). reflexivity.
Qed.

Lemma constructTerms_returns l :
  Forall (fun node => well_named node = true) l ->
  forall this n, exists tms this' n', Cli.constructTerms l this n = (Returned tms, this', n').
Proof.
  induction l as [| x xs IH]; intros Hl this n; simpl.
  - eexists; eexists; eexists; reflexivity.
  - inversion Hl as [| ? ? Hx Hxs]; subst.
    destruct (constructTerm_returns x Hx this n) as (tm & t1 & k1 & Ex). rewrite Ex.
    destruct (IH Hxs t1 k1) as (tms & t2 & k2 & Exs). rewrite Exs.
    eexists; eexists; eexists; reflexivity.
Qed.

(** The pass that shares the variables keeps the text of the terms. *)
Lemma shared_terms_text vs names subs terms n :
  fold_left Cli.share_variable vs ([], []) = (names, subs) ->
  (forall u, In u (flat_map listVariables terms) -> In u vs) ->
  map term_toString (fst (applyAll_each terms subs n)) = map term_toString terms.
Proof.
  intros H Hsub.
  pose proof (shared_terms _ _ _ _ n H Hsub) as Hs.
  destruct (share_variables_result _ _ _ H) as (Hn & _ & _).
  rewrite (map_ext term_toString (fun x => syntax_toString (syntax x)) term_toString_syntax).
  rewrite <- (map_map syntax syntax_toString), Hs, !map_map.
  apply map_ext_in. intros t Ht. rewrite term_toString_syntax.
  apply syntax_toString_srename. intros v Hv. apply Hn, Hsub.
  apply in_variables_of_terms, in_flat_map. exists (syntax t).
  split; [apply in_map, Ht | exact Hv].
Qed.

(** X25.  Reading the text of a fact gives a fact with that text: on
    the [toString] of a tree that has arguments and whose names are
    non-empty strings of letters, [parseFact] returns a fact, and the
    [toString] of the fact is the text that was read. *)
Theorem parseFact_of_toString node this n :
  well_named node = true ->
  node_children node <> [] ->
  exists f this' n',
    Cli.parseFact (node_toString node) this n = (Returned f, this', n')
    /\ fact_toString f = node_toString node.
Proof.
  intros Hw Hc. unfold Cli.parseFact. rewrite (constructTree_node_toString node Hw).
  destruct node as [value children]. destruct (well_named_inv _ _ Hw) as [_ Hcs].
  cbn [node_value node_children] in *.
  pose proof (getOrCreatePredicate_name value this n) as Hp.
  destruct (Cli.getOrCreatePredicate value this n) as [[p this1] n1]. cbn [fst] in Hp.
  destruct (constructTerms_returns children Hcs this1 n1) as (terms & this2 & n2 & Et).
  rewrite Et.
  destruct (Cli.share_terms ([], []) terms) as [names subs] eqn:Es. cbn [snd].
  rewrite share_terms_fold in Es.
  pose proof (shared_terms_text _ names subs terms n2 Es (fun u Hu => Hu)) as Htext.
  destruct (applyAll_each terms subs n2) as [tms n3]. cbn [fst] in Htext.
  exists (Fact.mk p tms), this2, n3. split; [reflexivity | ].
  unfold fact_toString, atom_toString. cbn [Fact.predicate Fact.terms].
  rewrite Hp, Htext, (constructTerms_text _ _ _ _ _ _ Et).
  destruct children as [| c cs]; [contradiction Hc; reflexivity | reflexivity].
Qed.

Lemma parseFact_of_toString_witness :
  exists f this' n',
    Cli.parseFact (node_toString CliSample.add_tree) CliSample.empty 0
    = (Returned f, this', n')
    /\ fact_toString f = node_toString CliSample.add_tree.
Proof.
  apply (parseFact_of_toString CliSample.add_tree CliSample.empty 0);
    [reflexivity | simpl; discriminate].
Defined.

(** X26.  A fact without arguments can be read but its text cannot be
    read back: on a name alone [parseFact] returns a fact without
    terms, the [toString] of that fact is the name followed by [()],
    and [parseFact] throws the parse error on that text, whatever the
    tables hold. *)
Theorem parseFact_without_arguments name this n :
  matches_name name = true ->
  exists p this' n',
    Cli.parseFact name this n = (Returned (Fact.mk p []), this', n')
    /\ fact_toString (Fact.mk p []) = (name ++ "()")%string
    /\ forall this2 n2,
        Cli.parseFact (fact_toString (Fact.mk p [])) this2 n2 = (Thrown ParseError, this2, n2).
Proof.
  intros Hm. destruct (matches_name_inv _ Hm) as [_ Hl].
  assert (Hw : well_named (mkNode name []) = true) by (simpl; rewrite Hm; reflexivity).
  pose proof (constructTree_node_toString _ Hw) as Ht. cbn [node_toString] in Ht.
  pose proof (getOrCreatePredicate_name name this n) as Hp.
  destruct (Cli.getOrCreatePredicate name this n) as [[p this1] n1] eqn:Ep. cbn [fst] in Hp.
  assert (Htext : fact_toString (Fact.mk p []) = (name ++ "()")%string).
  { unfold fact_toString, atom_toString. simpl. rewrite Hp. reflexivity. }
  exists p, this1, n1. split; [ | split].
  - unfold Cli.parseFact. rewrite Ht. cbn [node_value node_children]. rewrite Ep.
    reflexivity.
  - exact Htext.
  - intros this2 n2. rewrite Htext. unfold Cli.parseFact.
    rewrite (constructTree_empty_arguments name Hl). reflexivity.
Qed.

Lemma parseFact_without_arguments_witness :
  exists p this' n',
    Cli.parseFact "halt" CliSample.empty 0 = (Returned (Fact.mk p []), this', n')
    /\ fact_toString (Fact.mk p []) = "halt()"%string
    /\ forall this2 n2,
        Cli.parseFact (fact_toString (Fact.mk p [])) this2 n2 = (Thrown ParseError, this2, n2).
Proof. apply (parseFact_without_arguments "halt" CliSample.empty 0). reflexivity. Defined.
